(** * Split_Wise: the ledger accounting engine of [script.js]

    A shallow embedding of the three engine functions of the application
    ([computeSplits], [calculateNetBalances], [calculateSimplifiedDebts]) and
    of the form handler that calls the first one, followed by the properties
    claimed of them.

    JavaScript numbers are IEEE 754 binary64 values; they are modelled by
    Rocq's primitive [float]s, which are the same binary64 values with the
    same correctly rounded operations, so that every definition below can be
    evaluated on concrete inputs and gives the value the script computes. *)

From Stdlib Require Import Reals Lra.
From Stdlib Require Import ZArith List String Bool Uint63 Floats Sorted Permutation Lia.
Import ListNotations.

Set Warnings "-inexact-float".
Local Open Scope string_scope.
Local Open Scope float_scope.
Local Open Scope list_scope.

(* ================================================================== *)
(** ** JavaScript numbers *)

Module JS.

(** The binary64 value nearest to an integer (exact below 2^53). *)
Definition of_Z (z : Z) : float :=
  SF2Prim (binary_normalize prec emax z 0 false).

(** [array.length] as a number (an array has fewer than 2^32 elements). *)
Definition of_nat (n : nat) : float := of_uint63 (Uint63.of_Z (Z.of_nat n)).

(** [ToNumber] of a property read: a missing property is [undefined],
    and [ToNumber(undefined)] is [NaN]. *)
Definition toNumber (v : option float) : float :=
  match v with
  | Some x => x
  | None => nan
  end.

(** [Math.min(x, y)]: [NaN] if either argument is, and [-0] below [+0]. *)
Definition Math_min (x y : float) : float :=
  if is_nan x || is_nan y then nan
  else if x <? y then x
  else if y <? x then y
  else if get_sign x then x else y.

Definition Math_abs (x : float) : float := abs x.

(** [Math.floor(x)]: the largest integer not above [x]; [NaN], the
    infinities and both zeros are returned unchanged. *)
Definition Math_floor (x : float) : float :=
  match Prim2SF x with
  | S754_finite s m e =>
      if (0 <=? e)%Z then x
      else
        let q := Z.shiftr (cond_Zopp s (Zpos m)) (- e) in
        if (q =? 0)%Z then zero else of_Z q
  | _ => x
  end.

(** The integer [n] for which [n / 100] is nearest to [m * 2^e], the
    larger one on a tie (step "let n be an integer for which n / 10^f - x
    is as close to zero as possible" of [Number.prototype.toFixed]). *)
Definition round_half_up_x100 (m : positive) (e : Z) : Z :=
  if (0 <=? e)%Z then Z.shiftl (Zpos m * 100) e
  else Z.shiftr (Zpos m * 200 + Z.shiftl 1 (- e)) (- e + 1).

(** [parseFloat(x.toFixed(2))].  [toFixed] prints the decimal [n / 100]
    (with the sign of [x], so a small negative [x] prints "-0.00"), and
    [parseFloat] reads it back as the nearest binary64 value.  From 1e21
    on [toFixed] prints [x] itself, which [parseFloat] reads back. *)
Definition toFixed2 (x : float) : float :=
  match Prim2SF x with
  | S754_nan => nan
  | S754_infinity _ => x
  | S754_zero _ => zero
  | S754_finite s m e =>
      if (0 <=? e)%Z && (10 ^ 21 <=? Z.shiftl (Zpos m) e)%Z then x
      else
        match round_half_up_x100 m e with
        | Zpos n =>
            SF2Prim (SFdiv prec emax (S754_finite s n 0) (S754_finite false 100 0))
        | _ => if s then neg_zero else zero
        end
  end.

(** A plain object used as a map from string keys to numbers, with its
    properties in insertion order (the order of [Object.entries] for keys
    that are not array indices, as the ids made by [generateId] are).

    The list holds the properties the object has of its own.  That is the
    whole of the object for the keys of [ordinary_key] below, and only for
    them: [o[k]] on a plain object also finds what [Object.prototype]
    holds under [k] when [o] has no property [k] of its own, the assignment
    [o["__proto__"] = v] of a number creates no property, and
    [Object.entries] lists the keys that are array indices first, in
    ascending order. *)
Definition object := list (string * float).

(** The property names of [Object.prototype]. *)
Definition inherited_keys : list string :=
  ["constructor"; "__proto__"; "hasOwnProperty"; "isPrototypeOf";
   "propertyIsEnumerable"; "toLocaleString"; "toString"; "valueOf";
   "__defineGetter__"; "__defineSetter__"; "__lookupGetter__"; "__lookupSetter__"].

Definition is_digit (c : Ascii.ascii) : bool :=
  let n := Ascii.nat_of_ascii c in (48 <=? n)%nat && (n <=? 57)%nat.

(** A key on which a plain object is the list of its own properties in
    insertion order: not a name of [Object.prototype], and not written with
    digits only (as every array index is).  The ids made by [generateId],
    such as "person_1700000000000_ab12cd", are of this kind. *)
Definition ordinary_key (k : string) : bool :=
  negb (existsb (String.eqb k) inherited_keys)
  && (String.eqb k "" || existsb (fun c => negb (is_digit c)) (list_ascii_of_string k)).

(** [o[k]] for an ordinary key [k]: [None] is [undefined]. *)
Fixpoint get (o : object) (k : string) : option float :=
  match o with
  | [] => None
  | (k', v) :: o' => if String.eqb k' k then Some v else get o' k
  end.

(** [o[k] = v] for an ordinary key [k]: an existing property keeps its
    place, a new one is added at the end. *)
Fixpoint set (o : object) (k : string) (v : float) : object :=
  match o with
  | [] => [(k, v)]
  | (k', v') :: o' =>
      if String.eqb k' k then (k', v) :: o' else (k', v') :: set o' k v
  end.

(** [Object.entries(o)] *)
Definition entries (o : object) : list (string * float) := o.

(** [Array.prototype.sort(comparefn)] for a consistent [comparefn]: the
    sort is stable, so its result is the one of any stable sort; an
    insertion sort is used here.  [x] moves behind [y] exactly when
    [comparefn(x, y) > 0]; a [NaN] result counts as [+0]. *)
Section Sort.
Context {A : Type} (comparefn : A -> A -> float).

Fixpoint sort_insert (x : A) (l : list A) : list A :=
  match l with
  | [] => [x]
  | y :: l' =>
      if 0 <? comparefn x y then y :: sort_insert x l' else x :: l
  end.

Definition sort (l : list A) : list A := fold_right sort_insert [] l.
End Sort.

(** [a[n] = x] for [n] inside the array. *)
Fixpoint update {A : Type} (n : nat) (x : A) (l : list A) : list A :=
  match l, n with
  | [], _ => []
  | _ :: l', O => x :: l'
  | y :: l', S n' => y :: update n' x l'
  end.

End JS.

(* ================================================================== *)
(** ** Data model *)

(** An element of [participantSplits]: [{personId, amount}]. *)
Record Split := mkSplit { personId : string; amount : float }.

(** An element of [App.state.people] (the fields the engine does not read
    are kept as data). *)
Record Person := mkPerson { person_id : string; name : string; isYou : bool }.

(** An element of [App.state.expenses].  [id] and [createdAt] come from the
    clock and the random generator and are not read by the engine. *)
Record Expense := mkExpense {
  description : string;
  exp_amount : float;
  date : string;
  payerId : string;
  participantSplits : list Split;
  groupId : string;
  category : string;
  notes : string;
  type : string
}.

(** The part of the global [App.state] the engine reads. *)
Record AppState := mkState { people : list Person; expenses : list Expense }.

(** An element of the [creditors] and [debtors] arrays: [{id, amount}]. *)
Record Party := mkParty { party_id : string; party_amount : float }.

(** An element of the array returned by [calculateSimplifiedDebts]:
    [{fromId, toId, amount}]. *)
Record Settlement := mkSettlement { fromId : string; toId : string; pay_amount : float }.

(* ================================================================== *)
(** ** calculateNetBalances *)

(** One turn of the inner loop of the settlement branch:
    [balances[payerId] -= ps.amount] (no test on [balances[payerId]]), then
    the receiver is created at 0 if missing and credited. *)
Definition settlement_split (payer : string) (balances : JS.object) (ps : Split) : JS.object :=
  let balances := JS.set balances payer (JS.toNumber (JS.get balances payer) - amount ps) in
  let balances :=
    match JS.get balances (personId ps) with
    | None => JS.set balances (personId ps) 0
    | Some _ => balances
    end in
  JS.set balances (personId ps) (JS.toNumber (JS.get balances (personId ps)) + amount ps).

(** One turn of the inner loop of the normal-expense branch. *)
Definition expense_split (payer : string) (balances : JS.object) (ps : Split) : JS.object :=
  let balances :=
    match JS.get balances (personId ps) with
    | None => JS.set balances (personId ps) 0
    | Some _ => balances
    end in
  let balances :=
    JS.set balances (personId ps) (JS.toNumber (JS.get balances (personId ps)) - amount ps) in
  let balances :=
    match JS.get balances payer with
    | None => JS.set balances payer 0
    | Some _ => balances
    end in
  JS.set balances payer (JS.toNumber (JS.get balances payer) + amount ps).

(** The body of [for (const exp of App.state.expenses)]. *)
Definition apply_expense (balances : JS.object) (exp : Expense) : JS.object :=
  if String.eqb (payerId exp) "" || Nat.eqb (List.length (participantSplits exp)) 0
  then balances
  else if String.eqb (type exp) "settlement"
  then fold_left (settlement_split (payerId exp)) (participantSplits exp) balances
  else fold_left (expense_split (payerId exp)) (participantSplits exp) balances.

Definition calculateNetBalances (st : AppState) : JS.object :=
  let balances :=
    fold_left (fun b p => JS.set b (person_id p) 0) (people st) [] in
  fold_left apply_expense (expenses st) balances.

(* ================================================================== *)
(** ** calculateSimplifiedDebts *)

(** The first loop: every entry above 0.01 goes to [creditors], every entry
    below -0.01 goes to [debtors] with its sign changed. *)
Fixpoint partition_balances (es : list (string * float)) : list Party * list Party :=
  match es with
  | [] => ([], [])
  | (pid, balance) :: es' =>
      let (creditors, debtors) := partition_balances es' in
      if 0.01 <? balance then (mkParty pid balance :: creditors, debtors)
      else if balance <? -0.01 then (creditors, mkParty pid (- balance) :: debtors)
      else (creditors, debtors)
  end.

(** [(a, b) => b.amount - a.amount] *)
Definition by_amount_desc (a b : Party) : float := party_amount b - party_amount a.

(** The variables of the [while] loop.  [debtor] and [creditor] are
    references into the arrays, so [debtor.amount -= pay] changes the array
    element. *)
Record LoopState := mkLoop {
  debtors : list Party;
  creditors : list Party;
  i : nat;
  j : nat;
  settlements : list Settlement
}.

(** One turn of the [while] loop; [None] when the loop is left, by its
    condition or by [break]. *)
Definition loop_body (st : LoopState) : option LoopState :=
  match nth_error (debtors st) (i st), nth_error (creditors st) (j st) with
  | Some debtor, Some creditor =>
      let pay := JS.Math_min (party_amount debtor) (party_amount creditor) in
      if 0.01 <? pay then
        let debtor' := mkParty (party_id debtor) (party_amount debtor - pay) in
        let creditor' := mkParty (party_id creditor) (party_amount creditor - pay) in
        Some {| debtors := JS.update (i st) debtor' (debtors st);
                creditors := JS.update (j st) creditor' (creditors st);
                i := if party_amount debtor' <=? 0.01 then S (i st) else i st;
                j := if party_amount creditor' <=? 0.01 then S (j st) else j st;
                settlements :=
                  settlements st ++ [mkSettlement (party_id debtor) (party_id creditor) pay] |}
      else None
  | _, _ => None
  end.

(** The loop, run for at most [fuel] turns: [None] if it is still running
    after them. *)
Fixpoint while_loop (fuel : nat) (st : LoopState) : option LoopState :=
  match fuel with
  | O => None
  | S fuel' =>
      match loop_body st with
      | None => Some st
      | Some st' => while_loop fuel' st'
      end
  end.

(** The state the loop starts from. *)
Definition initial_loop (netBalances : JS.object) : LoopState :=
  let (creditors, debtors) := partition_balances (JS.entries netBalances) in
  {| debtors := JS.sort by_amount_desc debtors;
     creditors := JS.sort by_amount_desc creditors;
     i := 0; j := 0; settlements := [] |}.

(** The number of turns given to the loop: one per entry, one for a turn
    that moves neither pointer, one to leave.  [simplify_terminates] below
    shows that the loop always ends within them. *)
Definition loop_fuel (st : LoopState) : nat :=
  List.length (debtors st) + List.length (creditors st) + 2.

Definition calculateSimplifiedDebts (netBalances : JS.object) : option (list Settlement) :=
  let st := initial_loop netBalances in
  option_map settlements (while_loop (loop_fuel st) st).

(* ================================================================== *)
(** ** computeSplits *)

(** The per-participant fields of the form, as [computeSplits] reads them:
    [parseFloat(document.querySelector(`input[name="split-amount-${pid}"]`)?.value || "0")]
    and the same for [split-percent-] and [split-shares-]. *)
Record SplitInputs := mkInputs {
  split_amount : string -> float;
  split_percent : string -> float;
  split_shares : string -> float
}.

(** The failures of [computeSplits], one per [return { ok: false, ... }],
    with the numbers its message prints. *)
Inductive SplitError :=
| NegativeAmount                      (* "Split amounts cannot be negative." *)
| SumMismatch (sum total : float)     (* "Sum of amounts must equal total. Currently: ..." *)
| NegativePercent                     (* "Percentages cannot be negative." *)
| PercentOutOfRange (totalPercent : float) (* "Total percentage must be ~100%. Currently: ..." *)
| NegativeShares                      (* "Shares cannot be negative." *)
| ZeroShares                          (* "Total shares must be greater than 0." *)
| UnknownSplitType.                   (* "Unknown split type." *)

(** [{ok: true, splits}] or [{ok: false, error}]. *)
Inductive SplitResult :=
| Ok (splits : list Split)
| Err (error : SplitError).

(** [participantIds.forEach((pid, idx) => ...)] of the equal mode. *)
Fixpoint equal_forEach (basic remaining : float) (pids : list string) (idx : nat)
    (splits : list Split) : list Split :=
  match pids with
  | [] => splits
  | pid :: rest =>
      let amt := basic in
      let amt := if Nat.eqb idx 0 then amt + remaining else amt in
      equal_forEach basic remaining rest (S idx) (splits ++ [mkSplit pid (JS.toFixed2 amt)])
  end.

(** The [for] loop that reads one value per participant, leaves at the
    first negative one and adds the others up: it is the same in the exact,
    percent and shares modes. *)
Fixpoint read_inputs (input : string -> float) (pids : list string) (sum : float)
    (vals : list Split) : option (float * list Split) :=
  match pids with
  | [] => Some (sum, vals)
  | pid :: rest =>
      let val := input pid in
      if val <? 0 then None
      else read_inputs input rest (sum + val) (vals ++ [mkSplit pid val])
  end.

(** [percents.forEach((p, idx) => ...)] and [shares.forEach((s, idx) => ...)]:
    [weights] holds the values read, [n] is the length of the whole array,
    [totalWeight] is [totalPercent] or [totalShares]. *)
Fixpoint weighted_forEach (totalAmount totalWeight : float) (n : nat)
    (weights : list Split) (idx : nat) (sum : float) (splits : list Split) : list Split :=
  match weights with
  | [] => splits
  | w :: rest =>
      let amt := (totalAmount * amount w) / totalWeight in
      let amt := if Nat.eqb idx (n - 1) then totalAmount - sum else amt in
      let amt := JS.toFixed2 amt in
      weighted_forEach totalAmount totalWeight n rest (S idx) (sum + amt)
        (splits ++ [mkSplit (personId w) amt])
  end.

Definition computeSplits (dom : SplitInputs) (totalAmount : float)
    (participantIds : list string) (splitType : string) : SplitResult :=
  if String.eqb splitType "equal" then
    let n := JS.of_nat (List.length participantIds) in
    let basic := JS.Math_floor ((totalAmount / n) * 100) / 100 in
    let remaining := totalAmount - basic * n in
    Ok (equal_forEach basic remaining participantIds 0 [])
  else if String.eqb splitType "exact" then
    match read_inputs (split_amount dom) participantIds 0 [] with
    | None => Err NegativeAmount
    | Some (sum, splits) =>
        if 0.01 <? JS.Math_abs (sum - totalAmount) then Err (SumMismatch sum totalAmount)
        else Ok splits
    end
  else if String.eqb splitType "percent" then
    match read_inputs (split_percent dom) participantIds 0 [] with
    | None => Err NegativePercent
    | Some (totalPercent, percents) =>
        if 0.5 <? JS.Math_abs (totalPercent - 100) then Err (PercentOutOfRange totalPercent)
        else Ok (weighted_forEach totalAmount totalPercent (List.length percents) percents 0 0 [])
    end
  else if String.eqb splitType "shares" then
    match read_inputs (split_shares dom) participantIds 0 [] with
    | None => Err NegativeShares
    | Some (totalShares, shares) =>
        if totalShares <=? 0 then Err ZeroShares
        else Ok (weighted_forEach totalAmount totalShares (List.length shares) shares 0 0 [])
    end
  else Err UnknownSplitType.

(* ================================================================== *)
(** ** upsertExpenseFromForm and handleSettleUpClick *)

(** The fields of the expense form, as the handler reads them. *)
Record ExpenseForm := mkForm {
  form_description : string;       (* $("#expense-description").value.trim() *)
  form_amount : float;             (* parseFloat($("#expense-amount").value) *)
  form_date : string;
  form_payerId : string;
  form_groupId : string;
  form_category : string;
  form_notes : string;
  form_splitType : string;         (* getSelectedSplitType() *)
  form_participantIds : list string; (* getSelectedParticipantIds() *)
  form_inputs : SplitInputs
}.

(** What the handler does with a submission: it writes a message into one of
    the error elements and returns, or it shows the error of [computeSplits],
    or it stores the expense. *)
Inductive FormOutcome :=
| FieldError (selector message : string)
| SplitFailure (error : SplitError)
| Stored (exp : Expense).

Definition upsertExpenseFromForm (f : ExpenseForm) : FormOutcome :=
  if String.eqb (form_description f) "" then
    FieldError "#expense-form-error" "Description cannot be empty."
  else if negb (0 <? form_amount f) then
    FieldError "#expense-form-error" "Amount must be greater than 0."
  else if String.eqb (form_date f) "" then
    FieldError "#expense-form-error" "Please choose a date."
  else if String.eqb (form_payerId f) "" then
    FieldError "#expense-form-error" "Please select a payer."
  else if Nat.eqb (List.length (form_participantIds f)) 0 then
    FieldError "#expense-participants-error" "Select at least one participant."
  else
    match computeSplits (form_inputs f) (form_amount f) (form_participantIds f)
            (form_splitType f) with
    | Err e => SplitFailure e
    | Ok splits =>
        Stored {| description := form_description f;
                  exp_amount := form_amount f;
                  date := form_date f;
                  payerId := form_payerId f;
                  participantSplits := splits;
                  groupId := form_groupId f;
                  category := form_category f;
                  notes := form_notes f;
                  type := "expense" |}
    end.

(** The entry that "Settle Up" stores for a suggested settlement (the names
    in its description are left out). *)
Definition handleSettleUpClick (today : string) (s : Settlement) : Expense :=
  {| description := "Settlement";
     exp_amount := pay_amount s;
     date := today;
     payerId := fromId s;
     participantSplits := [mkSplit (toId s) (pay_amount s)];
     groupId := "";
     category := "Settlement";
     notes := "";
     type := "settlement" |}.

(* ================================================================== *)
(** ** Notions the properties are stated with *)

(** The value of [balances[k]] once the lazy initialisation
    [if (balances[k] == null) balances[k] = 0] has run. *)
Definition balance_or_zero (o : JS.object) (k : string) : float :=
  match JS.get o k with
  | Some v => v
  | None => 0
  end.

(** [Object.values(o).reduce((s, v) => s + v, 0)] *)
Definition sum_values (o : JS.object) : float :=
  fold_left (fun s kv => s + snd kv) o 0.

(** [splits.reduce((s, x) => s + x.amount, start)] *)
Definition sum_amounts_from (start : float) (splits : list Split) : float :=
  fold_left (fun s x => s + amount x) splits start.

Definition sum_amounts (splits : list Split) : float := sum_amounts_from 0 splits.



(** The same test made in the script's own arithmetic:
    [Math.abs(sum - total) <= 0.01]. *)
Definition conserved_in_floats (total : float) (splits : list Split) : bool :=
  JS.Math_abs (sum_amounts splits - total) <=? 0.01.

(** A form whose per-participant fields hold the given values (an absent
    field reads as 0). *)
Definition field_table (l : list (string * float)) (pid : string) : float :=
  balance_or_zero l pid.

Definition no_inputs : SplitInputs :=
  mkInputs (fun _ => 0) (fun _ => 0) (fun _ => 0).

(** [totalPercent] or [totalShares]: the values read are added up from 0 in
    the order of the participants. *)
Definition sum_inputs (input : string -> float) (pids : list string) : float :=
  fold_left (fun s pid => s + input pid) pids 0.

(** The share of a participant who is not the last one, in the percent and
    shares modes. *)
Definition weighted_share (totalAmount totalWeight : float) (input : string -> float)
    (pid : string) : Split :=
  mkSplit pid (JS.toFixed2 ((totalAmount * input pid) / totalWeight)).

(** The sign bit of a value is clear, or the value is [NaN]. *)
Definition sign_clear (x : spec_float) : Prop :=
  match x with
  | S754_zero s | S754_infinity s | S754_finite s _ _ => s = false
  | S754_nan => True
  end.

(** A value is above zero: a positive finite value or [+Infinity]. *)
Definition sf_positive (x : spec_float) : Prop :=
  match x with
  | S754_finite false _ _ | S754_infinity false => True
  | _ => False
  end.

(** [Number.isFinite(x)]: neither [NaN] nor an infinity. *)
Definition finite_number (x : float) : Prop :=
  match Prim2SF x with
  | S754_zero _ | S754_finite _ _ _ => True
  | _ => False
  end.

(** Truncation toward zero to an integer, in the words of the
    specification, to be compared with the [Math.floor] of the code. *)
Definition truncate_toward_zero (x : float) : float :=
  match Prim2SF x with
  | S754_finite s m e =>
      if (0 <=? e)%Z then x
      else
        let q := Z.quot (cond_Zopp s (Zpos m)) (2 ^ (- e)) in
        if (q =? 0)%Z then (if s then neg_zero else zero) else JS.of_Z q
  | _ => x
  end.

(** *** The debt simplifier in the words of the specification *)

(** Step 1: creditors are the entries above 0.01, debtors the entries below
    -0.01, each as (id, magnitude). *)
Definition spec_creditors (balances : JS.object) : list Party :=
  map (fun kv => mkParty (fst kv) (snd kv))
    (filter (fun kv => 0.01 <? snd kv) balances).

Definition spec_debtors (balances : JS.object) : list Party :=
  map (fun kv => mkParty (fst kv) (- snd kv))
    (filter (fun kv => snd kv <? -0.01) balances).

(** Step 2: a list is in descending order of magnitude. *)
Definition descending (l : list Party) : Prop :=
  Sorted (fun a b => (party_amount b <=? party_amount a) = true) l.

(** Step 3: "advance the pointer if the remaining magnitude drops to
    <= 0.01": the list a pointer still has before it, once [remaining] is
    left of its first element [p]. *)
Definition advance (p : Party) (remaining : float) (rest : list Party) : list Party :=
  if remaining <=? 0.01 then rest else mkParty (party_id p) remaining :: rest.

(** Steps 3 and 4: the transfers emitted from the debtors and creditors the
    two pointers have before them. *)
Inductive Walk : list Party -> list Party -> list Settlement -> Prop :=
| Walk_debtors_exhausted (cs : list Party) : Walk [] cs []
| Walk_creditors_exhausted (ds : list Party) : Walk ds [] []
| Walk_negligible (d : Party) (ds : list Party) (c : Party) (cs : list Party) :
    (0.01 <? JS.Math_min (party_amount d) (party_amount c)) = false ->
    Walk (d :: ds) (c :: cs) []
| Walk_transfer (d : Party) (ds : list Party) (c : Party) (cs : list Party)
    (pay : float) (ts : list Settlement) :
    pay = JS.Math_min (party_amount d) (party_amount c) ->
    (0.01 <? pay) = true ->
    Walk (advance d (party_amount d - pay) ds) (advance c (party_amount c - pay) cs) ts ->
    Walk (d :: ds) (c :: cs) (mkSettlement (party_id d) (party_id c) pay :: ts).

(** "min(remaining debt, remaining credit)": [pay] is one of the two
    amounts and is above neither of them. *)
Definition smaller_of (debt credit pay : float) : Prop :=
  (pay = debt \/ pay = credit)
  /\ (pay <=? debt) = true /\ (pay <=? credit) = true.

(** Steps 3 and 4 with the amount of a transfer in those words: the first
    debtor pays the first creditor the smaller of the two remaining amounts;
    the walk ends when a list is exhausted, or when one of the two has no
    amount above 0.01 left (which an amount that is [NaN] is not). *)
Inductive GreedyWalk : list Party -> list Party -> list Settlement -> Prop :=
| Greedy_debtors_exhausted (cs : list Party) : GreedyWalk [] cs []
| Greedy_creditors_exhausted (ds : list Party) : GreedyWalk ds [] []
| Greedy_negligible (d : Party) (ds : list Party) (c : Party) (cs : list Party) :
    (0.01 <? party_amount d) = false \/ (0.01 <? party_amount c) = false ->
    GreedyWalk (d :: ds) (c :: cs) []
| Greedy_transfer (d : Party) (ds : list Party) (c : Party) (cs : list Party)
    (pay : float) (ts : list Settlement) :
    smaller_of (party_amount d) (party_amount c) pay ->
    (0.01 <? pay) = true ->
    GreedyWalk (advance d (party_amount d - pay) ds)
      (advance c (party_amount c - pay) cs) ts ->
    GreedyWalk (d :: ds) (c :: cs) (mkSettlement (party_id d) (party_id c) pay :: ts).

(** *** Paying the suggested transfers *)

(** A payment takes its amount off what [who] owes (or is owed). *)
Definition pay_off (who : string) (amt : float) (l : list Party) : list Party :=
  map (fun p =>
         if String.eqb (party_id p) who
         then mkParty (party_id p) (party_amount p - amt)
         else p) l.

(** Paying [t] takes its amount off what [fromId t] owes and off what
    [toId t] is owed. *)
Definition pay_transfer (owes_owed : list Party * list Party) (t : Settlement)
    : list Party * list Party :=
  (pay_off (fromId t) (pay_amount t) (fst owes_owed),
   pay_off (toId t) (pay_amount t) (snd owes_owed)).

Definition pay_all (ts : list Settlement) (owes_owed : list Party * list Party)
    : list Party * list Party :=
  fold_left pay_transfer ts owes_owed.




(** Every balance is within 0.01 of zero. *)
Definition all_within_cent (balances : JS.object) : bool :=
  forallb (fun kv => JS.Math_abs (snd kv) <=? 0.01) balances.

(** The number of turns the loop can still make by moving a pointer. *)
Definition remaining_turns (st : LoopState) : nat :=
  (List.length (debtors st) - i st) + (List.length (creditors st) - j st).

(** *** Binary64 values as real numbers *)

(** [2^e] for an integer exponent. *)
Definition bpow (e : Z) : R := powerRZ 2 e.

(** The real number a finite value stands for ([NaN] and the infinities
    stand for no real number and are given 0). *)
Definition SF2R (x : spec_float) : R :=
  match x with
  | S754_finite s m e => (IZR (cond_Zopp s (Zpos m)) * bpow e)%R
  | _ => 0%R
  end.

Definition B2R (x : float) : R := SF2R (Prim2SF x).

Definition finite_SF (x : spec_float) : Prop :=
  match x with
  | S754_zero _ | S754_finite _ _ _ => True
  | _ => False
  end.

(** A finite number above zero. *)
Definition positive_finite (x : float) : Prop :=
  match Prim2SF x with
  | S754_finite false _ _ => True
  | _ => False
  end.

(** [w] with the sign [s]. *)
Definition signed (s : bool) (w : R) : R := if s then (- w)%R else w.

(** The range in which the sum of the shares is followed: amounts of
    magnitude at most 2^32. *)
Definition range_limit : float := 4294967296.

Definition in_range (x : float) : bool := JS.Math_abs x <=? range_limit.

Ltac split_Rabs :=
  unfold Rabs in *;
  repeat match goal with
         | H : context [Rcase_abs ?x] |- _ => destruct (Rcase_abs x)
         | |- context [Rcase_abs ?x] => destruct (Rcase_abs x)
         end.

(* ================================================================== *)
(** ** The stored state and the handlers that change it *)

(** An element of [App.state.groups]. *)
Record Group := mkGroup {
  group_id : string;
  group_name : string;
  group_description : string;
  memberIds : list string
}.

(** An element of [App.state.expenses] as it is stored: the entry the
    engine reads, with the [id] and the [createdAt] it was given. *)
Record Entry := mkEntry { entry_id : string; createdAt : string; entry : Expense }.

(** [App.state] without its [settings] (a currency symbol and a theme). *)
Record Store := mkStore {
  store_people : list Person;
  store_groups : list Group;
  store_entries : list Entry
}.

(** What the engine reads of the stored state. *)
Definition engine_state (s : Store) : AppState :=
  mkState (store_people s) (map entry (store_entries s)).

(** [App.state.people.find((p) => p.id === id)] *)
Definition find_person (id : string) (ppl : list Person) : option Person :=
  find (fun p => String.eqb (person_id p) id) ppl.

(** [deletePerson(id)]: the person leaves the people and the members of
    every group; the entries are kept as they are. *)
Definition deletePerson (id : string) (s : Store) : Store :=
  mkStore
    (filter (fun p => negb (String.eqb (person_id p) id)) (store_people s))
    (map (fun g =>
            mkGroup (group_id g) (group_name g) (group_description g)
              (filter (fun mid => negb (String.eqb mid id)) (memberIds g)))
       (store_groups s))
    (store_entries s).

(** [exp.groupId = ""] on one stored entry. *)
Definition clear_group (e : Entry) : Entry :=
  mkEntry (entry_id e) (createdAt e)
    (mkExpense (description (entry e)) (exp_amount (entry e)) (date (entry e))
       (payerId (entry e)) (participantSplits (entry e)) "" (category (entry e))
       (notes (entry e)) (type (entry e))).


(** [deleteExpense(id)] *)
Definition deleteExpense (id : string) (s : Store) : Store :=
  mkStore (store_people s) (store_groups s)
    (filter (fun e => negb (String.eqb (entry_id e) id)) (store_entries s)).

(** [handleSettleUpClick(fromId, toId, amount)] followed by "OK" in the
    confirmation it opens: nothing happens unless both persons are found;
    otherwise the settlement is pushed.  [id] is the value of
    [generateId("expense")], [now] that of [new Date().toISOString()] and
    [today] the first ten characters of such a value. *)
Definition settleUp (id now today : string) (t : Settlement) (s : Store) : Store :=
  match find_person (fromId t) (store_people s), find_person (toId t) (store_people s) with
  | Some _, Some _ =>
      mkStore (store_people s) (store_groups s)
        (store_entries s ++ [mkEntry id now (handleSettleUpClick today t)])
  | _, _ => s
  end.

(** [Object.assign(existing, expenseData)] on
    [App.state.expenses.find((x) => x.id === id)]: the first entry with that
    id takes the new data and keeps its [id]; its [createdAt] is assigned
    the value it has. *)
Fixpoint assign_first (id : string) (data : Expense) (l : list Entry) : list Entry :=
  match l with
  | [] => []
  | e :: rest =>
      if String.eqb (entry_id e) id
      then mkEntry (entry_id e) (createdAt e) data :: rest
      else e :: assign_first id data rest
  end.

(** What [upsertExpenseFromForm] does to the stored state.  [form_id] is
    [$("#expense-id").value]: empty for a new expense, the id of the entry
    being edited otherwise.  [fresh] and [now] are the id and the time a new
    entry gets. *)
Definition submitExpense (form_id fresh now : string) (f : ExpenseForm) (s : Store)
    : FormOutcome * Store :=
  match upsertExpenseFromForm f with
  | Stored exp =>
      (Stored exp,
       mkStore (store_people s) (store_groups s)
         (if String.eqb form_id ""
          then store_entries s ++ [mkEntry fresh now exp]
          else assign_first form_id exp (store_entries s)))
  | outcome => (outcome, s)
  end.

(** [p.name = name; p.isYou = isYou] on
    [App.state.people.find((x) => x.id === id)]. *)
Fixpoint assign_person (id form_name : string) (form_isYou : bool) (l : list Person)
    : list Person :=
  match l with
  | [] => []
  | p :: rest =>
      if String.eqb (person_id p) id
      then mkPerson (person_id p) form_name form_isYou :: rest
      else p :: assign_person id form_name form_isYou rest
  end.

(** What [upsertPersonFromForm] does to the people, for the fields kept
    in [Person] ([contact] and [notes] are only shown back in the form).
    [form_name] is the name field once trimmed, [form_id] the value of
    [$("#person-id")] and [fresh] the id a new person gets.
    An empty name is refused; a person marked "you" unmarks all the others;
    then the first person with the id takes the new fields, or a new person
    is pushed when the form holds no id. *)
Definition upsertPerson (form_id fresh form_name : string) (form_isYou : bool)
    (ppl : list Person) : list Person :=
  if String.eqb form_name "" then ppl
  else
    let ppl :=
      if form_isYou then map (fun p => mkPerson (person_id p) (name p) false) ppl else ppl in
    if String.eqb form_id ""
    then ppl ++ [mkPerson fresh form_name form_isYou]
    else assign_person form_id form_name form_isYou ppl.

(* ================================================================== *)
(** ** What the dashboard and the group summary compute *)

(** [balances[id] || 0]: a missing balance, [NaN] and both zeros give 0. *)
Definition balance_or (v : option float) : float :=
  match v with
  | Some b => if is_nan b || (b =? 0) then 0 else b
  | None => 0
  end.

(** The two totals at the top of the dashboard, [youAreOwed] and [youOwe],
    as the numbers handed to [fmtAmount]. *)
Definition dashboard_totals (st : AppState) : float * float :=
  match find isYou (people st) with
  | Some you =>
      let b := balance_or (JS.get (calculateNetBalances st) (person_id you)) in
      (if 0 <? b then b else 0, if b <? 0 then - b else 0)
  | None => (0, 0)
  end.

(** One card of the per-person list of the dashboard: the name shown, the
    class ([owes] or [is-owed]), which of the two sentences is written
    ("Others owe NAME ..." or "NAME owes others ..."), and the number
    handed to [fmtAmount]. *)
Record BalanceCard := mkCard {
  card_name : string;
  card_owes : bool;
  card_others_owe : bool;
  card_amount : float
}.

Definition person_balance_cards (st : AppState) : list BalanceCard :=
  flat_map
    (fun kv =>
       match find_person (fst kv) (people st) with
       | None => []
       | Some person =>
           [mkCard (name person) (snd kv <? 0) (0 <? snd kv)
              (if 0 <? snd kv then snd kv else - snd kv)]
       end)
    (filter (fun kv => 0.01 <? JS.Math_abs (snd kv))
       (JS.entries (calculateNetBalances st))).

(** One item of the list of suggested settlements, with the arguments its
    "Settle Up" button passes to [handleSettleUpClick]. *)
Record Suggestion := mkSuggestion { sug_from : Person; sug_to : Person; sug_amount : float }.

Definition settle_arguments (sg : Suggestion) : Settlement :=
  mkSettlement (person_id (sug_from sg)) (person_id (sug_to sg)) (sug_amount sg).

(** [renderSuggestedSettlements]: the transfers of the simplifier run on
    the net balances, those between two known persons being listed. *)
Definition renderSuggestedSettlements (st : AppState) : option (list Suggestion) :=
  match calculateSimplifiedDebts (calculateNetBalances st) with
  | None => None
  | Some ts =>
      Some (flat_map
              (fun t =>
                 match find_person (fromId t) (people st), find_person (toId t) (people st) with
                 | Some from, Some to => [mkSuggestion from to (pay_amount t)]
                 | _, _ => []
                 end) ts)
  end.

(** The body of the loop over a group's expenses in [renderGroupBalances]:
    the test is [!payerId || !participantSplits], without the length. *)
Definition apply_group_expense (balances : JS.object) (exp : Expense) : JS.object :=
  if String.eqb (payerId exp) "" then balances
  else if String.eqb (type exp) "settlement"
  then fold_left (settlement_split (payerId exp)) (participantSplits exp) balances
  else fold_left (expense_split (payerId exp)) (participantSplits exp) balances.

(** The balances [renderGroupBalances] computes for one group, from the
    entries of that group only; a group without entries is passed over. *)
Definition groupBalances (g : Group) (s : Store) : option JS.object :=
  let groupExpenses :=
    filter (fun e => String.eqb (groupId (entry e)) (group_id g)) (store_entries s) in
  match groupExpenses with
  | [] => None
  | _ =>
      Some (fold_left apply_group_expense (map entry groupExpenses)
              (fold_left (fun b id => JS.set b id 0) (memberIds g) []))
  end.

(* ================================================================== *)
(** ** Notions the properties of the stored state are stated with *)

(** Two balance objects agree outside [id], where they agree up to the
    lazy initialisation. *)
Definition agree_but (id : string) (o o' : JS.object) : Prop :=
  (forall k, k <> id -> JS.get o k = JS.get o' k)
  /\ balance_or_zero o id = balance_or_zero o' id.

(** [id] pays no settlement. *)
Definition pays_no_settlement (id : string) (exp : Expense) : Prop :=
  type exp = "settlement" -> payerId exp <> id.

(** The largest amount of one share for which the sum of the balances is
    shown to stay within 0.01 of zero. *)
Definition amount_limit : float := 1000000.

(** The sum of the balances of an object as a real number, and the sum of
    their magnitudes. *)
Fixpoint total_R (o : JS.object) : R :=
  match o with
  | [] => 0%R
  | kv :: o' => (B2R (snd kv) + total_R o')%R
  end.

Fixpoint weight_R (o : JS.object) : R :=
  match o with
  | [] => 0%R
  | kv :: o' => (Rabs (B2R (snd kv)) + weight_R o')%R
  end.

Definition all_finite (o : JS.object) : Prop :=
  Forall (fun kv => finite_number (snd kv)) o.

(** What the balance loop keeps true while it has processed [n] shares of
    at most [amount_limit] each, starting from [L] balances at zero. *)
Definition balanced_within (L n : nat) (o : JS.object) : Prop :=
  all_finite o
  /\ (weight_R o <= INR n * 2000001)%R
  /\ (Rabs (total_R o) <= INR n * (2 / 1000000))%R
  /\ (List.length o <= L + 2 * n)%nat.

(** Every id of the state that becomes a key of the balances (the ids of
    the people, of the payers and of the participants) is an ordinary key,
    so that the balances are the object of [JS.get] and [JS.set]
    ([calculateNetBalances_ordinary] compares it with the plain object of
    the code). *)
Definition ordinary_ids (st : AppState) : bool :=
  forallb (fun p => JS.ordinary_key (person_id p)) (people st)
  && forallb
       (fun exp =>
          JS.ordinary_key (payerId exp)
          && forallb (fun ps => JS.ordinary_key (personId ps)) (participantSplits exp))
       (expenses st).

(** An entry the conservation of the balances is shown for: shares of at
    most [amount_limit], and, for a settlement, a payer of the people
    list. *)
Definition within_limits (ppl : list Person) (exp : Expense) : Prop :=
  Forall (fun ps => (JS.Math_abs (amount ps) <=? amount_limit) = true)
    (participantSplits exp)
  /\ (type exp = "settlement" -> In (payerId exp) (map person_id ppl)).

(* ================================================================== *)
(** ** The balances as a plain object with its prototype

    What [calculateNetBalances] does for every key, the names of
    [Object.prototype] and the array indices included.  It is compared
    below with the object of [JS.get] and [JS.set]: the two agree when the
    ids are ordinary keys. *)

Module Plain.

(** What a property of the balances can hold.  Besides a number: a
    function or an object inherited from [Object.prototype], or the string
    that [+=] makes of one ([balances["constructor"] += 20] is
    "function Object() { [native code] }20").  None of these is [null] or
    [undefined], [ToNumber] of each is [NaN], and [+] of a number makes a
    string of the same kind again. *)
Inductive value :=
| Num (x : float)
| NotNumber.

(** The own properties, in the order of [Object.entries]: the array
    indices in ascending order, then the other keys in insertion order. *)
Definition object := list (string * value).

Fixpoint own (o : object) (k : string) : option value :=
  match o with
  | [] => None
  | (k', v) :: o' => if String.eqb k' k then Some v else own o' k
  end.

(** [o[k]]: an own property, or what [Object.prototype] holds under [k];
    [None] is [undefined]. *)
Definition get (o : object) (k : string) : option value :=
  match own o k with
  | Some v => Some v
  | None => if existsb (String.eqb k) JS.inherited_keys then Some NotNumber else None
  end.

Definition digit_value (c : Ascii.ascii) : N := N.of_nat (Ascii.nat_of_ascii c - 48).

(** The array index a key is, if any: a number below 2^32 - 1 written in
    decimal without a leading zero. *)
Definition array_index (k : string) : option N :=
  match list_ascii_of_string k with
  | [] => None
  | c :: rest =>
      if forallb JS.is_digit (c :: rest)
         && (negb (Nat.eqb (Ascii.nat_of_ascii c) 48) || Nat.eqb (List.length rest) 0)
      then
        let n := fold_left (fun n d => (10 * n + digit_value d)%N) (c :: rest) 0%N in
        if (n <? 4294967295)%N then Some n else None
      else None
  end.

(** An assignment to an own property, or of a new property that is not an
    array index: it keeps its place, or goes to the end. *)
Fixpoint assign (o : object) (k : string) (v : value) : object :=
  match o with
  | [] => [(k, v)]
  | (k', v') :: o' =>
      if String.eqb k' k then (k', v) :: o' else (k', v') :: assign o' k v
  end.

(** A new array index goes before the first key that is a larger index or
    no index. *)
Fixpoint insert_index (n : N) (k : string) (v : value) (o : object) : object :=
  match o with
  | [] => [(k, v)]
  | (k', v') :: o' =>
      match array_index k' with
      | Some n' => if (n' <? n)%N then (k', v') :: insert_index n k v o' else (k, v) :: o
      | None => (k, v) :: o
      end
  end.

(** [o[k] = v] for a number or a string [v]: the setter of [__proto__]
    ignores such a value. *)
Definition set (o : object) (k : string) (v : value) : object :=
  if String.eqb k "__proto__" then o
  else
    match own o k, array_index k with
    | None, Some n => insert_index n k v o
    | _, _ => assign o k v
    end.

Definition toNumber (v : option value) : float :=
  match v with
  | Some (Num x) => x
  | _ => nan
  end.

(** [o[k] -= a] stores [ToNumber(o[k]) - a]. *)
Definition minus (v : option value) (a : float) : value := Num (toNumber v - a).

(** [o[k] += a] stores the sum of two numbers ([undefined] counting as
    [NaN]), or the string made of a value that is not a number. *)
Definition plus (v : option value) (a : float) : value :=
  match v with
  | Some NotNumber => NotNumber
  | _ => Num (toNumber v + a)
  end.

Definition settlement_split (payer : string) (balances : object) (ps : Split) : object :=
  let balances := set balances payer (minus (get balances payer) (amount ps)) in
  let balances :=
    match get balances (personId ps) with
    | None => set balances (personId ps) (Num 0)
    | Some _ => balances
    end in
  set balances (personId ps) (plus (get balances (personId ps)) (amount ps)).

Definition expense_split (payer : string) (balances : object) (ps : Split) : object :=
  let balances :=
    match get balances (personId ps) with
    | None => set balances (personId ps) (Num 0)
    | Some _ => balances
    end in
  let balances :=
    set balances (personId ps) (minus (get balances (personId ps)) (amount ps)) in
  let balances :=
    match get balances payer with
    | None => set balances payer (Num 0)
    | Some _ => balances
    end in
  set balances payer (plus (get balances payer) (amount ps)).

Definition apply_expense (balances : object) (exp : Expense) : object :=
  if String.eqb (payerId exp) "" || Nat.eqb (List.length (participantSplits exp)) 0
  then balances
  else if String.eqb (type exp) "settlement"
  then fold_left (settlement_split (payerId exp)) (participantSplits exp) balances
  else fold_left (expense_split (payerId exp)) (participantSplits exp) balances.

Definition calculateNetBalances (st : AppState) : object :=
  let balances :=
    fold_left (fun b p => set b (person_id p) (Num 0)) (people st) [] in
  fold_left apply_expense (expenses st) balances.

(** The object of [JS.get] and [JS.set] as a plain object. *)
Definition of_numbers (o : JS.object) : object :=
  map (fun kv => (fst kv, Num (snd kv))) o.

End Plain.

Module Examples.

Definition abc : list Person :=
  [mkPerson "A" "A" true; mkPerson "B" "B" false; mkPerson "C" "C" false].

(** One expense of 60 paid by A, split 20 each among A, B and C. *)
Definition expense60 : Expense :=
  mkExpense "Dinner" 60 "2024-01-01" "A"
    [mkSplit "A" 20; mkSplit "B" 20; mkSplit "C" 20] "" "Food" "" "expense".

(** What "Settle Up" stores when B pays A 20. *)
Definition B_pays_A_20 : Expense :=
  handleSettleUpClick "2024-01-02" (mkSettlement "B" "A" 20).

(** A settlement whose payer is not (or no longer) among the people and
    has no earlier entry. *)
Definition orphan_settlement : AppState :=
  mkState [mkPerson "A" "A" true] [B_pays_A_20].

Definition percent_inputs : SplitInputs :=
  mkInputs (fun _ => 0) (field_table [("A", 33.33); ("B", 66.67)]) (fun _ => 0).

End Examples.

(* ================================================================== *)
(** ** The number helpers on known values *)

(** [(1.005).toFixed(2)] is "1.00" and [(8.345).toFixed(2)] is "8.35",
    since the binary64 values are just below and just above; a tie goes up
    ([(0.125).toFixed(2)] is "0.13"); [(-0.001).toFixed(2)] is "-0.00". *)
Lemma toFixed2_known_values :
  JS.toFixed2 1.005 = 1 /\ JS.toFixed2 8.345 = 8.35 /\ JS.toFixed2 0.125 = 0.13
  /\ JS.toFixed2 (-0.001) = neg_zero /\ JS.toFixed2 29.997 = 30
  /\ JS.toFixed2 1e21 = 1e21 /\ JS.toFixed2 nan = nan.
Proof. repeat split; vm_compute; reflexivity. Qed.

Lemma Math_floor_known_values :
  JS.Math_floor 333.33333333333337 = 333 /\ JS.Math_floor (-0.5) = -1
  /\ JS.Math_floor 0.5 = 0 /\ JS.Math_floor 1e300 = 1e300
  /\ JS.Math_floor neg_zero = neg_zero /\ JS.Math_floor infinity = infinity.
Proof. repeat split; vm_compute; reflexivity. Qed.

Lemma Math_min_known_values :
  JS.Math_min 30 50 = 30 /\ JS.Math_min nan 1 = nan /\ JS.Math_min 1 nan = nan
  /\ JS.Math_min 0 neg_zero = neg_zero /\ JS.Math_min infinity 3 = 3.
Proof. repeat split; vm_compute; reflexivity. Qed.

(* ================================================================== *)
(** ** Binary64: signs *)

Lemma binary_round_aux_sign (m e : Z) (l : location) :
  sign_clear (binary_round_aux prec emax false m e l).
Proof.
  unfold binary_round_aux.
  destruct (shr_fexp prec emax m e l) as [mrs' e'].
  destruct (shr_fexp prec emax _ e' loc_Exact) as [mrs'' e''].
  destruct (shr_m mrs''); simpl; trivial.
  destruct (_ <=? _)%Z; reflexivity.
Qed.

Lemma binary_normalize_sign (m e : Z) :
  (0 <= m)%Z -> sign_clear (binary_normalize prec emax m e false).
Proof.
  intros Hm. destruct m as [|p|p]; simpl; [reflexivity| |lia].
  unfold binary_round. destruct (shl_align _ _ _) as [mz ez].
  apply binary_round_aux_sign.
Qed.

Lemma SFdiv_sign (x y : spec_float) :
  sign_clear x -> sign_clear y -> sign_clear (SFdiv prec emax x y).
Proof.
  destruct x as [sx|sx| |sx mx ex], y as [sy|sy| |sy my ey]; simpl;
    intros Hx Hy; subst; trivial.
  destruct (SFdiv_core_binary prec emax (Z.pos mx) ex (Z.pos my) ey) as [[mz ez] lz].
  apply binary_round_aux_sign.
Qed.

Lemma SFmul_sign (x y : spec_float) :
  sign_clear x -> sign_clear y -> sign_clear (SFmul prec emax x y).
Proof.
  destruct x as [sx|sx| |sx mx ex], y as [sy|sy| |sy my ey]; simpl;
    intros Hx Hy; subst; trivial.
  apply binary_round_aux_sign.
Qed.

Lemma positive_sign (x : float) : (0 <? x) = true -> sign_clear (Prim2SF x).
Proof.
  rewrite ltb_spec. change (Prim2SF 0) with (S754_zero false).
  destruct (Prim2SF x) as [s|s| |s m e]; simpl; trivial;
    unfold SFltb; simpl; destruct s; congruence.
Qed.

Lemma of_nat_sign (n : nat) : sign_clear (Prim2SF (JS.of_nat n)).
Proof.
  unfold JS.of_nat. rewrite of_uint63_spec.
  apply binary_normalize_sign. apply Uint63.to_Z_bounded.
Qed.

Lemma floor_truncates (x : float) :
  sign_clear (Prim2SF x) -> JS.Math_floor x = truncate_toward_zero x.
Proof.
  unfold JS.Math_floor, truncate_toward_zero.
  destruct (Prim2SF x) as [s|s| |s m e]; simpl; trivial.
  intros ->. simpl.
  destruct (0 <=? e)%Z eqn:He; [reflexivity|].
  apply Z.leb_gt in He.
  rewrite Z.shiftr_div_pow2 by lia.
  rewrite Z.quot_div_nonneg by (try apply Z.pow_pos_nonneg; lia).
  reflexivity.
Qed.

Lemma floor_of_share_truncates (totalAmount : float) (n : nat) :
  (0 <? totalAmount) = true ->
  JS.Math_floor ((totalAmount / JS.of_nat n) * 100)
  = truncate_toward_zero ((totalAmount / JS.of_nat n) * 100).
Proof.
  intros H. apply floor_truncates.
  rewrite mul_spec, div_spec. apply SFmul_sign; [|reflexivity].
  apply SFdiv_sign; [now apply positive_sign | apply of_nat_sign].
Qed.

(* ================================================================== *)
(** ** Binary64: comparisons *)

Lemma SFcompare_refl (x : spec_float) :
  x <> S754_nan -> SFcompare x x = Some Eq.
Proof.
  destruct x as [s|s| |s m e]; simpl; try congruence; intros _.
  - destruct s; reflexivity.
  - destruct s; rewrite Z.compare_refl, Pos.compare_cont_refl; reflexivity.
Qed.

Lemma ltb_right_not_nan (a x : float) : (a <? x) = true -> is_nan x = false.
Proof.
  intros H. unfold is_nan. rewrite eqb_spec. rewrite ltb_spec in H.
  unfold SFeqb. rewrite SFcompare_refl; [reflexivity|].
  intros E. rewrite E in H. unfold SFltb in H.
  destruct (Prim2SF a); discriminate.
Qed.


Lemma SFcompare_antisym (x y : spec_float) :
  SFcompare y x = option_map CompOpp (SFcompare x y).
Proof.
  destruct x as [sx|sx| |sx mx ex], y as [sy|sy| |sy my ey]; simpl;
    try reflexivity; try (destruct sx; reflexivity); try (destruct sy; reflexivity);
    try (destruct sx, sy; reflexivity).
  pose proof (Pos.compare_cont_antisym mx my Eq) as H. simpl in H.
  destruct sx, sy; simpl; try reflexivity;
    rewrite (Z.compare_antisym ex ey), <- H;
    destruct (ex ?= ey)%Z; simpl; try reflexivity;
    destruct (Pos.compare_cont Eq mx my); reflexivity.
Qed.

Lemma is_nan_false (x : float) : is_nan x = false <-> Prim2SF x <> S754_nan.
Proof.
  unfold is_nan. rewrite eqb_spec. unfold SFeqb. split.
  - intros H E. rewrite E in H. discriminate.
  - intros H. now rewrite SFcompare_refl.
Qed.

Lemma SFcompare_Some (x y : spec_float) :
  x <> S754_nan -> y <> S754_nan -> exists c, SFcompare x y = Some c.
Proof.
  destruct x as [sx|sx| |sx mx ex], y as [sy|sy| |sy my ey]; simpl;
    intros Hx Hy; try congruence; eexists; reflexivity.
Qed.


Lemma ltb_false_leb (x y : float) :
  is_nan x = false -> is_nan y = false -> (x <? y) = false -> (y <=? x) = true.
Proof.
  rewrite !is_nan_false, leb_spec, ltb_spec. intros Hx Hy.
  unfold SFleb, SFltb. rewrite (SFcompare_antisym (Prim2SF x) (Prim2SF y)).
  destruct (SFcompare_Some _ _ Hx Hy) as [c ->]. simpl. now destruct c.
Qed.

Lemma ltb_leb (x y : float) : (x <? y) = true -> (x <=? y) = true.
Proof.
  rewrite leb_spec, ltb_spec. unfold SFleb, SFltb.
  destruct (SFcompare _ _) as [[| |]|]; congruence.
Qed.

Lemma ltb_left_not_nan (x a : float) : (x <? a) = true -> is_nan x = false.
Proof.
  intros H. apply is_nan_false. intros E. rewrite ltb_spec, E in H. discriminate.
Qed.

Lemma leb_left_not_nan (x a : float) : (x <=? a) = true -> is_nan x = false.
Proof.
  intros H. apply is_nan_false. intros E. rewrite leb_spec, E in H. discriminate.
Qed.

(** No value is both above 0.01 and below -0.01. *)
Lemma above_not_below (b : float) : (0.01 <? b) = true -> (b <? -0.01) = false.
Proof.
  rewrite !ltb_spec.
  change (Prim2SF 0.01) with (S754_finite false 5764607523034235 (-59)).
  change (Prim2SF (-0.01)) with (S754_finite true 5764607523034235 (-59)).
  destruct (Prim2SF b) as [s|s| |s m e]; try destruct s;
    cbn [SFltb SFcompare]; congruence.
Qed.

(** A value above 0.01 is above 0. *)
Lemma above_positive (x : float) : (0.01 <? x) = true -> (0 <? x) = true.
Proof.
  rewrite !ltb_spec.
  change (Prim2SF 0.01) with (S754_finite false 5764607523034235 (-59)).
  change (Prim2SF 0) with (S754_zero false).
  destruct (Prim2SF x) as [s|s| |s m e]; try destruct s;
    cbn [SFltb SFcompare]; congruence.
Qed.

(** The magnitude of a balance below -0.01 is above 0.01. *)
Lemma below_opp_above (b : float) : (b <? -0.01) = true -> (0.01 <? - b) = true.
Proof.
  rewrite !ltb_spec, opp_spec.
  change (Prim2SF 0.01) with (S754_finite false 5764607523034235 (-59)).
  change (Prim2SF (-0.01)) with (S754_finite true 5764607523034235 (-59)).
  destruct (Prim2SF b) as [s|s| |s m e]; try destruct s;
    cbn [SFltb SFcompare SFopp negb]; try congruence.
  pose proof (Pos.compare_cont_antisym m 5764607523034235 Eq) as H.
  cbn [CompOpp] in H.
  rewrite (Z.compare_antisym e (-59)), <- H.
  destruct (e ?= -59)%Z; cbn [CompOpp]; try congruence.
  destruct (Pos.compare_cont Eq m 5764607523034235); cbn [CompOpp]; congruence.
Qed.

(* ================================================================== *)
(** ** Binary64: the sign of a difference of positive values *)

Lemma digits2_pos_bounds (m : positive) :
  (2 ^ (Zpos (digits2_pos m) - 1) <= Zpos m < 2 ^ Zpos (digits2_pos m))%Z.
Proof.
  induction m as [m IH|m IH|]; simpl digits2_pos.
  - rewrite Pos2Z.inj_succ.
    replace (Z.succ (Zpos (digits2_pos m)) - 1)%Z with (Z.succ (Zpos (digits2_pos m) - 1))%Z by lia.
    rewrite !Z.pow_succ_r by lia. lia.
  - rewrite Pos2Z.inj_succ.
    replace (Z.succ (Zpos (digits2_pos m)) - 1)%Z with (Z.succ (Zpos (digits2_pos m) - 1))%Z by lia.
    rewrite !Z.pow_succ_r by lia. lia.
  - simpl. lia.
Qed.

Lemma iter_xO (m d : positive) : Zpos (Pos.iter xO m d) = (Zpos m * 2 ^ Zpos d)%Z.
Proof.
  induction d as [|d IH] using Pos.peano_ind.
  - simpl. lia.
  - rewrite Pos.iter_succ, Pos2Z.inj_succ, Z.pow_succ_r by lia.
    rewrite Pos2Z.inj_xO, IH. lia.
Qed.

Lemma shl_align_fst (m : positive) (e e' : Z) :
  (e' <= e)%Z -> Zpos (fst (shl_align m e e')) = (Zpos m * 2 ^ (e - e'))%Z.
Proof.
  intros H. unfold shl_align. destruct (e' - e)%Z as [|d|d] eqn:E; cbn [fst].
  - replace (e - e')%Z with 0%Z by lia. now rewrite Z.pow_0_r, Z.mul_1_r.
  - lia.
  - rewrite iter_xO. f_equal. f_equal. lia.
Qed.

(** A valid finite value: its exponent is the canonical one of its
    mantissa and lies in the range of the format. *)
Lemma bounded_inv (m : positive) (e : Z) :
  bounded prec emax m e = true ->
  Z.max (Zpos (digits2_pos m) + e - 53) (-1074) = e /\ (e <= 971)%Z.
Proof.
  unfold bounded, canonical_mantissa, fexp, SpecFloat.emin, prec, emax.
  intros H. apply andb_true_iff in H. destruct H as [H1 H2].
  apply Z.eqb_eq in H1. apply Z.leb_le in H2. simpl in *. lia.
Qed.

(** Valid values are ordered like their mantissas once brought to a common
    exponent. *)
Lemma aligned_compare (mx : positive) (ex : Z) (my : positive) (ey : Z) :
  bounded prec emax mx ex = true -> bounded prec emax my ey = true ->
  (Zpos (fst (shl_align mx ex (Z.min ex ey))) ?= Zpos (fst (shl_align my ey (Z.min ex ey))))%Z
  = match (ex ?= ey)%Z with
    | Lt => Lt
    | Gt => Gt
    | Eq => Pos.compare_cont Eq mx my
    end.
Proof.
  intros Hx Hy.
  destruct (bounded_inv _ _ Hx) as [Cx _], (bounded_inv _ _ Hy) as [Cy _].
  pose proof (digits2_pos_bounds mx) as [Lx Ux].
  pose proof (digits2_pos_bounds my) as [Ly Uy].
  rewrite !shl_align_fst by lia.
  destruct (Z.compare_spec ex ey) as [E|E|E].
  - subst ey. rewrite Z.min_id, Z.sub_diag. simpl. rewrite !Pos.mul_1_r. reflexivity.
  - apply Z.compare_lt_iff.
    rewrite Z.min_l by lia. rewrite Z.sub_diag, Z.mul_1_r.
    assert (Dy : Zpos (digits2_pos my) = 53%Z) by lia.
    assert (Dx : (Zpos (digits2_pos mx) <= 53)%Z) by lia.
    rewrite Dy in Ly.
    assert (Zpos mx < 2 ^ 53)%Z.
    { eapply Z.lt_le_trans; [exact Ux|]. apply Z.pow_le_mono_r; lia. }
    assert (2 ^ 1 <= 2 ^ (ey - ex))%Z by (apply Z.pow_le_mono_r; lia).
    change (2 ^ (53 - 1))%Z with 4503599627370496%Z in Ly.
    change (2 ^ 53)%Z with 9007199254740992%Z in *.
    change (2 ^ 1)%Z with 2%Z in *. nia.
  - apply Z.compare_gt_iff.
    rewrite Z.min_r by lia. rewrite Z.sub_diag, Z.mul_1_r.
    assert (Dx : Zpos (digits2_pos mx) = 53%Z) by lia.
    assert (Dy : (Zpos (digits2_pos my) <= 53)%Z) by lia.
    rewrite Dx in Lx.
    assert (Zpos my < 2 ^ 53)%Z.
    { eapply Z.lt_le_trans; [exact Uy|]. apply Z.pow_le_mono_r; lia. }
    assert (2 ^ 1 <= 2 ^ (ex - ey))%Z by (apply Z.pow_le_mono_r; lia).
    change (2 ^ (53 - 1))%Z with 4503599627370496%Z in Lx.
    change (2 ^ 53)%Z with 9007199254740992%Z in *.
    change (2 ^ 1)%Z with 2%Z in *. nia.
Qed.

Lemma shr_1_m (r : shr_record) :
  (0 <= shr_m r)%Z -> shr_m (shr_1 r) = Z.div2 (shr_m r).
Proof.
  destruct r as [m rb sb]. simpl. intros H.
  destruct m as [|p|p]; [reflexivity| |lia].
  destruct p; reflexivity.
Qed.

Lemma iter_shr_1_m (p : positive) :
  forall r, (0 <= shr_m r)%Z -> shr_m (iter_pos shr_1 p r) = Z.shiftr (shr_m r) (Zpos p).
Proof.
  induction p as [p IH|p IH|]; intros r H; simpl iter_pos.
  - assert (H1 : (0 <= shr_m (shr_1 r))%Z)
      by (rewrite shr_1_m by exact H; apply Z.div2_nonneg; exact H).
    assert (H2 : (0 <= shr_m (iter_pos shr_1 p (shr_1 r)))%Z)
      by (rewrite IH by exact H1; apply Z.shiftr_nonneg; exact H1).
    rewrite IH by exact H2. rewrite IH by exact H1. rewrite shr_1_m by exact H.
    rewrite Z.div2_spec, !Z.shiftr_shiftr by lia. f_equal. lia.
  - assert (H2 : (0 <= shr_m (iter_pos shr_1 p r))%Z)
      by (rewrite IH by exact H; apply Z.shiftr_nonneg; exact H).
    rewrite IH by exact H2. rewrite IH by exact H.
    rewrite Z.shiftr_shiftr by lia. f_equal. lia.
  - rewrite shr_1_m by exact H. apply Z.div2_spec.
Qed.

Lemma shr_m_of_loc (m : Z) (l : location) : shr_m (shr_record_of_loc m l) = m.
Proof. destruct l as [|[]]; reflexivity. Qed.

(** Rounding a positive mantissa at an exponent of the format leaves a
    positive mantissa: nothing is shifted out entirely. *)
Lemma shr_fexp_pos (m e : Z) (l : location) :
  (0 < m)%Z -> (-1074 <= e)%Z ->
  (0 < shr_m (fst (shr_fexp prec emax m e l)))%Z
  /\ (-1074 <= snd (shr_fexp prec emax m e l))%Z.
Proof.
  intros Hm He. unfold shr_fexp, shr.
  destruct m as [|p|p]; try lia. cbn [Zdigits2].
  pose proof (digits2_pos_bounds p) as [L U].
  assert (F : fexp prec emax (Zpos (digits2_pos p) + e)
              = Z.max (Zpos (digits2_pos p) + e - 53) (-1074)) by reflexivity.
  rewrite F. clear F.
  destruct (Z.max (Zpos (digits2_pos p) + e - 53) (-1074) - e)%Z as [|q|q] eqn:E;
    cbn [fst snd]; rewrite ?shr_m_of_loc; try lia.
  rewrite iter_shr_1_m by (rewrite shr_m_of_loc; lia).
  rewrite shr_m_of_loc. split; [|lia].
  rewrite Z.shiftr_div_pow2 by lia.
  apply Z.div_str_pos. split; [apply Z.pow_pos_nonneg; lia|].
  eapply Z.le_trans; [|exact L]. apply Z.pow_le_mono_r; lia.
Qed.

Lemma round_nearest_even_ge (m : Z) (l : location) : (m <= round_nearest_even m l)%Z.
Proof.
  destruct l as [|[]]; simpl; try destruct (Z.even m); lia.
Qed.

Lemma binary_round_aux_positive (m e : Z) (l : location) :
  (0 < m)%Z -> (-1074 <= e)%Z -> sf_positive (binary_round_aux prec emax false m e l).
Proof.
  intros Hm He. unfold binary_round_aux.
  pose proof (shr_fexp_pos m e l Hm He) as [H1 H1'].
  destruct (shr_fexp prec emax m e l) as [mrs' e']. simpl in H1, H1'.
  pose proof (round_nearest_even_ge (shr_m mrs') (loc_of_shr_record mrs')) as Hr.
  pose proof (shr_fexp_pos (round_nearest_even (shr_m mrs') (loc_of_shr_record mrs')) e'
                loc_Exact ltac:(lia) H1') as [H2 _].
  destruct (shr_fexp prec emax _ e' loc_Exact) as [mrs'' e'']. simpl in H2.
  destruct (shr_m mrs''); try lia.
  destruct (_ <=? _)%Z; exact I.
Qed.

Lemma binary_round_positive (p : positive) (e : Z) :
  (-1074 <= e)%Z -> sf_positive (binary_round prec emax false p e).
Proof.
  intros He. unfold binary_round, shl_align.
  set (e' := fexp prec emax (Zpos (digits2_pos p) + e)).
  assert (He' : (-1074 <= e')%Z).
  { unfold e', fexp, SpecFloat.emin, prec, emax. simpl. lia. }
  destruct (e' - e)%Z; apply binary_round_aux_positive; lia.
Qed.

Lemma binary_round_negative (p : positive) (e : Z) :
  SFltb (S754_zero false) (binary_round prec emax true p e) = false.
Proof.
  unfold binary_round. destruct (shl_align _ _ _) as [mz ez].
  unfold binary_round_aux.
  destruct (shr_fexp prec emax (Zpos mz) ez loc_Exact) as [mrs' e'].
  destruct (shr_fexp prec emax _ e' loc_Exact) as [mrs'' e''].
  destruct (shr_m mrs''); try reflexivity.
  destruct (_ <=? _)%Z; reflexivity.
Qed.

Lemma sf_positive_ltb (x : spec_float) :
  sf_positive x -> SFltb (S754_zero false) x = true.
Proof.
  destruct x as [s|s| |s m e]; try destruct s; simpl; intros H; try contradiction; reflexivity.
Qed.

Lemma ltb_sf_positive (x : spec_float) :
  SFltb (S754_zero false) x = true -> sf_positive x.
Proof.
  destruct x as [s|s| |s m e]; try destruct s; simpl; intros H; try discriminate; exact I.
Qed.

(** For positive values, [y - x] is above 0 exactly when [x] is below [y]. *)
Lemma SFsub_sign (x y : spec_float) :
  valid_binary x = true -> valid_binary y = true ->
  sf_positive x -> sf_positive y ->
  SFltb (S754_zero false) (SFsub prec emax y x) = SFltb x y.
Proof.
  destruct x as [sx|sx| |sx mx ex], y as [sy|sy| |sy my ey];
    try destruct sx; try destruct sy; cbn [sf_positive valid_binary];
    intros Vx Vy Px Py; try contradiction; try reflexivity.
  unfold SFltb at 2. cbn [SFcompare SFsub cond_Zopp].
  rewrite <- (aligned_compare mx ex my ey Vx Vy).
  destruct (bounded_inv _ _ Vx) as [Cx _], (bounded_inv _ _ Vy) as [Cy _].
  rewrite (Z.min_comm ey ex).
  set (a := Zpos (fst (shl_align mx ex (Z.min ex ey)))).
  set (b := Zpos (fst (shl_align my ey (Z.min ex ey)))).
  destruct (Z.compare_spec a b) as [E|E|E].
  - rewrite E, Z.sub_diag. reflexivity.
  - destruct (b - a)%Z as [|p|p] eqn:D; try lia. cbn [binary_normalize].
    apply sf_positive_ltb, binary_round_positive. lia.
  - destruct (b - a)%Z as [|p|p] eqn:D; try lia. cbn [binary_normalize].
    apply binary_round_negative.
Qed.

Lemma positive_sf (x : float) : (0 <? x) = true -> sf_positive (Prim2SF x).
Proof.
  rewrite ltb_spec. apply ltb_sf_positive.
Qed.

Lemma sub_positive_iff (x y : float) :
  (0 <? x) = true -> (0 <? y) = true -> (0 <? y - x) = (x <? y).
Proof.
  intros Hx Hy. rewrite !ltb_spec, sub_spec.
  change (Prim2SF 0) with (S754_zero false).
  apply SFsub_sign; auto using Prim2SF_valid, positive_sf.
Qed.

Lemma sub_diag_SF (x : spec_float) :
  SFsub prec emax x x = S754_zero false \/ SFsub prec emax x x = S754_nan.
Proof.
  destruct x as [s|s| |s m e]; simpl.
  - left. destruct s; reflexivity.
  - right. destruct s; reflexivity.
  - right. reflexivity.
  - left. rewrite Z.sub_diag. reflexivity.
Qed.

(** [x - x] is [+0], or [NaN] when [x] is infinite or [NaN]. *)
Lemma sub_diag (x : float) : x - x = zero \/ x - x = nan.
Proof.
  destruct (sub_diag_SF (Prim2SF x)) as [H|H]; [left|right];
    apply Prim2SF_inj; rewrite sub_spec; exact H.
Qed.



(* ================================================================== *)
(** ** Binary64: a difference of finite positive values does not overflow *)

Lemma digits_le (u : positive) (n : Z) :
  (0 <= n)%Z -> (Zpos u < 2 ^ n)%Z -> (Zpos (digits2_pos u) <= n)%Z.
Proof.
  intros Hn Hu. destruct (digits2_pos_bounds u) as [L _].
  destruct (Z_le_gt_dec (Zpos (digits2_pos u)) n) as [H|H]; [exact H|].
  assert (2 ^ n <= 2 ^ (Zpos (digits2_pos u) - 1))%Z by (apply Z.pow_le_mono_r; lia).
  lia.
Qed.

Lemma digits_ge (u : positive) (n : Z) :
  (0 <= n)%Z -> (2 ^ n <= Zpos u)%Z -> (n < Zpos (digits2_pos u))%Z.
Proof.
  intros Hn Hu. destruct (digits2_pos_bounds u) as [_ U].
  destruct (Z_lt_le_dec n (Zpos (digits2_pos u))) as [H|H]; [exact H|].
  assert (2 ^ Zpos (digits2_pos u) <= 2 ^ n)%Z by (apply Z.pow_le_mono_r; lia).
  lia.
Qed.

Lemma digits_shift (p d : positive) :
  Zpos (digits2_pos (Pos.iter xO p d)) = (Zpos (digits2_pos p) + Zpos d)%Z.
Proof.
  destruct (digits2_pos_bounds p) as [L U].
  pose proof (iter_xO p d) as E.
  assert (P : (0 < 2 ^ Zpos d)%Z) by (apply Z.pow_pos_nonneg; lia).
  apply Z.le_antisymm.
  - apply digits_le; [lia|]. rewrite E, Z.pow_add_r by lia. nia.
  - assert (Zpos (digits2_pos p) - 1 + Zpos d < Zpos (digits2_pos (Pos.iter xO p d)))%Z; [|lia].
    apply digits_ge; [lia|]. rewrite E, Z.pow_add_r by lia. nia.
Qed.

Lemma fexp_mono (a b : Z) : (a <= b)%Z -> (fexp prec emax a <= fexp prec emax b)%Z.
Proof.
  unfold fexp, SpecFloat.emin, prec, emax. lia.
Qed.

Lemma shr_fexp_snd (p : positive) (e : Z) (l : location) :
  snd (shr_fexp prec emax (Zpos p) e l)
  = Z.max e (fexp prec emax (Zpos (digits2_pos p) + e)).
Proof.
  unfold shr_fexp, shr. cbn [Zdigits2].
  destruct (fexp prec emax (Zpos (digits2_pos p) + e) - e)%Z eqn:E; cbn [snd]; lia.
Qed.

Lemma round_nearest_even_le (m : Z) (l : location) : (round_nearest_even m l <= m + 1)%Z.
Proof.
  destruct l as [|[]]; simpl; try destruct (Z.even m); lia.
Qed.

(** If the value rounded first is below [2^K] at its exponent, and the
    exponent of [2^K] is one of the format, the result is not infinite. *)
Lemma binary_round_aux_no_overflow (m e : Z) (l : location) (K : Z) :
  (0 < m)%Z -> (-1074 <= e)%Z -> (fexp prec emax K <= 971)%Z ->
  (snd (shr_fexp prec emax m e l) <= fexp prec emax K)%Z ->
  (snd (shr_fexp prec emax m e l) <= K)%Z ->
  (round_nearest_even (shr_m (fst (shr_fexp prec emax m e l)))
     (loc_of_shr_record (fst (shr_fexp prec emax m e l)))
   < 2 ^ (K - snd (shr_fexp prec emax m e l)))%Z ->
  binary_round_aux prec emax false m e l <> S754_infinity false.
Proof.
  intros Hm He HK H1 H1' H2. unfold binary_round_aux.
  pose proof (shr_fexp_pos m e l Hm He) as [P1 P1'].
  destruct (shr_fexp prec emax m e l) as [mrs' e']. cbn [fst snd] in *.
  pose proof (round_nearest_even_ge (shr_m mrs') (loc_of_shr_record mrs')) as Hr.
  set (m1 := round_nearest_even (shr_m mrs') (loc_of_shr_record mrs')) in *.
  destruct m1 as [|q|q] eqn:Eq; try lia.
  pose proof (shr_fexp_snd q e' loc_Exact) as S2.
  pose proof (digits_le q (K - e') ltac:(lia) H2) as D.
  pose proof (fexp_mono (Zpos (digits2_pos q) + e') K ltac:(lia)) as F.
  destruct (shr_fexp prec emax (Zpos q) e' loc_Exact) as [mrs'' e'']. cbn [snd] in S2.
  destruct (shr_m mrs''); try discriminate.
  replace (e'' <=? emax - prec)%Z with true; [discriminate|].
  symmetry. apply Z.leb_le. change (emax - prec)%Z with 971%Z. lia.
Qed.

(** Rounding a positive integer that is below a valid value, at an
    exponent of the format, gives a finite value. *)
Lemma binary_round_no_overflow (p : positive) (ez : Z) (mx : positive) (ex : Z) :
  (-1074 <= ez <= ex)%Z -> bounded prec emax mx ex = true ->
  (Zpos p < Zpos mx * 2 ^ (ex - ez))%Z ->
  binary_round prec emax false p ez <> S754_infinity false.
Proof.
  intros He Hx Hp.
  destruct (bounded_inv _ _ Hx) as [Cx Bx].
  destruct (digits2_pos_bounds mx) as [_ Ux].
  set (K := (Zpos (digits2_pos mx) + ex)%Z).
  assert (FK : fexp prec emax K = ex) by exact Cx.
  assert (P2 : (0 < 2 ^ (ex - ez))%Z) by (apply Z.pow_pos_nonneg; lia).
  assert (Dp : (Zpos (digits2_pos p) + ez <= K)%Z).
  { assert (Zpos (digits2_pos p) <= Zpos (digits2_pos mx) + (ex - ez))%Z; [|unfold K; lia].
    apply digits_le; [lia|]. rewrite Z.pow_add_r by lia. nia. }
  pose proof (fexp_mono _ _ Dp) as Ff. rewrite FK in Ff.
  unfold binary_round, shl_align.
  set (f := fexp prec emax (Zpos (digits2_pos p) + ez)) in *.
  assert (Hf : (-1074 <= f)%Z) by (unfold f, fexp, SpecFloat.emin, prec, emax; lia).
  destruct (f - ez)%Z as [|q|q] eqn:En.
  - (* the exponent is already the canonical one *)
    assert (Ef : f = ez) by lia.
    apply (binary_round_aux_no_overflow _ _ _ K); try lia;
      rewrite ?shr_fexp_snd; fold f; rewrite ?Ef, ?Z.max_id; try lia.
    unfold shr_fexp, shr. cbn [Zdigits2]. fold f. rewrite Ef, Z.sub_diag.
    cbn [fst snd shr_record_of_loc shr_m loc_of_shr_record round_nearest_even].
    unfold K. replace (Zpos (digits2_pos mx) + ex - ez)%Z
      with (Zpos (digits2_pos mx) + (ex - ez))%Z by lia.
    rewrite Z.pow_add_r by lia. nia.
  - (* low bits are shifted out *)
    assert (Ef : f = (ez + Zpos q)%Z) by lia.
    apply (binary_round_aux_no_overflow _ _ _ K); try lia;
      rewrite ?shr_fexp_snd; fold f; try lia.
    replace (Z.max ez f) with f by lia.
    eapply Z.le_lt_trans; [apply round_nearest_even_le|].
    unfold shr_fexp, shr. cbn [Zdigits2]. fold f. rewrite En. cbn [fst].
    rewrite iter_shr_1_m by (cbn; lia). cbn [shr_record_of_loc shr_m].
    rewrite Z.shiftr_div_pow2 by lia.
    assert (Pq : (0 < 2 ^ Zpos q)%Z) by (apply Z.pow_pos_nonneg; lia).
    assert (Pf : (0 < 2 ^ (ex - f))%Z) by (apply Z.pow_pos_nonneg; lia).
    assert (Hlt : (Zpos p / 2 ^ Zpos q < Zpos mx * 2 ^ (ex - f))%Z).
    { apply Z.div_lt_upper_bound; [exact Pq|].
      replace (ex - ez)%Z with (Zpos q + (ex - f))%Z in Hp by lia.
      rewrite Z.pow_add_r in Hp by lia. nia. }
    unfold K. replace (Zpos (digits2_pos mx) + ex - f)%Z
      with (Zpos (digits2_pos mx) + (ex - f))%Z by lia.
    rewrite Z.pow_add_r by lia.
    assert (Zpos mx * 2 ^ (ex - f) <= (2 ^ Zpos (digits2_pos mx) - 1) * 2 ^ (ex - f))%Z
      by (apply Z.mul_le_mono_nonneg_r; lia).
    lia.
  - (* the mantissa is shifted left to the canonical exponent *)
    assert (Ef : (ez = f + Zpos q)%Z) by lia.
    assert (Dq : fexp prec emax (Zpos (digits2_pos (Pos.iter xO p q)) + f) = f).
    { rewrite digits_shift. unfold f at 2. f_equal. lia. }
    apply (binary_round_aux_no_overflow _ _ _ K); try lia;
      rewrite ?shr_fexp_snd, ?Dq, ?Z.max_id; try lia.
    unfold shr_fexp, shr. cbn [Zdigits2]. rewrite Dq, Z.sub_diag.
    cbn [fst snd shr_record_of_loc shr_m loc_of_shr_record round_nearest_even].
    rewrite iter_xO.
    assert (Pq : (0 < 2 ^ Zpos q)%Z) by (apply Z.pow_pos_nonneg; lia).
    unfold K. replace (Zpos (digits2_pos mx) + ex - f)%Z
      with (Zpos (digits2_pos mx) + ((ex - ez) + Zpos q))%Z by lia.
    rewrite !Z.pow_add_r by lia.
    assert (Zpos mx * 2 ^ (ex - ez) <= (2 ^ Zpos (digits2_pos mx) - 1) * 2 ^ (ex - ez))%Z
      by (apply Z.mul_le_mono_nonneg_r; lia).
    assert (Zpos p * 2 ^ Zpos q < 2 ^ Zpos (digits2_pos mx) * 2 ^ (ex - ez) * 2 ^ Zpos q)%Z
      by (apply Z.mul_lt_mono_pos_r; lia).
    lia.
Qed.







(** The payer of a settlement that has no balance yet gets [NaN]: the
    subtraction reads [undefined]. *)
Lemma nan_sub (a : float) : nan - a = nan.
Proof.
  apply Prim2SF_inj. rewrite sub_spec. reflexivity.
Qed.

(* ================================================================== *)
(** ** Math.min and what is left after a transfer *)

Lemma Math_min_cases (x y : float) :
  JS.Math_min x y = nan \/ JS.Math_min x y = x \/ JS.Math_min x y = y.
Proof.
  unfold JS.Math_min.
  destruct (is_nan x || is_nan y); [now left|].
  destruct (x <? y); [now right; left|].
  destruct (y <? x); [now right; right|].
  destruct (get_sign x); [now right; left | now right; right].
Qed.

Lemma Math_min_nan_l (y : float) : JS.Math_min nan y = nan.
Proof. reflexivity. Qed.

Lemma Math_min_nan_r (x : float) : JS.Math_min x nan = nan.
Proof.
  unfold JS.Math_min. change (is_nan nan) with true. now rewrite orb_true_r.
Qed.

(** A transfer amount is one of the two remaining amounts. *)
Lemma pay_is_one_of (x y : float) :
  (0.01 <? JS.Math_min x y) = true -> JS.Math_min x y = x \/ JS.Math_min x y = y.
Proof.
  intros H. destruct (Math_min_cases x y) as [E|E]; [|exact E].
  rewrite E in H. discriminate.
Qed.

Lemma Math_min_not_nan (x y : float) :
  (0.01 <? JS.Math_min x y) = true -> is_nan x = false /\ is_nan y = false.
Proof.
  unfold JS.Math_min. destruct (is_nan x || is_nan y) eqn:E; [discriminate|].
  intros _. now apply orb_false_elim.
Qed.






(* ================================================================== *)
(** ** Objects *)

Lemma get_set_same (o : JS.object) (k : string) (v : float) :
  JS.get (JS.set o k v) k = Some v.
Proof.
  induction o as [|[k' v'] o IH]; simpl.
  - now rewrite String.eqb_refl.
  - destruct (String.eqb k' k) eqn:E; simpl; rewrite E; [reflexivity | exact IH].
Qed.

Lemma get_set_other (o : JS.object) (k k' : string) (v : float) :
  k' <> k -> JS.get (JS.set o k v) k' = JS.get o k'.
Proof.
  intros Hne. induction o as [|[k0 v0] o IH]; simpl.
  - destruct (String.eqb k k') eqn:E; [|reflexivity].
    apply String.eqb_eq in E. congruence.
  - destruct (String.eqb k0 k) eqn:E; simpl.
    + apply String.eqb_eq in E. subst k0.
      destruct (String.eqb k k') eqn:E'; [|reflexivity].
      apply String.eqb_eq in E'. congruence.
    + now rewrite IH.
Qed.

Lemma keys_set (o : JS.object) (k : string) (v : float) :
  map fst (JS.set o k v) =
  match JS.get o k with
  | Some _ => map fst o
  | None => map fst o ++ [k]
  end.
Proof.
  induction o as [|[k' v'] o IH]; simpl; [reflexivity|].
  destruct (String.eqb k' k) eqn:E; simpl; [reflexivity|].
  rewrite IH. now destruct (JS.get o k).
Qed.

Lemma get_None_keys (o : JS.object) (k : string) :
  JS.get o k = None <-> ~ In k (map fst o).
Proof.
  induction o as [|[k' v'] o IH]; simpl.
  - tauto.
  - destruct (String.eqb k' k) eqn:E.
    + apply String.eqb_eq in E. split; [discriminate | tauto].
    + apply String.eqb_neq in E. rewrite IH. tauto.
Qed.

(** Assignments keep the keys of an object distinct. *)
Lemma NoDup_keys_set (o : JS.object) (k : string) (v : float) :
  NoDup (map fst o) -> NoDup (map fst (JS.set o k v)).
Proof.
  intros H. rewrite keys_set. destruct (JS.get o k) eqn:E; [exact H|].
  apply get_None_keys in E.
  apply NoDup_app; [exact H | repeat constructor; simpl; tauto |].
  intros x Hx [<-|[]]. contradiction.
Qed.

(** The lazy initialisation followed by a read. *)
Lemma lazy_init_get (o : JS.object) (k : string) :
  JS.get (match JS.get o k with None => JS.set o k 0 | Some _ => o end) k
  = Some (balance_or_zero o k).
Proof.
  unfold balance_or_zero. destruct (JS.get o k) eqn:E; [exact E | apply get_set_same].
Qed.

Lemma lazy_init_get_other (o : JS.object) (k k' : string) :
  k' <> k ->
  JS.get (match JS.get o k with None => JS.set o k 0 | Some _ => o end) k' = JS.get o k'.
Proof.
  intros H. destruct (JS.get o k); [reflexivity | now apply get_set_other].
Qed.

(** The ids that [generateId("person")] makes,
    [`person_${Date.now()}_${...}`], are ordinary keys. *)
Lemma generateId_ordinary (rest : string) : JS.ordinary_key ("person_" ++ rest) = true.
Proof. reflexivity. Qed.


(* ================================================================== *)
(** ** Arrays and Array.prototype.sort *)

Lemma length_update {A : Type} (n : nat) (x : A) (l : list A) :
  List.length (JS.update n x l) = List.length l.
Proof.
  revert n. induction l as [|y l IH]; intros [|n]; simpl; auto.
Qed.

Lemma nth_error_update_same {A : Type} (n : nat) (x y : A) (l : list A) :
  nth_error l n = Some y -> nth_error (JS.update n x l) n = Some x.
Proof.
  revert n. induction l as [|z l IH]; intros [|n]; simpl; try discriminate; auto.
Qed.

Lemma skipn_nth_error {A : Type} (n : nat) (y : A) (l : list A) :
  nth_error l n = Some y -> skipn n l = y :: skipn (S n) l.
Proof.
  revert n. induction l as [|z l IH]; intros [|n]; simpl; try discriminate.
  - now intros [= ->].
  - intros H. now rewrite (IH n H).
Qed.

Lemma skipn_nth_error_None {A : Type} (n : nat) (l : list A) :
  nth_error l n = None -> skipn n l = [].
Proof.
  intros H. apply skipn_all2. now apply nth_error_None.
Qed.

Lemma skipn_update_same {A : Type} (n : nat) (x y : A) (l : list A) :
  nth_error l n = Some y -> skipn n (JS.update n x l) = x :: skipn (S n) l.
Proof.
  revert n. induction l as [|z l IH]; intros [|n]; simpl; try discriminate; auto.
Qed.

Lemma skipn_update_after {A : Type} (n : nat) (x : A) (l : list A) :
  skipn (S n) (JS.update n x l) = skipn (S n) l.
Proof.
  revert n. induction l as [|z l IH]; intros [|n]; try reflexivity.
  change (skipn (S n) (JS.update n x l) = skipn (S n) l). apply IH.
Qed.

(** A non-empty list has a last element. *)
Lemma last_split {A : Type} (l : list A) :
  l <> [] -> exists init last, l = init ++ [last].
Proof.
  intros H. destruct (exists_last H) as [init [last E]]. now exists init, last.
Qed.

Section SortFacts.
Context {A : Type} (comparefn : A -> A -> float).

Lemma sort_insert_perm (x : A) (l : list A) :
  Permutation (JS.sort_insert comparefn x l) (x :: l).
Proof.
  induction l as [|y l IH]; simpl; [reflexivity|].
  destruct (0 <? comparefn x y); [|reflexivity].
  rewrite IH. apply perm_swap.
Qed.

(** Sorting rearranges the array. *)
Lemma sort_perm (l : list A) : Permutation (JS.sort comparefn l) l.
Proof.
  induction l as [|x l IH]; simpl; [reflexivity|].
  rewrite sort_insert_perm. now constructor.
Qed.
End SortFacts.

Lemma sort_insert_hd (R : Party -> Party -> Prop) (y x : Party) (l : list Party) :
  HdRel R y l -> R y x -> HdRel R y (JS.sort_insert by_amount_desc x l).
Proof.
  intros Hl Hx. destruct l as [|z l]; simpl; [now constructor|].
  destruct (0 <? by_amount_desc x z); constructor; [|exact Hx].
  now inversion Hl.
Qed.

Lemma sort_insert_descending (x : Party) (l : list Party) :
  (0 <? party_amount x) = true ->
  Forall (fun p => (0 <? party_amount p) = true) l ->
  descending l -> descending (JS.sort_insert by_amount_desc x l).
Proof.
  intros Hx Hl Hs. unfold descending in *.
  induction l as [|y l IH]; simpl; [repeat constructor|].
  inversion Hl as [|? ? Hy Hl']; subst. inversion Hs as [|? ? Hs' Hhd]; subst.
  unfold by_amount_desc at 1.
  rewrite (sub_positive_iff _ _ Hx Hy).
  destruct (party_amount x <? party_amount y) eqn:E.
  - constructor; [now apply IH|].
    apply sort_insert_hd; [exact Hhd | now apply ltb_leb].
  - constructor; [exact Hs|]. constructor.
    apply ltb_false_leb; [| |exact E]; eapply ltb_right_not_nan; eassumption.
Qed.

(** Sorting positive amounts with [(a, b) => b.amount - a.amount] puts
    them in descending order. *)
Lemma sort_descending (l : list Party) :
  Forall (fun p => (0 <? party_amount p) = true) l ->
  descending (JS.sort by_amount_desc l).
Proof.
  induction l as [|x l IH]; simpl; intros H; [constructor|].
  inversion H as [|? ? Hx Hl]; subst.
  apply sort_insert_descending; [exact Hx| |now apply IH].
  eapply Permutation_Forall; [symmetry; apply sort_perm | exact Hl].
Qed.

(* ================================================================== *)
(** ** calculateNetBalances *)

(** What one split of a normal expense does to every balance: the
    participant's balance goes down by the amount, the payer's goes up by
    it, each of them starting from 0 if it was missing. *)
Lemma expense_split_get (payer : string) (b : JS.object) (ps : Split) (k : string) :
  JS.get (expense_split payer b ps) k =
  if String.eqb k payer then
    Some ((if String.eqb (personId ps) payer
           then balance_or_zero b payer - amount ps
           else balance_or_zero b payer) + amount ps)
  else if String.eqb k (personId ps) then
    Some (balance_or_zero b (personId ps) - amount ps)
  else JS.get b k.
Proof.
  unfold expense_split. destruct ps as [pid a]; simpl.
  set (b1 := match JS.get b pid with None => JS.set b pid 0 | Some _ => b end).
  assert (H1 : JS.get b1 pid = Some (balance_or_zero b pid)) by apply lazy_init_get.
  rewrite H1; simpl.
  set (b2 := JS.set b1 pid (balance_or_zero b pid - a)).
  assert (H2 : JS.get b2 pid = Some (balance_or_zero b pid - a)) by apply get_set_same.
  assert (H2' : forall k', k' <> pid -> JS.get b2 k' = JS.get b k').
  { intros k' Hk. unfold b2. rewrite get_set_other by exact Hk.
    unfold b1. now apply lazy_init_get_other. }
  set (b3 := match JS.get b2 payer with None => JS.set b2 payer 0 | Some _ => b2 end).
  assert (H3 : JS.get b3 payer = Some (balance_or_zero b2 payer)) by apply lazy_init_get.
  rewrite H3; simpl.
  destruct (String.eqb k payer) eqn:Ek.
  - apply String.eqb_eq in Ek. subst k. rewrite get_set_same. f_equal. f_equal.
    unfold balance_or_zero at 1.
    destruct (String.eqb pid payer) eqn:Ep.
    + apply String.eqb_eq in Ep. subst pid. now rewrite H2.
    + apply String.eqb_neq in Ep. rewrite H2' by congruence. reflexivity.
  - apply String.eqb_neq in Ek. rewrite get_set_other by exact Ek.
    unfold b3. rewrite lazy_init_get_other by exact Ek.
    destruct (String.eqb k pid) eqn:Ep.
    + apply String.eqb_eq in Ep. subst k. exact H2.
    + apply String.eqb_neq in Ep. now apply H2'.
Qed.

(** What one split of a settlement does to every balance: the payer's
    balance goes down by the amount, read as it is (a missing one reads as
    [undefined]); the receiver's goes up by it, starting from 0 if missing. *)
Lemma settlement_split_get (payer : string) (b : JS.object) (ps : Split) (k : string) :
  JS.get (settlement_split payer b ps) k =
  if String.eqb k (personId ps) then
    Some ((if String.eqb (personId ps) payer
           then JS.toNumber (JS.get b payer) - amount ps
           else balance_or_zero b (personId ps)) + amount ps)
  else if String.eqb k payer then
    Some (JS.toNumber (JS.get b payer) - amount ps)
  else JS.get b k.
Proof.
  unfold settlement_split. destruct ps as [pid a]; simpl.
  set (v := JS.toNumber (JS.get b payer) - a).
  set (b1 := JS.set b payer v).
  assert (H1 : JS.get b1 payer = Some v) by apply get_set_same.
  assert (H1' : forall k', k' <> payer -> JS.get b1 k' = JS.get b k').
  { intros k' Hk. now apply get_set_other. }
  set (b2 := match JS.get b1 pid with None => JS.set b1 pid 0 | Some _ => b1 end).
  assert (H2 : JS.get b2 pid = Some (balance_or_zero b1 pid)) by apply lazy_init_get.
  rewrite H2; simpl.
  destruct (String.eqb k pid) eqn:Ek.
  - apply String.eqb_eq in Ek. subst k. rewrite get_set_same. f_equal. f_equal.
    unfold balance_or_zero at 1.
    destruct (String.eqb pid payer) eqn:Ep.
    + apply String.eqb_eq in Ep. subst pid. now rewrite H1.
    + apply String.eqb_neq in Ep. rewrite H1' by exact Ep. reflexivity.
  - apply String.eqb_neq in Ek. rewrite get_set_other by exact Ek.
    unfold b2. rewrite lazy_init_get_other by exact Ek.
    destruct (String.eqb k payer) eqn:Ep.
    + apply String.eqb_eq in Ep. subst k. exact H1.
    + apply String.eqb_neq in Ep. now apply H1'.
Qed.

(** Entries are folded in one by one over the balances of the entries
    before them. *)
Lemma calculateNetBalances_snoc (ppl : list Person) (es : list Expense) (e : Expense) :
  calculateNetBalances (mkState ppl (es ++ [e]))
  = apply_expense (calculateNetBalances (mkState ppl es)) e.
Proof.
  unfold calculateNetBalances; simpl. now rewrite fold_left_app.
Qed.

(** C3.  The rule of the claim is the one of the code: per split, an expense
    takes the amount from the participant and gives it to the payer, and a
    settlement takes it from the payer and gives it to the participant.  On
    the claim's example the expense gives A +40, B -20, C -20; the settlement
    "B pays A 20" then gives A +60, B -40, C -20, and not the A +20, B 0,
    C -20 of the claim: with this sign a recorded payment adds to the debt it
    pays. *)
Theorem calculateNetBalances_sign_convention :
  (forall payer b ps k,
      JS.get (expense_split payer b ps) k =
      if String.eqb k payer then
        Some ((if String.eqb (personId ps) payer
               then balance_or_zero b payer - amount ps
               else balance_or_zero b payer) + amount ps)
      else if String.eqb k (personId ps) then
        Some (balance_or_zero b (personId ps) - amount ps)
      else JS.get b k)
  /\ (forall payer b ps k,
      JS.get (settlement_split payer b ps) k =
      if String.eqb k (personId ps) then
        Some ((if String.eqb (personId ps) payer
               then JS.toNumber (JS.get b payer) - amount ps
               else balance_or_zero b (personId ps)) + amount ps)
      else if String.eqb k payer then
        Some (JS.toNumber (JS.get b payer) - amount ps)
      else JS.get b k)
  /\ calculateNetBalances (mkState Examples.abc [Examples.expense60])
     = [("A", 40); ("B", -20); ("C", -20)]
  /\ calculateNetBalances (mkState Examples.abc [Examples.expense60; Examples.B_pays_A_20])
     = [("A", 60); ("B", -40); ("C", -20)].
Proof.
  split; [exact expense_split_get|].
  split; [exact settlement_split_get|].
  split; vm_compute; reflexivity.
Qed.

Lemma settlement_payer_missing (payer : string) (b : JS.object) (ps : Split) :
  JS.get b payer = None -> personId ps <> payer ->
  JS.get (settlement_split payer b ps) payer = Some nan.
Proof.
  intros Hb Hne. rewrite settlement_split_get.
  destruct (String.eqb payer (personId ps)) eqn:E.
  - apply String.eqb_eq in E. congruence.
  - rewrite String.eqb_refl, Hb. simpl. now rewrite nan_sub.
Qed.

(** The normal-expense branch does initialise its payer. *)
Lemma expense_payer_initialised (payer : string) (b : JS.object) (ps : Split) :
  JS.get b payer = None -> personId ps <> payer ->
  JS.get (expense_split payer b ps) payer = Some (0 + amount ps).
Proof.
  intros Hb Hne. rewrite expense_split_get, String.eqb_refl.
  apply String.eqb_neq in Hne. rewrite Hne.
  unfold balance_or_zero. now rewrite Hb.
Qed.

(** C4.  A settlement whose payer has no balance yet (B paid A, then the
    expense between them and the person B were deleted) leaves B with [NaN],
    not with a number: the settlement branch does not create the payer's
    balance at 0 as the expense branch does. *)
Theorem calculateNetBalances_orphan_settlement :
  calculateNetBalances Examples.orphan_settlement = [("A", 20); ("B", nan)].
Proof. vm_compute. reflexivity. Qed.

(** C5.  On the same entries the balances do not add up to 0: their sum is
    [NaN].  (With the payer known, as in the example of an expense followed
    by a settlement, they do.) *)
Theorem sum_values_orphan_settlement :
  sum_values (calculateNetBalances Examples.orphan_settlement) = nan
  /\ sum_values
       (calculateNetBalances
          (mkState Examples.abc [Examples.expense60; Examples.B_pays_A_20])) = 0.
Proof. split; vm_compute; reflexivity. Qed.

(* ================================================================== *)
(** ** computeSplits: the loops in closed form *)

Lemma equal_forEach_rest (basic remaining : float) (pids : list string) :
  forall idx splits, idx <> 0%nat ->
    equal_forEach basic remaining pids idx splits
    = splits ++ map (fun q => mkSplit q (JS.toFixed2 basic)) pids.
Proof.
  induction pids as [|pid rest IH]; intros idx splits Hidx; simpl.
  - now rewrite app_nil_r.
  - destruct idx as [|idx]; [congruence|]. simpl.
    rewrite IH by discriminate. now rewrite <- app_assoc.
Qed.

Lemma equal_forEach_first (basic remaining : float) (p : string) (ps : list string) :
  equal_forEach basic remaining (p :: ps) 0 []
  = mkSplit p (JS.toFixed2 (basic + remaining))
      :: map (fun q => mkSplit q (JS.toFixed2 basic)) ps.
Proof.
  simpl. now rewrite equal_forEach_rest by discriminate.
Qed.

Lemma read_inputs_negative (input : string -> float) (pids : list string) :
  forall sum vals,
    (exists pid, In pid pids /\ (input pid <? 0) = true) ->
    read_inputs input pids sum vals = None.
Proof.
  induction pids as [|pid rest IH]; intros sum vals [q [Hin Hq]]; simpl.
  - destruct Hin.
  - destruct (input pid <? 0) eqn:E; [reflexivity|].
    apply IH. exists q. split; [|exact Hq].
    destruct Hin as [->|Hin]; [congruence | exact Hin].
Qed.

Lemma read_inputs_accepted (input : string -> float) (pids : list string) :
  forall sum vals,
    (forall pid, In pid pids -> (input pid <? 0) = false) ->
    read_inputs input pids sum vals
    = Some (fold_left (fun s pid => s + input pid) pids sum,
            vals ++ map (fun pid => mkSplit pid (input pid)) pids).
Proof.
  induction pids as [|pid rest IH]; intros sum vals H; simpl.
  - now rewrite app_nil_r.
  - rewrite (H pid) by now left. rewrite IH by (intros; apply H; now right).
    now rewrite <- app_assoc.
Qed.

(** The loop returns a result exactly when no value is negative. *)
Lemma read_inputs_cases (input : string -> float) (pids : list string) :
  (exists pid, In pid pids /\ (input pid <? 0) = true)
  \/ (forall pid, In pid pids -> (input pid <? 0) = false).
Proof.
  induction pids as [|pid rest [IH|IH]].
  - right. intros ? [].
  - left. destruct IH as [q [Hin Hq]]. exists q. split; [now right | exact Hq].
  - destruct (input pid <? 0) eqn:E.
    + left. exists pid. split; [now left | exact E].
    + right. intros q [<-|Hin]; [exact E | now apply IH].
Qed.

Lemma weighted_forEach_closed (totalAmount totalWeight : float) (n : nat)
    (input : string -> float) (init : list string) (last : string) :
  forall idx sum splits,
    (idx + List.length init + 1 = n)%nat ->
    weighted_forEach totalAmount totalWeight n
      (map (fun pid => mkSplit pid (input pid)) (init ++ [last])) idx sum splits
    = splits
      ++ map (weighted_share totalAmount totalWeight input) init
      ++ [mkSplit last
            (JS.toFixed2
               (totalAmount
                - sum_amounts_from sum
                    (map (weighted_share totalAmount totalWeight input) init)))].
Proof.
  induction init as [|pid init IH]; intros idx sum splits Hn; simpl in *.
  - replace (Nat.eqb idx (n - 1)) with true by (symmetry; apply Nat.eqb_eq; lia).
    reflexivity.
  - replace (Nat.eqb idx (n - 1)) with false by (symmetry; apply Nat.eqb_neq; lia).
    rewrite IH by lia. rewrite <- app_assoc. reflexivity.
Qed.

Lemma sum_amounts_from_app (start : float) (l1 l2 : list Split) :
  sum_amounts_from start (l1 ++ l2) = sum_amounts_from (sum_amounts_from start l1) l2.
Proof. apply fold_left_app. Qed.


(** The equal mode on a non-empty list. *)
Lemma computeSplits_equal (dom : SplitInputs) (totalAmount : float) (p : string)
    (ps : list string) :
  let n := JS.of_nat (List.length (p :: ps)) in
  let basic := JS.Math_floor ((totalAmount / n) * 100) / 100 in
  computeSplits dom totalAmount (p :: ps) "equal"
  = Ok (mkSplit p (JS.toFixed2 (basic + (totalAmount - basic * n)))
          :: map (fun q => mkSplit q (JS.toFixed2 basic)) ps).
Proof.
  intros n basic. unfold computeSplits.
  change (String.eqb "equal" "equal") with true. cbv iota.
  fold n. fold basic. now rewrite equal_forEach_first.
Qed.

(** The percent and shares modes once the values have been read and
    accepted. *)
Lemma weighted_splits (totalAmount totalWeight : float) (input : string -> float)
    (init : list string) (last : string) :
  let weights := map (fun pid => mkSplit pid (input pid)) (init ++ [last]) in
  weighted_forEach totalAmount totalWeight (List.length weights) weights 0 0 []
  = map (weighted_share totalAmount totalWeight input) init
    ++ [mkSplit last
          (JS.toFixed2
             (totalAmount
              - sum_amounts (map (weighted_share totalAmount totalWeight input) init)))].
Proof.
  intros weights. unfold weights.
  rewrite weighted_forEach_closed; [reflexivity|].
  rewrite length_map, length_app. simpl. lia.
Qed.

Lemma computeSplits_exact (dom : SplitInputs) (totalAmount : float) (pids : list string) :
  computeSplits dom totalAmount pids "exact" =
  match read_inputs (split_amount dom) pids 0 [] with
  | None => Err NegativeAmount
  | Some (sum, splits) =>
      if 0.01 <? JS.Math_abs (sum - totalAmount) then Err (SumMismatch sum totalAmount)
      else Ok splits
  end.
Proof. reflexivity. Qed.

Lemma computeSplits_percent (dom : SplitInputs) (totalAmount : float) (pids : list string) :
  computeSplits dom totalAmount pids "percent" =
  match read_inputs (split_percent dom) pids 0 [] with
  | None => Err NegativePercent
  | Some (totalPercent, percents) =>
      if 0.5 <? JS.Math_abs (totalPercent - 100) then Err (PercentOutOfRange totalPercent)
      else Ok (weighted_forEach totalAmount totalPercent (List.length percents) percents 0 0 [])
  end.
Proof. reflexivity. Qed.

Lemma computeSplits_shares (dom : SplitInputs) (totalAmount : float) (pids : list string) :
  computeSplits dom totalAmount pids "shares" =
  match read_inputs (split_shares dom) pids 0 [] with
  | None => Err NegativeShares
  | Some (totalShares, shares) =>
      if totalShares <=? 0 then Err ZeroShares
      else Ok (weighted_forEach totalAmount totalShares (List.length shares) shares 0 0 [])
  end.
Proof. reflexivity. Qed.

(** The result of the percent and shares modes, from the values read. *)
Lemma weighted_mode_result (totalAmount : float) (input : string -> float)
    (init : list string) (last : string) :
  (forall pid, In pid (init ++ [last]) -> (input pid <? 0) = false) ->
  read_inputs input (init ++ [last]) 0 [] =
    Some (sum_inputs input (init ++ [last]),
          map (fun pid => mkSplit pid (input pid)) (init ++ [last]))
  /\ weighted_forEach totalAmount (sum_inputs input (init ++ [last]))
       (List.length (map (fun pid => mkSplit pid (input pid)) (init ++ [last])))
       (map (fun pid => mkSplit pid (input pid)) (init ++ [last])) 0 0 []
     = map (weighted_share totalAmount (sum_inputs input (init ++ [last])) input) init
       ++ [mkSplit last
             (JS.toFixed2
                (totalAmount
                 - sum_amounts
                     (map (weighted_share totalAmount (sum_inputs input (init ++ [last])) input)
                        init)))].
Proof.
  intros H. split.
  - now rewrite read_inputs_accepted.
  - apply weighted_splits.
Qed.

(* ================================================================== *)
(** ** computeSplits: the modes *)

(** C6.  In equal mode on a non-empty list the first participant gets
    the base share [Math.floor(total / n * 100) / 100] plus the whole
    remainder [total - basic * n], every other participant the base share,
    each printed with two decimals; for a positive total the floor is the
    truncation toward zero of the product it is given; 10 among A, B and C
    gives 3.34, 3.33 and 3.33.  But the base share is not always
    [total / n] cut to two decimals: 10.04 between A and B gives 5.03 and
    5.01.  There [total / n] is 5.02, a number with two decimals, which the
    rule of the specification leaves as it is, with nothing left over; the
    product [5.02 * 100] is 501.99999999999994 in binary64 and its floor is
    501.  The percent mode at 50 % each and the shares mode at one share
    each give 5.02 and 5.02 for the same total.  0.58 between two gives 0.30
    and 0.28 in the same way. *)
Theorem equal_mode_uneven_shares :
  (forall dom totalAmount p ps,
      let n := JS.of_nat (List.length (p :: ps)) in
      let basic := JS.Math_floor ((totalAmount / n) * 100) / 100 in
      computeSplits dom totalAmount (p :: ps) "equal"
      = Ok (mkSplit p (JS.toFixed2 (basic + (totalAmount - basic * n)))
              :: map (fun q => mkSplit q (JS.toFixed2 basic)) ps))
  /\ (forall totalAmount (pids : list string),
      (0 <? totalAmount) = true ->
      JS.Math_floor ((totalAmount / JS.of_nat (List.length pids)) * 100)
      = truncate_toward_zero ((totalAmount / JS.of_nat (List.length pids)) * 100))
  /\ computeSplits no_inputs 10 ["A"; "B"; "C"] "equal"
     = Ok [mkSplit "A" 3.34; mkSplit "B" 3.33; mkSplit "C" 3.33]
  /\ computeSplits no_inputs 10.04 ["A"; "B"] "equal"
     = Ok [mkSplit "A" 5.03; mkSplit "B" 5.01]
  /\ 10.04 / JS.of_nat 2 = 5.02
  /\ JS.toFixed2 5.02 = 5.02
  /\ 10.04 - 5.02 * JS.of_nat 2 = 0
  /\ 5.02 * 100 = 501.99999999999994
  /\ JS.Math_floor (5.02 * 100) / 100 = 5.01
  /\ computeSplits (mkInputs (fun _ => 0) (fun _ => 50) (fun _ => 0)) 10.04 ["A"; "B"]
       "percent"
     = Ok [mkSplit "A" 5.02; mkSplit "B" 5.02]
  /\ computeSplits (mkInputs (fun _ => 0) (fun _ => 0) (fun _ => 1)) 10.04 ["A"; "B"]
       "shares"
     = Ok [mkSplit "A" 5.02; mkSplit "B" 5.02]
  /\ computeSplits no_inputs 0.58 ["A"; "B"] "equal"
     = Ok [mkSplit "A" 0.3; mkSplit "B" 0.28].
Proof.
  split; [exact computeSplits_equal|].
  split; [intros; now apply floor_of_share_truncates|].
  repeat split; vm_compute; reflexivity.
Qed.

Lemma equal_mode_uneven_shares_witness :
  (0 <? 10.04) = true
  /\ JS.Math_floor ((10.04 / JS.of_nat (List.length ["A"; "B"])) * 100)
     = truncate_toward_zero ((10.04 / JS.of_nat (List.length ["A"; "B"])) * 100).
Proof.
  split; [reflexivity|].
  apply (proj1 (proj2 equal_mode_uneven_shares) 10.04 ["A"; "B"]). reflexivity.
Defined.

(** C9, as stated, fails: with no participant the equal mode returns a
    success with no split, and no error. *)
Lemma computeSplits_no_participant_succeeds :
  computeSplits no_inputs 10 [] "equal" = Ok []
  /\ forall e, computeSplits no_inputs 10 [] "equal" <> Err e.
Proof.
  split; [reflexivity | intros e; discriminate].
Qed.

(** C9, amended.  The empty selection is refused by the form handler, which
    writes "Select at least one participant." and returns before it calls
    [computeSplits]; [computeSplits] has no error of its own for it: on an
    empty list the equal mode succeeds with no split, and the percent and
    shares modes fail with their own errors. *)
Theorem empty_participants_refused_by_form :
  (forall f,
      form_description f <> "" ->
      (0 <? form_amount f) = true ->
      form_date f <> "" ->
      form_payerId f <> "" ->
      form_participantIds f = [] ->
      upsertExpenseFromForm f
      = FieldError "#expense-participants-error" "Select at least one participant.")
  /\ (forall f, form_participantIds f = [] ->
        exists selector message, upsertExpenseFromForm f = FieldError selector message)
  /\ (forall dom totalAmount, computeSplits dom totalAmount [] "equal" = Ok [])
  /\ (forall dom totalAmount,
        computeSplits dom totalAmount [] "percent" = Err (PercentOutOfRange 0))
  /\ (forall dom totalAmount, computeSplits dom totalAmount [] "shares" = Err ZeroShares).
Proof.
  split; [|split; [|split; [|split]]].
  - intros f Hd Ha Hdate Hp Hn. unfold upsertExpenseFromForm.
    apply String.eqb_neq in Hd, Hdate, Hp. rewrite Hd, Ha, Hdate, Hp, Hn. reflexivity.
  - intros f Hn. unfold upsertExpenseFromForm. rewrite Hn.
    destruct (String.eqb (form_description f) ""); [now eexists; eexists|].
    destruct (negb (0 <? form_amount f)); [now eexists; eexists|].
    destruct (String.eqb (form_date f) ""); [now eexists; eexists|].
    destruct (String.eqb (form_payerId f) ""); now eexists; eexists.
  - reflexivity.
  - reflexivity.
  - reflexivity.
Qed.

Lemma empty_participants_refused_by_form_witness :
  upsertExpenseFromForm
    (mkForm "Dinner" 10 "2024-01-01" "A" "" "Food" "" "equal" [] no_inputs)
  = FieldError "#expense-participants-error" "Select at least one participant.".
Proof.
  apply (proj1 empty_participants_refused_by_form);
    simpl; try discriminate; reflexivity.
Defined.


(* ================================================================== *)
(** ** calculateSimplifiedDebts: the loop ends and walks the two lists *)

(** What a turn that stays in the loop has done. *)
Lemma loop_body_Some (st st' : LoopState) :
  loop_body st = Some st' ->
  exists debtor creditor,
    nth_error (debtors st) (i st) = Some debtor
    /\ nth_error (creditors st) (j st) = Some creditor
    /\ (0.01 <? JS.Math_min (party_amount debtor) (party_amount creditor)) = true
    /\ st' =
       let pay := JS.Math_min (party_amount debtor) (party_amount creditor) in
       {| debtors :=
            JS.update (i st) (mkParty (party_id debtor) (party_amount debtor - pay))
              (debtors st);
          creditors :=
            JS.update (j st) (mkParty (party_id creditor) (party_amount creditor - pay))
              (creditors st);
          i := if party_amount debtor - pay <=? 0.01 then S (i st) else i st;
          j := if party_amount creditor - pay <=? 0.01 then S (j st) else j st;
          settlements :=
            settlements st ++ [mkSettlement (party_id debtor) (party_id creditor) pay] |}.
Proof.
  unfold loop_body.
  destruct (nth_error (debtors st) (i st)) as [debtor|]; [|discriminate].
  destruct (nth_error (creditors st) (j st)) as [creditor|]; [|discriminate].
  destruct (0.01 <? _) eqn:E; [|discriminate].
  intros [= <-]. exists debtor, creditor. repeat split; auto.
Qed.

(** A turn moves a pointer, or the next turn leaves the loop: a turn moves
    neither pointer only when both remaining amounts have become [NaN]. *)
Lemma loop_body_progress (st st' : LoopState) :
  loop_body st = Some st' ->
  (remaining_turns st' < remaining_turns st)%nat \/ loop_body st' = None.
Proof.
  intros H. destruct (loop_body_Some st st' H) as [d [c [Hd [Hc [Hpay ->]]]]].
  assert (Hi : (i st < List.length (debtors st))%nat)
    by (apply nth_error_Some; congruence).
  assert (Hj : (j st < List.length (creditors st))%nat)
    by (apply nth_error_Some; congruence).
  cbv zeta. unfold remaining_turns; simpl. rewrite !length_update.
  set (pay := JS.Math_min (party_amount d) (party_amount c)) in *.
  destruct (party_amount d - pay <=? 0.01) eqn:Ed;
    destruct (party_amount c - pay <=? 0.01) eqn:Ec; try (left; lia).
  right. unfold loop_body; simpl.
  rewrite (nth_error_update_same _ _ _ _ Hd), (nth_error_update_same _ _ _ _ Hc). simpl.
  fold pay.
  assert (Hnan : party_amount d - pay = nan \/ party_amount c - pay = nan).
  { destruct (pay_is_one_of _ _ Hpay) as [E|E]; fold pay in E; rewrite E in *.
    - left. destruct (sub_diag (party_amount d)) as [Z|Z]; [|exact Z].
      rewrite Z in Ed. discriminate.
    - right. destruct (sub_diag (party_amount c)) as [Z|Z]; [|exact Z].
      rewrite Z in Ec. discriminate. }
  destruct Hnan as [-> | ->]; [rewrite Math_min_nan_l | rewrite Math_min_nan_r]; reflexivity.
Qed.

Lemma while_loop_terminates (n : nat) :
  forall st, (remaining_turns st <= n)%nat -> exists st', while_loop (n + 2) st = Some st'.
Proof.
  induction n as [|n IH]; intros st Hn.
  - simpl. destruct (loop_body st) as [st1|] eqn:E1; [|now exists st].
    destruct (loop_body_progress _ _ E1) as [Hlt|Hend]; [lia|].
    rewrite Hend. now exists st1.
  - replace (S n + 2)%nat with (S (n + 2)) by lia. simpl.
    destruct (loop_body st) as [st1|] eqn:E1; [|now exists st].
    destruct (loop_body_progress _ _ E1) as [Hlt|Hend].
    + apply IH. lia.
    + replace (n + 2)%nat with (S (n + 1)) by lia. simpl. rewrite Hend. now exists st1.
Qed.

(** The loop ends within the turns it is given. *)
Lemma simplify_terminates (netBalances : JS.object) :
  exists st,
    while_loop (loop_fuel (initial_loop netBalances)) (initial_loop netBalances) = Some st
    /\ calculateSimplifiedDebts netBalances = Some (settlements st).
Proof.
  unfold calculateSimplifiedDebts.
  destruct (while_loop_terminates
              (List.length (debtors (initial_loop netBalances))
               + List.length (creditors (initial_loop netBalances)))
              (initial_loop netBalances)) as [st Hst].
  - unfold remaining_turns. lia.
  - exists st. unfold loop_fuel. rewrite Hst. split; reflexivity.
Qed.

(** The loop with its two pointers emits the transfers of the walk
    described in the specification over the entries the pointers have
    before them. *)
Lemma while_loop_walk (fuel : nat) :
  forall st st',
    while_loop fuel st = Some st' ->
    exists ts,
      settlements st' = settlements st ++ ts
      /\ Walk (skipn (i st) (debtors st)) (skipn (j st) (creditors st)) ts.
Proof.
  induction fuel as [|fuel IH]; intros st st' H; simpl in H; [discriminate|].
  destruct (loop_body st) as [st1|] eqn:E1.
  - destruct (IH _ _ H) as [ts [Hts Hwalk]].
    destruct (loop_body_Some _ _ E1) as [d [c [Hd [Hc [Hpay ->]]]]].
    cbv zeta in *. simpl in *.
    set (pay := JS.Math_min (party_amount d) (party_amount c)) in *.
    exists (mkSettlement (party_id d) (party_id c) pay :: ts).
    split; [rewrite Hts, <- app_assoc; reflexivity|].
    rewrite (skipn_nth_error _ _ _ Hd), (skipn_nth_error _ _ _ Hc).
    apply Walk_transfer; [reflexivity | exact Hpay |].
    unfold advance.
    destruct (party_amount d - pay <=? 0.01);
      destruct (party_amount c - pay <=? 0.01);
      rewrite ?skipn_update_after, ?(skipn_update_same _ _ _ _ Hd),
        ?(skipn_update_same _ _ _ _ Hc) in Hwalk; exact Hwalk.
  - injection H as <-. exists []. split; [now rewrite app_nil_r|].
    unfold loop_body in E1.
    destruct (nth_error (debtors st) (i st)) as [d|] eqn:Hd.
    + destruct (nth_error (creditors st) (j st)) as [c|] eqn:Hc.
      * rewrite (skipn_nth_error _ _ _ Hd), (skipn_nth_error _ _ _ Hc).
        apply Walk_negligible.
        destruct (0.01 <? _); [discriminate | reflexivity].
      * rewrite (skipn_nth_error_None _ _ Hc). apply Walk_creditors_exhausted.
    + rewrite (skipn_nth_error_None _ _ Hd). apply Walk_debtors_exhausted.
Qed.

(** [calculateSimplifiedDebts] returns, and what it returns is the walk
    over the two sorted lists. *)
Lemma simplify_walk (netBalances : JS.object) :
  exists ts,
    calculateSimplifiedDebts netBalances = Some ts
    /\ Walk (JS.sort by_amount_desc (snd (partition_balances netBalances)))
         (JS.sort by_amount_desc (fst (partition_balances netBalances))) ts.
Proof.
  destruct (simplify_terminates netBalances) as [st [Hloop Hres]].
  exists (settlements st). split; [exact Hres|].
  destruct (while_loop_walk _ _ _ Hloop) as [ts [Hts Hwalk]].
  unfold initial_loop, JS.entries in Hts, Hwalk.
  destruct (partition_balances netBalances) as [creditors debtors].
  simpl in *. now rewrite Hts.
Qed.

(* ================================================================== *)
(** ** calculateSimplifiedDebts: creditors, debtors and transfers *)

(** The first loop makes the creditors and debtors of the specification. *)
Lemma partition_balances_spec (balances : JS.object) :
  partition_balances (JS.entries balances) = (spec_creditors balances, spec_debtors balances).
Proof.
  unfold JS.entries, spec_creditors, spec_debtors.
  induction balances as [|[pid b] es IH]; simpl; [reflexivity|].
  rewrite IH. destruct (0.01 <? b) eqn:E.
  - now rewrite (above_not_below b E).
  - destruct (b <? -0.01); reflexivity.
Qed.

Lemma spec_creditors_ids (balances : JS.object) :
  map party_id (spec_creditors balances)
  = map fst (filter (fun kv => 0.01 <? snd kv) balances).
Proof. unfold spec_creditors. rewrite map_map. reflexivity. Qed.

Lemma spec_debtors_ids (balances : JS.object) :
  map party_id (spec_debtors balances)
  = map fst (filter (fun kv => snd kv <? -0.01) balances).
Proof. unfold spec_debtors. rewrite map_map. reflexivity. Qed.

(** With distinct keys, nobody is both a creditor and a debtor. *)
Lemma creditor_not_debtor (balances : JS.object) (who : string) :
  NoDup (map fst balances) ->
  In who (map party_id (spec_debtors balances)) ->
  In who (map party_id (spec_creditors balances)) -> False.
Proof.
  rewrite spec_debtors_ids, spec_creditors_ids.
  induction balances as [|[k b] es IH]; simpl; intros Hnd Hd Hc; [exact Hd|].
  inversion Hnd as [|? ? Hnotin Hrest]; subst.
  assert (Hsub : forall f, In who (map fst (filter f es)) -> In who (map fst es)).
  { intros f Hin. apply in_map_iff in Hin. destruct Hin as [kv [E Hin]].
    apply filter_In in Hin. apply in_map_iff. exists kv. tauto. }
  destruct (b <? -0.01) eqn:Eb; destruct (0.01 <? b) eqn:Ea; simpl in *.
  - rewrite (above_not_below b Ea) in Eb. discriminate.
  - destruct Hd as [<-|Hd]; [apply Hnotin; eauto | now apply IH].
  - destruct Hc as [<-|Hc]; [apply Hnotin; eauto | now apply IH].
  - now apply IH.
Qed.

Lemma spec_creditors_above (balances : JS.object) :
  Forall (fun p => (0.01 <? party_amount p) = true) (spec_creditors balances).
Proof.
  unfold spec_creditors. apply Forall_forall. intros p Hp.
  apply in_map_iff in Hp. destruct Hp as [kv [<- Hin]].
  apply filter_In in Hin. tauto.
Qed.

Lemma spec_debtors_above (balances : JS.object) :
  Forall (fun p => (0.01 <? party_amount p) = true) (spec_debtors balances).
Proof.
  unfold spec_debtors. apply Forall_forall. intros p Hp.
  apply in_map_iff in Hp. destruct Hp as [kv [<- Hin]].
  apply filter_In in Hin. simpl. apply below_opp_above. tauto.
Qed.

Lemma above_all_positive (l : list Party) :
  Forall (fun p => (0.01 <? party_amount p) = true) l ->
  Forall (fun p => (0 <? party_amount p) = true) l.
Proof.
  apply Forall_impl. intros p. apply above_positive.
Qed.


Lemma advance_ids (p : Party) (remaining : float) (rest : list Party) :
  incl (map party_id (advance p remaining rest)) (map party_id (p :: rest)).
Proof.
  unfold advance. destruct (remaining <=? 0.01); simpl.
  - apply incl_tl, incl_refl.
  - apply incl_refl.
Qed.

(** Every transfer of a walk is above 0.01, from one of the debtors and to
    one of the creditors. *)
Lemma Walk_transfers (ds cs : list Party) (ts : list Settlement) :
  Walk ds cs ts ->
  Forall (fun t => (0.01 <? pay_amount t) = true
                   /\ In (fromId t) (map party_id ds)
                   /\ In (toId t) (map party_id cs)) ts.
Proof.
  induction 1 as [cs|ds|d ds c cs Hstop|d ds c cs pay ts Hpay Habove Hwalk IH];
    try constructor.
  - simpl. auto.
  - eapply Forall_impl; [|exact IH]. simpl.
    intros t [Ht [Hfrom Hto]]. split; [exact Ht|].
    split; [exact (advance_ids _ _ _ _ Hfrom) | exact (advance_ids _ _ _ _ Hto)].
Qed.

(** A walk emits one list of transfers only. *)
Lemma Walk_deterministic (ds cs : list Party) (ts ts' : list Settlement) :
  Walk ds cs ts -> Walk ds cs ts' -> ts = ts'.
Proof.
  intros H. revert ts'.
  induction H as [cs|ds|d ds c cs Hstop|d ds c cs pay ts Hpay Habove Hwalk IH];
    intros ts' H'; inversion H'; subst; try reflexivity; try congruence.
  f_equal. now apply IH.
Qed.

(** C10.  Every suggested transfer has an amount above 0.01 and goes from
    one person to another one: its payer is a debtor and its receiver a
    creditor of the balance map, and no balance is both above 0.01 and below
    -0.01. *)
Theorem transfers_above_cent_between_distinct (netBalances : JS.object) :
  NoDup (map fst netBalances) ->
  (forall b, (0.01 <? b) = true -> (b <? -0.01) = false)
  /\ exists ts,
      calculateSimplifiedDebts netBalances = Some ts
      /\ Forall (fun t => (0.01 <? pay_amount t) = true /\ fromId t <> toId t) ts.
Proof.
  intros Hnd. split; [exact above_not_below|].
  destruct (simplify_walk netBalances) as [ts [Hres Hwalk]].
  exists ts. split; [exact Hres|].
  pose proof (partition_balances_spec netBalances) as Hp. unfold JS.entries in Hp.
  rewrite Hp in Hwalk. simpl in Hwalk.
  eapply Forall_impl; [|exact (Walk_transfers _ _ _ Hwalk)]. simpl.
  intros t [Ht [Hfrom Hto]]. split; [exact Ht|].
  intros E. rewrite <- E in Hto.
  apply (creditor_not_debtor netBalances (fromId t) Hnd).
  - eapply Permutation_in; [|exact Hfrom]. apply Permutation_map, sort_perm.
  - eapply Permutation_in; [|exact Hto]. apply Permutation_map, sort_perm.
Qed.

Lemma transfers_above_cent_between_distinct_witness :
  exists ts,
    calculateSimplifiedDebts [("A", 50); ("B", -30); ("C", -20)] = Some ts
    /\ Forall (fun t => (0.01 <? pay_amount t) = true /\ fromId t <> toId t) ts.
Proof.
  apply (transfers_above_cent_between_distinct [("A", 50); ("B", -30); ("C", -20)]).
  repeat constructor; simpl; intuition discriminate.
Defined.

(** *** The amount of a transfer *)

Lemma Math_min_above (x y : float) :
  (0.01 <? x) = true -> (0.01 <? y) = true -> (0.01 <? JS.Math_min x y) = true.
Proof.
  intros Hx Hy. unfold JS.Math_min.
  rewrite (ltb_right_not_nan _ _ Hx), (ltb_right_not_nan _ _ Hy). simpl.
  destruct (x <? y); [exact Hx|].
  destruct (y <? x); [exact Hy|].
  destruct (get_sign x); assumption.
Qed.

Lemma leb_refl (x : float) : is_nan x = false -> (x <=? x) = true.
Proof.
  rewrite is_nan_false, leb_spec. intros H. unfold SFleb.
  now rewrite (SFcompare_refl _ H).
Qed.

(** [Math.min] of two amounts, when it is above 0.01, is the smaller of
    the two. *)
Lemma Math_min_smaller (x y : float) :
  (0.01 <? JS.Math_min x y) = true -> smaller_of x y (JS.Math_min x y).
Proof.
  intros H. destruct (Math_min_not_nan x y H) as [Nx Ny].
  unfold smaller_of, JS.Math_min in *. rewrite Nx, Ny in *. cbn [orb] in *.
  destruct (x <? y) eqn:Lxy.
  - split; [now left|]. split; [now apply leb_refl | now apply ltb_leb].
  - pose proof (ltb_false_leb x y Nx Ny Lxy) as Gyx.
    destruct (y <? x) eqn:Lyx.
    + split; [now right|]. split; [exact Gyx | now apply leb_refl].
    + pose proof (ltb_false_leb y x Ny Nx Lyx) as Gxy.
      destruct (get_sign x).
      * split; [now left|]. split; [now apply leb_refl | exact Gxy].
      * split; [now right|]. split; [exact Gyx | now apply leb_refl].
Qed.

Lemma Math_min_negligible (x y : float) :
  (0.01 <? JS.Math_min x y) = false -> (0.01 <? x) = false \/ (0.01 <? y) = false.
Proof.
  intros H. destruct (0.01 <? x) eqn:Ex; [|now left].
  destruct (0.01 <? y) eqn:Ey; [|now right].
  rewrite (Math_min_above x y Ex Ey) in H. discriminate.
Qed.

(** The walk the loop makes is the walk of the specification, each amount
    being the smaller of the two remaining amounts. *)
Lemma Walk_greedy (ds cs : list Party) (ts : list Settlement) :
  Walk ds cs ts -> GreedyWalk ds cs ts.
Proof.
  induction 1 as [cs|ds|d ds c cs Hn|d ds c cs pay ts Hpay Habove W IH].
  - constructor.
  - constructor.
  - apply Greedy_negligible. now apply Math_min_negligible.
  - apply Greedy_transfer; [|exact Habove|exact IH].
    subst pay. now apply Math_min_smaller.
Qed.

Lemma above_leb_trans (pay x : float) :
  (0.01 <? pay) = true -> (pay <=? x) = true -> (0.01 <? x) = true.
Proof.
  rewrite !ltb_spec, leb_spec. unfold SFltb, SFleb.
  change (Prim2SF 0.01) with (S754_finite false 5764607523034235 (-59)).
  generalize 5764607523034235%positive (-59)%Z. intros mc ec.
  destruct (Prim2SF pay) as [[]|[]| |[] m e], (Prim2SF x) as [[]|[]| |[] m' e'];
    cbn [SFcompare]; try congruence.
  change (Pos.compare_cont Eq mc m) with (Pos.compare mc m).
  change (Pos.compare_cont Eq m m') with (Pos.compare m m').
  change (Pos.compare_cont Eq mc m') with (Pos.compare mc m').
  destruct (Z.compare_spec ec e), (Z.compare_spec e e'), (Z.compare_spec ec e');
    try congruence; try lia;
    destruct (Pos.compare_spec mc m), (Pos.compare_spec m m'), (Pos.compare_spec mc m');
    try congruence; lia.
Qed.

Lemma leb_antisym_above (x y : float) :
  (x <=? y) = true -> (y <=? x) = true -> (0.01 <? x) = true -> x = y.
Proof.
  rewrite ltb_spec, !leb_spec. unfold SFltb, SFleb. intros H1 H2 H3.
  apply Prim2SF_inj. revert H1 H2 H3.
  change (Prim2SF 0.01) with (S754_finite false 5764607523034235 (-59)).
  generalize 5764607523034235%positive (-59)%Z. intros mc ec.
  destruct (Prim2SF x) as [[]|[]| |[] m e], (Prim2SF y) as [[]|[]| |[] m' e'];
    cbn [SFcompare]; try congruence.
  change (Pos.compare_cont Eq m m') with (Pos.compare m m').
  change (Pos.compare_cont Eq m' m) with (Pos.compare m' m).
  destruct (Z.compare_spec e e'), (Z.compare_spec e' e); try congruence; try lia.
  destruct (Pos.compare_spec m m'), (Pos.compare_spec m' m); try congruence; try lia.
Qed.

(** Two amounts above 0.01 have one smaller amount only. *)
Lemma smaller_of_unique (x y pay pay' : float) :
  smaller_of x y pay -> smaller_of x y pay' -> (0.01 <? pay) = true -> pay = pay'.
Proof.
  intros (E & Lx & Ly) (E' & Lx' & Ly') H.
  destruct E as [->| ->], E' as [->| ->]; try reflexivity.
  - now apply leb_antisym_above.
  - now apply leb_antisym_above.
Qed.

(** The walk of the specification has one list of transfers only. *)
Lemma GreedyWalk_deterministic (ds cs : list Party) (ts ts' : list Settlement) :
  GreedyWalk ds cs ts -> GreedyWalk ds cs ts' -> ts = ts'.
Proof.
  intros H. revert ts'.
  induction H as [cs|ds|d ds c cs Hn|d ds c cs pay ts Hpay Habove W IH];
    intros ts' H'; inversion H' as [| |? ? ? ? Hn'|? ? ? ? pay' ? Hpay' Habove' W'];
    subst; try reflexivity.
  - exfalso. destruct Hpay' as (_ & Ld & Lc).
    destruct Hn as [Hn|Hn];
      [rewrite (above_leb_trans _ _ Habove' Ld) in Hn
      |rewrite (above_leb_trans _ _ Habove' Lc) in Hn]; discriminate.
  - exfalso. destruct Hpay as (_ & Ld & Lc).
    destruct Hn' as [Hn|Hn];
      [rewrite (above_leb_trans _ _ Habove Ld) in Hn
      |rewrite (above_leb_trans _ _ Habove Lc) in Hn]; discriminate.
  - assert (pay = pay') by (eapply smaller_of_unique; eassumption). subst pay'.
    f_equal. now apply IH.
Qed.

(** C8.  The simplifier keeps the ids with a balance above 0.01 as
    creditors and those with a balance below -0.01 as debtors, each with its
    magnitude; it sorts each list in descending order of magnitude; and it
    always returns, with the transfers of the walk of the specification
    over the two sorted lists, which has no other list of transfers: the
    first debtor pays the first creditor the smaller of the two remaining
    amounts (one of the two, and above neither), and whoever has at most
    0.01 left is passed.  For A +50, B -30, C -20 it returns B to A 30, then
    C to A 20. *)
Theorem simplifier_greedy_walk :
  (forall netBalances,
      partition_balances (JS.entries netBalances)
      = (spec_creditors netBalances, spec_debtors netBalances))
  /\ (forall netBalances,
        let ds := JS.sort by_amount_desc (spec_debtors netBalances) in
        let cs := JS.sort by_amount_desc (spec_creditors netBalances) in
        Permutation ds (spec_debtors netBalances) /\ descending ds
        /\ Permutation cs (spec_creditors netBalances) /\ descending cs
        /\ exists ts,
            calculateSimplifiedDebts netBalances = Some ts
            /\ GreedyWalk ds cs ts
            /\ forall ts', GreedyWalk ds cs ts' -> ts' = ts)
  /\ calculateSimplifiedDebts [("A", 50); ("B", -30); ("C", -20)]
     = Some [mkSettlement "B" "A" 30; mkSettlement "C" "A" 20].
Proof.
  split; [exact partition_balances_spec|]. split; [|vm_compute; reflexivity].
  intros netBalances ds cs.
  split; [apply sort_perm|].
  split; [apply sort_descending, above_all_positive, spec_debtors_above|].
  split; [apply sort_perm|].
  split; [apply sort_descending, above_all_positive, spec_creditors_above|].
  destruct (simplify_walk netBalances) as [ts [Hres Hwalk]].
  exists ts. split; [exact Hres|].
  pose proof (partition_balances_spec netBalances) as Hp. unfold JS.entries in Hp.
  rewrite Hp in Hwalk. cbn [fst snd] in Hwalk. apply Walk_greedy in Hwalk.
  split; [exact Hwalk|].
  intros ts' H'. symmetry. now apply (GreedyWalk_deterministic ds cs).
Qed.

(* ================================================================== *)
(** ** calculateSimplifiedDebts: paying the transfers *)









(** Two infinite balances of opposite sign leave [NaN] on both sides. *)
Lemma infinite_balances_leave_nan :
  calculateSimplifiedDebts [("A", infinity); ("B", neg_infinity)]
  = Some [mkSettlement "B" "A" infinity]
  /\ pay_all [mkSettlement "B" "A" infinity]
       (spec_debtors [("A", infinity); ("B", neg_infinity)],
        spec_creditors [("A", infinity); ("B", neg_infinity)])
     = ([mkParty "B" nan], [mkParty "A" nan]).
Proof. split; vm_compute; reflexivity. Qed.



(* ================================================================== *)
(** ** Binary64: the real number a value stands for *)

Local Open Scope R_scope.

Lemma bpow_pos (e : Z) : 0 < bpow e.
Proof. apply powerRZ_lt. lra. Qed.

Lemma bpow_add (a b : Z) : bpow (a + b) = bpow a * bpow b.
Proof. apply powerRZ_add. lra. Qed.

Lemma bpow_IZR (e : Z) : (0 <= e)%Z -> bpow e = IZR (2 ^ e).
Proof.
  intros H. unfold bpow. rewrite <- (Z2Nat.id e H) at 1.
  rewrite <- pow_powerRZ, pow_IZR, Z2Nat.id by exact H. reflexivity.
Qed.

Lemma bpow_le (a b : Z) : (a <= b)%Z -> bpow a <= bpow b.
Proof.
  intros H. replace b with (a + (b - a))%Z by lia. rewrite bpow_add.
  rewrite (bpow_IZR (b - a)) by lia.
  assert (1 <= IZR (2 ^ (b - a))).
  { apply IZR_le. assert (0 < 2 ^ (b - a))%Z by (apply Z.pow_pos_nonneg; lia). lia. }
  pose proof (bpow_pos a). nra.
Qed.

Lemma bpow_succ (e : Z) : bpow (e + 1) = 2 * bpow e.
Proof. rewrite bpow_add. change (bpow 1) with (2 * 1). lra. Qed.

Lemma shiftr_bounds (X n : Z) : (0 <= X)%Z -> (0 <= n)%Z ->
  IZR (Z.shiftr X n) * bpow n <= IZR X < IZR (Z.shiftr X n + 1) * bpow n.
Proof.
  intros HX Hn. rewrite bpow_IZR, <- !mult_IZR by exact Hn.
  rewrite Z.shiftr_div_pow2 by exact Hn.
  assert (P : (0 < 2 ^ n)%Z) by (apply Z.pow_pos_nonneg; lia).
  pose proof (Z.mul_div_le X (2 ^ n) P).
  pose proof (Z.mul_succ_div_gt X (2 ^ n) P).
  split; [apply IZR_le|apply IZR_lt]; lia.
Qed.

Lemma loc_of_shr_record_of_loc (m : Z) (l : location) :
  loc_of_shr_record (shr_record_of_loc m l) = l.
Proof. destruct l as [|[]]; reflexivity. Qed.

Lemma shr_fexp_spec (p : positive) (e : Z) (l : location) :
  let n := Z.max 0 (fexp prec emax (Zpos (digits2_pos p) + e) - e) in
  shr_m (fst (shr_fexp prec emax (Zpos p) e l)) = Z.shiftr (Zpos p) n
  /\ snd (shr_fexp prec emax (Zpos p) e l) = (e + n)%Z
  /\ (n = 0%Z -> loc_of_shr_record (fst (shr_fexp prec emax (Zpos p) e l)) = l).
Proof.
  intros n. unfold shr_fexp, shr. cbn [Zdigits2]. subst n.
  destruct (fexp prec emax (Zpos (digits2_pos p) + e) - e)%Z as [|q|q] eqn:E; cbn [fst snd].
  - rewrite Z.max_id, shr_m_of_loc, loc_of_shr_record_of_loc, Z.shiftr_0_r, Z.add_0_r. auto.
  - rewrite Z.max_r by lia. rewrite iter_shr_1_m by (rewrite shr_m_of_loc; lia).
    rewrite shr_m_of_loc. repeat split; lia.
  - rewrite Z.max_l by lia.
    rewrite shr_m_of_loc, loc_of_shr_record_of_loc, Z.shiftr_0_r, Z.add_0_r. auto.
Qed.

Lemma shiftr_digits_bounds (p : positive) (n : Z) :
  (0 <= n < Zpos (digits2_pos p))%Z ->
  (2 ^ (Zpos (digits2_pos p) - n - 1) <= Z.shiftr (Zpos p) n < 2 ^ (Zpos (digits2_pos p) - n))%Z.
Proof.
  intros Hn. destruct (digits2_pos_bounds p) as [L U].
  set (d := Zpos (digits2_pos p)) in *.
  rewrite Z.shiftr_div_pow2 by lia.
  assert (P : (0 < 2 ^ n)%Z) by (apply Z.pow_pos_nonneg; lia).
  split.
  - apply Z.div_le_lower_bound; [exact P|].
    rewrite <- Z.pow_add_r by lia. replace (n + (d - n - 1))%Z with (d - 1)%Z by lia. exact L.
  - apply Z.div_lt_upper_bound; [exact P|].
    rewrite <- Z.pow_add_r by lia. replace (n + (d - n))%Z with d by lia. exact U.
Qed.

Lemma fexp_eq (k : Z) : fexp prec emax k = Z.max (k - 53) (-1074).
Proof. reflexivity. Qed.

(* ================================================================== *)
(** ** Binary64: the error of one rounding *)

Lemma shiftr_floor (X n : Z) : (0 <= X)%Z -> (0 <= n)%Z ->
  (Z.shiftr X n * 2 ^ n <= X < (Z.shiftr X n + 1) * 2 ^ n)%Z.
Proof.
  intros HX Hn. rewrite Z.shiftr_div_pow2 by exact Hn.
  assert (P : (0 < 2 ^ n)%Z) by (apply Z.pow_pos_nonneg; lia).
  pose proof (Z.mul_div_le X (2 ^ n) P).
  pose proof (Z.mul_succ_div_gt X (2 ^ n) P). lia.
Qed.

(** Rounding a positive real [x] that lies between [p * 2^e] and
    [(p + 1) * 2^e], from the mantissa [p] and the location of [x] between
    the two: the result is finite with sign bit clear, or [+Infinity]; a
    finite result is within [2^-51 * x] of [x].  Either nothing is cut off
    ([l] exact), or the mantissa has 53 digits or more; and the value is not
    below the normal range. *)
Lemma binary_round_aux_error (p : positive) (e : Z) (l : location) (x : R) :
  (l = loc_Exact \/ (53 <= Zpos (digits2_pos p))%Z) ->
  ((-1074 <= e)%Z \/ (-1021 <= Zpos (digits2_pos p) + e)%Z) ->
  IZR (Zpos p) * bpow e <= x < IZR (Zpos p + 1) * bpow e ->
  (l = loc_Exact -> x = IZR (Zpos p) * bpow e) ->
  match binary_round_aux prec emax false (Zpos p) e l with
  | S754_finite false m' e' => Rabs (IZR (Zpos m') * bpow e' - x) <= bpow (-51) * x
  | S754_infinity false => True
  | _ => False
  end.
Proof.
  intros Hl He Hx Hexact.
  destruct (digits2_pos_bounds p) as [Lp Up].
  unfold binary_round_aux.
  destruct (shr_fexp_spec p e l) as (M1 & E1 & L1).
  rewrite fexp_eq in M1, E1, L1.
  set (d := Zpos (digits2_pos p)) in *.
  assert (Hd : (1 <= d)%Z) by (unfold d; lia).
  set (n := Z.max 0 (Z.max (d + e - 53) (-1074) - e)) in *.
  destruct (shr_fexp prec emax (Zpos p) e l) as [mrs' e_a]. cbn [fst snd] in M1, E1, L1.
  assert (Hn : (0 <= n)%Z) by lia.
  assert (Hnd : (n < d)%Z) by lia.
  pose proof (shiftr_digits_bounds p n (conj Hn Hnd)) as [La Ua]. fold d in La, Ua.
  pose proof (shiftr_floor (Zpos p) n ltac:(lia) Hn) as [Fl Fu].
  rewrite <- M1 in La, Ua, Fl, Fu.
  set (m_a := shr_m mrs') in *.
  assert (Ua' : (m_a < 2 ^ 53)%Z).
  { eapply Z.lt_le_trans; [exact Ua|]. apply Z.pow_le_mono_r; lia. }
  assert (Pa : (0 < m_a)%Z).
  { eapply Z.lt_le_trans; [|exact La]. apply Z.pow_pos_nonneg; lia. }
  assert (Ea : (-1074 <= e_a)%Z) by lia.
  pose proof (round_nearest_even_ge m_a (loc_of_shr_record mrs')) as R1.
  pose proof (round_nearest_even_le m_a (loc_of_shr_record mrs')) as R2.
  assert (R3 : n = 0%Z -> l = loc_Exact ->
               round_nearest_even m_a (loc_of_shr_record mrs') = m_a).
  { intros N Lx. rewrite (L1 N), Lx. reflexivity. }
  destruct (round_nearest_even m_a (loc_of_shr_record mrs')) as [|q|q] eqn:Em1; try lia.
  destruct (shr_fexp_spec q e_a loc_Exact) as (M2 & E2 & _).
  rewrite fexp_eq in M2, E2.
  pose proof (shr_fexp_pos (Zpos q) e_a loc_Exact ltac:(lia) Ea) as [P2 _].
  assert (Dq : (Zpos (digits2_pos q) <= 54)%Z).
  { apply digits_le; [lia|]. change (2 ^ 54)%Z with (2 * 2 ^ 53)%Z. lia. }
  set (n2 := Z.max 0 (Z.max (Zpos (digits2_pos q) + e_a - 53) (-1074) - e_a)) in *.
  assert (Hn2 : (n2 = 0 \/ n2 = 1)%Z) by lia.
  pose proof (shiftr_floor (Zpos q) n2 ltac:(lia) ltac:(lia)) as [Fl2 Fu2].
  destruct (shr_fexp prec emax (Zpos q) e_a loc_Exact) as [mrs'' e''].
  cbn [fst snd] in M2, E2, P2.
  rewrite <- M2 in Fl2, Fu2.
  destruct (shr_m mrs'') as [|m2|m2]; try lia.
  destruct (_ <=? _)%Z; [|exact I].
  subst e'' e_a. rewrite !bpow_add.
  rewrite (bpow_IZR n), (bpow_IZR n2) by lia.
  assert (P52 : bpow (-51) = / 2251799813685248).
  { unfold bpow. simpl. lra. }
  rewrite P52. clear P52.
  pose proof (bpow_pos e) as Pe. set (B := bpow e) in *.
  assert (Pn : (0 < 2 ^ n)%Z) by (apply Z.pow_pos_nonneg; lia).
  apply IZR_lt in Pn. apply IZR_le in Fl, Fl2, R1, R2.
  assert (Fu' : (Zpos p + 1 <= (m_a + 1) * 2 ^ n)%Z) by lia.
  apply IZR_le in Fu'.
  assert (Fu2' : (Zpos q + 1 <= (Zpos m2 + 1) * 2 ^ n2)%Z) by lia.
  apply IZR_le in Fu2'.
  rewrite ?mult_IZR, ?plus_IZR in *.
  set (N := IZR (2 ^ n)) in *. set (a := IZR m_a) in *. set (P := IZR (Zpos p)) in *.
  set (Q := IZR (Zpos q)) in *. set (M := IZR (Zpos m2)) in *.
  assert (Main : (2 ^ 52 <= m_a)%Z ->
                 Rabs (M * (B * N * IZR (2 ^ n2)) - x) <= / 2251799813685248 * x).
  { intros Big. apply IZR_le in Big. fold a in Big.
    change (IZR (2 ^ 52)) with 4503599627370496 in Big.
    set (A := B * N). assert (PA : 0 < A) by (unfold A; nra).
    assert (h1 : a * A <= x) by (unfold A; nra).
    assert (h2 : x < (a + 1) * A) by (unfold A; nra).
    assert (h5 : a * A <= Q * A <= a * A + A) by nra.
    assert (h6 : 4503599627370496 * A <= a * A) by nra.
    replace (M * (B * N * IZR (2 ^ n2))) with (M * IZR (2 ^ n2) * A) by (unfold A; ring).
    assert (h3 : M * IZR (2 ^ n2) * A <= Q * A) by nra.
    assert (h4 : Q * A - A <= M * IZR (2 ^ n2) * A).
    { destruct Hn2 as [-> | ->].
      - change (IZR (2 ^ 0)) with 1 in *. nra.
      - change (IZR (2 ^ 1)) with 2 in *. nra. }
    apply Rabs_le. lra. }
  destruct (Z.eq_dec n 0) as [N0|N0].
  - destruct Hl as [Hl|Hl].
    + (* nothing is lost *)
      specialize (R3 N0 Hl). specialize (Hexact Hl).
      assert (m_a = Zpos p) by (rewrite N0 in M1; rewrite Z.shiftr_0_r in M1; exact M1).
      assert (Zpos q = Zpos p) by lia.
      assert (N2 : n2 = 0%Z).
      { unfold n2. replace q with p by lia. fold d. unfold n in N0. lia. }
      rewrite N2 in *. change (IZR (2 ^ 0)) with 1 in *.
      assert (M = P) by (unfold M, P; f_equal; rewrite Z.shiftr_0_r in M2; lia).
      replace (M * (B * N * 1) - x) with 0.
      2:{ rewrite Hexact. unfold N. rewrite N0. change (IZR (2 ^ 0)) with 1. fold P B. nra. }
      rewrite Rabs_R0. apply Rmult_le_pos; [lra|].
      assert (0 < P) by (apply IZR_lt; lia). nra.
    + apply Main. eapply Z.le_trans; [|exact La]. apply Z.pow_le_mono_r; lia.
  - apply Main. eapply Z.le_trans; [|exact La]. apply Z.pow_le_mono_r; lia.
Qed.

Lemma binary_round_aux_opp (m e : Z) (l : location) :
  binary_round_aux prec emax true m e l = SFopp (binary_round_aux prec emax false m e l).
Proof.
  unfold binary_round_aux.
  destruct (shr_fexp prec emax m e l) as [mrs' e'].
  destruct (shr_fexp prec emax _ e' loc_Exact) as [mrs'' e''].
  destruct (shr_m mrs''); try reflexivity.
  destruct (_ <=? _)%Z; reflexivity.
Qed.

Lemma binary_round_opp (p : positive) (e : Z) :
  binary_round prec emax true p e = SFopp (binary_round prec emax false p e).
Proof.
  unfold binary_round. destruct (shl_align _ _ _) as [mz ez]. apply binary_round_aux_opp.
Qed.

Lemma SF2R_opp (x : spec_float) : SF2R (SFopp x) = - SF2R x.
Proof.
  destruct x as [s|s| |s m e]; cbn [SFopp SF2R]; try lra.
  destruct s; cbn [negb cond_Zopp]; rewrite ?opp_IZR; lra.
Qed.

Lemma finite_SF_opp (x : spec_float) : finite_SF (SFopp x) <-> finite_SF x.
Proof. destruct x; simpl; tauto. Qed.

Lemma shl_align_value (m : positive) (e e' : Z) :
  IZR (Zpos (fst (shl_align m e e'))) * bpow (snd (shl_align m e e')) = IZR (Zpos m) * bpow e
  /\ snd (shl_align m e e') = Z.min e e'.
Proof.
  unfold shl_align. destruct (e' - e)%Z as [|d|d] eqn:E; cbn [fst snd]; try (split; [reflexivity|lia]).
  split; [|lia]. rewrite iter_xO, mult_IZR.
  assert (Ee : bpow e = bpow e' * bpow (Zpos d)) by (rewrite <- bpow_add; f_equal; lia).
  rewrite Ee, (bpow_IZR (Zpos d)) by lia. ring.
Qed.

Lemma bpow_m51 : bpow (-51) = / 2251799813685248.
Proof. unfold bpow. simpl. lra. Qed.

(** The same for [binary_round], which first brings the mantissa to the
    exponent of its digits. *)
Lemma binary_round_error (p : positive) (e : Z) :
  (-1074 <= e)%Z ->
  match binary_round prec emax false p e with
  | S754_finite false m' e' =>
      Rabs (IZR (Zpos m') * bpow e' - IZR (Zpos p) * bpow e) <= bpow (-51) * (IZR (Zpos p) * bpow e)
  | S754_infinity false => True
  | _ => False
  end.
Proof.
  intros He. unfold binary_round.
  destruct (shl_align_value p e (fexp prec emax (Zpos (digits2_pos p) + e))) as [V S].
  rewrite fexp_eq in *.
  destruct (shl_align p e _) as [mz ez]. cbn [fst snd] in V, S.
  apply binary_round_aux_error.
  - now left.
  - left. lia.
  - rewrite <- V, plus_IZR. pose proof (bpow_pos ez). nra.
  - intros _. now rewrite V.
Qed.

Lemma binary_normalize_error (X e : Z) :
  (-1074 <= e)%Z ->
  binary_normalize prec emax X e false <> S754_nan
  /\ (finite_SF (binary_normalize prec emax X e false) ->
      Rabs (SF2R (binary_normalize prec emax X e false) - IZR X * bpow e)
      <= bpow (-51) * Rabs (IZR X * bpow e)).
Proof.
  intros He. destruct X as [|p|p]; cbn [binary_normalize].
  - split; [discriminate|]. intros _. cbn [SF2R].
    rewrite Rmult_0_l, Rminus_0_r, Rabs_R0. lra.
  - pose proof (binary_round_error p e He) as H.
    destruct (binary_round prec emax false p e) as [s|s| |s m' e'];
      try destruct s; try contradiction; (split; [discriminate|]); intros F;
      try contradiction.
    cbn [SF2R cond_Zopp].
    assert (0 < IZR (Zpos p) * bpow e).
    { apply Rmult_lt_0_compat; [apply IZR_lt; lia|apply bpow_pos]. }
    rewrite (Rabs_pos_eq (IZR (Zpos p) * bpow e)) by lra. exact H.
  - rewrite binary_round_opp.
    pose proof (binary_round_error p e He) as H.
    destruct (binary_round prec emax false p e) as [s|s| |s m' e'];
      try destruct s; try contradiction; (split; [discriminate|]); intros F;
      try contradiction.
    cbn [SFopp negb SF2R cond_Zopp].
    assert (0 < IZR (Zpos p) * bpow e).
    { apply Rmult_lt_0_compat; [apply IZR_lt; lia|apply bpow_pos]. }
    change (Zneg p) with (- Zpos p)%Z. change (Z.neg m') with (- Zpos m')%Z.
    rewrite !opp_IZR.
    replace (- IZR (Zpos m') * bpow e' - - IZR (Zpos p) * bpow e)
      with (- (IZR (Zpos m') * bpow e' - IZR (Zpos p) * bpow e)) by ring.
    rewrite Rabs_Ropp.
    replace (- IZR (Zpos p) * bpow e) with (- (IZR (Zpos p) * bpow e)) by ring.
    rewrite Rabs_Ropp, (Rabs_pos_eq (IZR (Zpos p) * bpow e)) by lra. exact H.
Qed.

Lemma valid_exponent (s : bool) (m : positive) (e : Z) :
  valid_binary (S754_finite s m e) = true -> (-1074 <= e <= 971)%Z.
Proof.
  intros H. destruct (bounded_inv m e H). lia.
Qed.

Lemma aligned_value (s : bool) (m : positive) (e e' : Z) :
  (e' <= e)%Z ->
  IZR (cond_Zopp s (Zpos (fst (shl_align m e e')))) * bpow e' = SF2R (S754_finite s m e).
Proof.
  intros H. destruct (shl_align_value m e e') as [V S].
  rewrite Z.min_r in S by exact H. rewrite S in V. cbn [SF2R].
  destruct s; cbn [cond_Zopp]; rewrite ?opp_IZR; lra.
Qed.

(** A difference or a sum of finite values is never [NaN]; when it is
    finite, it is within [2^-51] of the exact result, relatively. *)
Lemma SFsub_error (x y : spec_float) :
  valid_binary x = true -> valid_binary y = true ->
  finite_SF x -> finite_SF y ->
  SFsub prec emax x y <> S754_nan
  /\ (finite_SF (SFsub prec emax x y) ->
      Rabs (SF2R (SFsub prec emax x y) - (SF2R x - SF2R y))
      <= bpow (-51) * Rabs (SF2R x - SF2R y)).
Proof.
  intros Vx Vy Fx Fy.
  assert (Z0 : forall r, Rabs (r - r) <= bpow (-51) * Rabs r).
  { intros r. rewrite Rminus_diag, Rabs_R0. rewrite bpow_m51.
    pose proof (Rabs_pos r). lra. }
  destruct x as [sx|sx| |sx mx ex], y as [sy|sy| |sy my ey]; try contradiction.
  - split; [destruct sx, sy; discriminate|]. intros _.
    replace (SF2R (SFsub prec emax (S754_zero sx) (S754_zero sy))) with 0
      by (destruct sx, sy; reflexivity).
    cbn [SF2R]. replace (0 - 0) with 0 by ring. rewrite Rminus_diag, Rabs_R0. lra.
  - cbn [SFsub]. split; [discriminate|]. intros _.
    cbn [SF2R]. destruct sy; cbn [negb cond_Zopp];
      change (Zneg my) with (- Zpos my)%Z; rewrite ?opp_IZR.
    + replace (0 - - IZR (Zpos my) * bpow ey) with (IZR (Zpos my) * bpow ey) by ring. apply Z0.
    + replace (0 - IZR (Zpos my) * bpow ey) with (- IZR (Zpos my) * bpow ey) by ring. apply Z0.
  - cbn [SFsub]. split; [discriminate|]. intros _.
    replace (SF2R (S754_finite sx mx ex) - SF2R (S754_zero sy))
      with (SF2R (S754_finite sx mx ex)) by (cbn [SF2R]; ring).
    apply Z0.
  - cbn [SFsub]. apply valid_exponent in Vx, Vy.
    set (ez := Z.min ex ey).
    pose proof (binary_normalize_error
                  (cond_Zopp sx (Zpos (fst (shl_align mx ex ez)))
                   - cond_Zopp sy (Zpos (fst (shl_align my ey ez)))) ez ltac:(lia)) as H.
    rewrite minus_IZR, Rmult_minus_distr_r in H.
    rewrite !aligned_value in H by lia. exact H.
Qed.

Lemma SFadd_error (x y : spec_float) :
  valid_binary x = true -> valid_binary y = true ->
  finite_SF x -> finite_SF y ->
  SFadd prec emax x y <> S754_nan
  /\ (finite_SF (SFadd prec emax x y) ->
      Rabs (SF2R (SFadd prec emax x y) - (SF2R x + SF2R y))
      <= bpow (-51) * Rabs (SF2R x + SF2R y)).
Proof.
  intros Vx Vy Fx Fy.
  assert (Z0 : forall r, Rabs (r - r) <= bpow (-51) * Rabs r).
  { intros r. rewrite Rminus_diag, Rabs_R0. rewrite bpow_m51.
    pose proof (Rabs_pos r). lra. }
  destruct x as [sx|sx| |sx mx ex], y as [sy|sy| |sy my ey]; try contradiction.
  - split; [destruct sx, sy; discriminate|]. intros _.
    replace (SF2R (SFadd prec emax (S754_zero sx) (S754_zero sy))) with 0
      by (destruct sx, sy; reflexivity).
    cbn [SF2R]. replace (0 + 0) with 0 by ring. rewrite Rminus_diag, Rabs_R0. lra.
  - cbn [SFadd]. split; [discriminate|]. intros _.
    replace (SF2R (S754_zero sx) + SF2R (S754_finite sy my ey))
      with (SF2R (S754_finite sy my ey)) by (cbn [SF2R]; ring).
    apply Z0.
  - cbn [SFadd]. split; [discriminate|]. intros _.
    replace (SF2R (S754_finite sx mx ex) + SF2R (S754_zero sy))
      with (SF2R (S754_finite sx mx ex)) by (cbn [SF2R]; ring).
    apply Z0.
  - cbn [SFadd]. apply valid_exponent in Vx, Vy.
    set (ez := Z.min ex ey).
    pose proof (binary_normalize_error
                  (cond_Zopp sx (Zpos (fst (shl_align mx ex ez)))
                   + cond_Zopp sy (Zpos (fst (shl_align my ey ez)))) ez ltac:(lia)) as H.
    rewrite plus_IZR, Rmult_plus_distr_r in H.
    rewrite !aligned_value in H by lia. exact H.
Qed.

Lemma bpow_lt_inv (a b : Z) : bpow a < bpow b -> (a < b)%Z.
Proof.
  intros H. destruct (Z_lt_le_dec a b) as [L|L]; [exact L|].
  pose proof (bpow_le b a L). lra.
Qed.

Lemma bpow_lt (a b : Z) : (a < b)%Z -> bpow a < bpow b.
Proof.
  intros H. replace b with (a + 1 + (b - a - 1))%Z by lia.
  pose proof (bpow_le (a + 1) (a + 1 + (b - a - 1)) ltac:(lia)).
  rewrite bpow_succ in H0 at 1. pose proof (bpow_pos a). lra.
Qed.

Lemma IZR_bpow_lt (p : positive) (e K : Z) :
  (e <= K)%Z -> IZR (Zpos p) * bpow e < bpow K -> (Zpos p < 2 ^ (K - e))%Z.
Proof.
  intros H L. apply lt_IZR. rewrite <- bpow_IZR by lia.
  replace K with (e + (K - e))%Z in L at 1 by lia. rewrite bpow_add in L.
  pose proof (bpow_pos e). nra.
Qed.

(** No overflow below [2^1023]. *)
Lemma binary_normalize_finite (X e : Z) :
  (-1074 <= e <= 971)%Z -> Rabs (IZR X * bpow e) < bpow 1023 ->
  finite_SF (binary_normalize prec emax X e false).
Proof.
  intros He H.
  assert (V : bounded prec emax 4503599627370496 971 = true) by reflexivity.
  assert (G : forall p, IZR (Zpos p) * bpow e < bpow 1023 ->
              finite_SF (binary_round prec emax false p e)).
  { intros p Hp. apply IZR_bpow_lt in Hp; [|lia].
    pose proof (binary_round_positive p e ltac:(lia)) as Pos.
    pose proof (binary_round_no_overflow p e _ 971 ltac:(lia) V) as Fin.
    destruct (binary_round prec emax false p e) as [s|s| |s m' e'];
      try destruct s; try contradiction; try exact I.
    exfalso. apply Fin; [|reflexivity].
    replace (1023 - e)%Z with (52 + (971 - e))%Z in Hp by lia.
    rewrite Z.pow_add_r in Hp by lia. exact Hp. }
  destruct X as [|p|p]; cbn [binary_normalize].
  - exact I.
  - apply G. rewrite Rabs_pos_eq in H; [exact H|].
    apply Rmult_le_pos; [apply IZR_le; lia|apply Rlt_le, bpow_pos].
  - rewrite binary_round_opp. apply finite_SF_opp. apply G.
    change (Zneg p) with (- Zpos p)%Z in H. rewrite opp_IZR in H.
    replace (- IZR (Zpos p) * bpow e) with (- (IZR (Zpos p) * bpow e)) in H by ring.
    rewrite Rabs_Ropp, Rabs_pos_eq in H; [exact H|].
    apply Rmult_le_pos; [apply IZR_le; lia|apply Rlt_le, bpow_pos].
Qed.

Lemma SFadd_finite (x y : spec_float) :
  valid_binary x = true -> valid_binary y = true -> finite_SF x -> finite_SF y ->
  Rabs (SF2R x + SF2R y) < bpow 1023 -> finite_SF (SFadd prec emax x y).
Proof.
  intros Vx Vy Fx Fy H.
  destruct x as [sx|sx| |sx mx ex], y as [sy|sy| |sy my ey]; try contradiction;
    try exact I.
  - destruct sx, sy; exact I.
  - cbn [SFadd]. apply valid_exponent in Vx, Vy.
    apply binary_normalize_finite; [lia|].
    rewrite plus_IZR, Rmult_plus_distr_r, !aligned_value by lia. exact H.
Qed.

Lemma SFsub_finite_R (x y : spec_float) :
  valid_binary x = true -> valid_binary y = true -> finite_SF x -> finite_SF y ->
  Rabs (SF2R x - SF2R y) < bpow 1023 -> finite_SF (SFsub prec emax x y).
Proof.
  intros Vx Vy Fx Fy H.
  destruct x as [sx|sx| |sx mx ex], y as [sy|sy| |sy my ey]; try contradiction;
    try exact I.
  - destruct sx, sy; exact I.
  - cbn [SFsub]. apply valid_exponent in Vx, Vy.
    apply binary_normalize_finite; [lia|].
    rewrite minus_IZR, Rmult_minus_distr_r, !aligned_value by lia. exact H.
Qed.

(** Addition and subtraction of finite numbers whose exact result is in
    range: the result is finite and off by at most 2^-51 of the exact one. *)
Lemma add_error (x y : float) :
  finite_number x -> finite_number y -> Rabs (B2R x + B2R y) < bpow 1023 ->
  finite_number (x + y)
  /\ Rabs (B2R (x + y) - (B2R x + B2R y)) <= bpow (-51) * Rabs (B2R x + B2R y).
Proof.
  intros Fx Fy H. unfold finite_number, B2R in *. rewrite add_spec.
  pose proof (SFadd_finite _ _ (Prim2SF_valid x) (Prim2SF_valid y) Fx Fy H) as F.
  split; [exact F|].
  now apply (SFadd_error _ _ (Prim2SF_valid x) (Prim2SF_valid y) Fx Fy).
Qed.

Lemma sub_error (x y : float) :
  finite_number x -> finite_number y -> Rabs (B2R x - B2R y) < bpow 1023 ->
  finite_number (x - y)
  /\ Rabs (B2R (x - y) - (B2R x - B2R y)) <= bpow (-51) * Rabs (B2R x - B2R y).
Proof.
  intros Fx Fy H. unfold finite_number, B2R in *. rewrite sub_spec.
  pose proof (SFsub_finite_R _ _ (Prim2SF_valid x) (Prim2SF_valid y) Fx Fy H) as F.
  split; [exact F|].
  now apply (SFsub_error _ _ (Prim2SF_valid x) (Prim2SF_valid y) Fx Fy).
Qed.

(** Finite numbers compare as the real numbers they stand for. *)
Lemma SFcompare_R (x y : spec_float) :
  valid_binary x = true -> valid_binary y = true -> finite_SF x -> finite_SF y ->
  match SFcompare x y with
  | Some Lt => SF2R x < SF2R y
  | Some Eq => SF2R x = SF2R y
  | Some Gt => SF2R y < SF2R x
  | None => False
  end.
Proof.
  intros Vx Vy Fx Fy.
  assert (P : forall (s : bool) m e, 0 < IZR (Zpos m) * bpow e).
  { intros _ m e. apply Rmult_lt_0_compat; [apply IZR_lt; lia|apply bpow_pos]. }
  destruct x as [sx|sx| |sx mx ex], y as [sy|sy| |sy my ey]; try contradiction;
    cbn [SFcompare SF2R].
  - reflexivity.
  - pose proof (P sy my ey). destruct sy; cbn [cond_Zopp];
      change (Zneg my) with (- Zpos my)%Z; rewrite ?opp_IZR; lra.
  - pose proof (P sx mx ex). destruct sx; cbn [cond_Zopp];
      change (Zneg mx) with (- Zpos mx)%Z; rewrite ?opp_IZR; lra.
  - pose proof (P sx mx ex). pose proof (P sy my ey).
    pose proof (aligned_compare mx ex my ey Vx Vy) as A.
    apply valid_exponent in Vx, Vy.
    pose proof (aligned_value false mx ex (Z.min ex ey) ltac:(lia)) as Ax.
    pose proof (aligned_value false my ey (Z.min ex ey) ltac:(lia)) as Ay.
    cbn [cond_Zopp SF2R] in Ax, Ay.
    pose proof (bpow_pos (Z.min ex ey)) as Pz.
    set (a := Zpos (fst (shl_align mx ex (Z.min ex ey)))) in *.
    set (b := Zpos (fst (shl_align my ey (Z.min ex ey)))) in *.
    assert (C : match (a ?= b)%Z with
                | Lt => IZR (Zpos mx) * bpow ex < IZR (Zpos my) * bpow ey
                | Eq => IZR (Zpos mx) * bpow ex = IZR (Zpos my) * bpow ey
                | Gt => IZR (Zpos my) * bpow ey < IZR (Zpos mx) * bpow ex
                end).
    { rewrite <- Ax, <- Ay. destruct (Z.compare_spec a b) as [E|E|E].
      - now rewrite E.
      - apply IZR_lt in E. nra.
      - apply IZR_lt in E. nra. }
    rewrite A in C. clear A.
    destruct sx, sy; cbn [cond_Zopp];
      change (Zneg mx) with (- Zpos mx)%Z; change (Zneg my) with (- Zpos my)%Z;
      rewrite ?opp_IZR; try lra.
    + destruct (ex ?= ey)%Z; [destruct (Pos.compare_cont Eq mx my)| |]; cbn [CompOpp]; lra.
    + destruct (ex ?= ey)%Z; [destruct (Pos.compare_cont Eq mx my)| |]; lra.
Qed.

Lemma leb_R (x y : float) :
  finite_number x -> finite_number y -> B2R x <= B2R y -> (x <=? y)%float = true.
Proof.
  intros Fx Fy H. rewrite leb_spec. unfold SFleb.
  pose proof (SFcompare_R _ _ (Prim2SF_valid x) (Prim2SF_valid y) Fx Fy) as C.
  unfold B2R in H. destruct (SFcompare (Prim2SF x) (Prim2SF y)) as [[]|]; try reflexivity; try lra; contradiction.
Qed.

Lemma ltb_R (x y : float) :
  finite_number x -> finite_number y -> (x <? y)%float = true -> B2R x < B2R y.
Proof.
  intros Fx Fy H. rewrite ltb_spec in H. unfold SFltb in H.
  pose proof (SFcompare_R _ _ (Prim2SF_valid x) (Prim2SF_valid y) Fx Fy) as C.
  unfold B2R. destruct (SFcompare (Prim2SF x) (Prim2SF y)) as [[]|]; try discriminate.
  exact C.
Qed.

Lemma leb_R_inv (x y : float) :
  finite_number x -> finite_number y -> (x <=? y)%float = true -> B2R x <= B2R y.
Proof.
  intros Fx Fy H. rewrite leb_spec in H. unfold SFleb in H.
  pose proof (SFcompare_R _ _ (Prim2SF_valid x) (Prim2SF_valid y) Fx Fy) as C.
  unfold B2R. destruct (SFcompare (Prim2SF x) (Prim2SF y)) as [[]|]; try discriminate; lra.
Qed.

Lemma abs_R (x : float) : B2R (abs x) = Rabs (B2R x) /\ (finite_number x -> finite_number (abs x)).
Proof.
  unfold B2R, finite_number. rewrite abs_spec.
  destruct (Prim2SF x) as [s|s| |s m e]; cbn [SFabs SF2R]; rewrite ?Rabs_R0; try tauto.
  split; [|tauto].
  assert (0 < IZR (Zpos m) * bpow e).
  { apply Rmult_lt_0_compat; [apply IZR_lt; lia|apply bpow_pos]. }
  destruct s; cbn [cond_Zopp]; change (Zneg m) with (- Zpos m)%Z; rewrite ?opp_IZR.
  - replace (- IZR (Zpos m) * bpow e) with (- (IZR (Zpos m) * bpow e)) by ring.
    rewrite Rabs_Ropp, Rabs_pos_eq; lra.
  - rewrite Rabs_pos_eq; lra.
Qed.

(* ================================================================== *)
(** ** Binary64: valid results, quotients, products and integers *)

Lemma digits_unique (u : positive) (k : Z) :
  (2 ^ (k - 1) <= Zpos u < 2 ^ k)%Z -> (1 <= k)%Z -> Zpos (digits2_pos u) = k.
Proof.
  intros [L U] Hk.
  pose proof (digits_le u k ltac:(lia) U).
  pose proof (digits_ge u (k - 1) ltac:(lia) L). lia.
Qed.

(** What [shr_fexp] leaves, when it is not zero, has the exponent of its
    number of digits, provided the input was at or below that exponent. *)
Lemma shr_fexp_canonical (p : positive) (e : Z) (l : location) (m' : positive) :
  (e <= fexp prec emax (Zpos (digits2_pos p) + e))%Z ->
  shr_m (fst (shr_fexp prec emax (Zpos p) e l)) = Zpos m' ->
  fexp prec emax (Zpos (digits2_pos m') + snd (shr_fexp prec emax (Zpos p) e l))
  = snd (shr_fexp prec emax (Zpos p) e l)
  /\ (Zpos (digits2_pos m') + snd (shr_fexp prec emax (Zpos p) e l)
      = Zpos (digits2_pos p) + e)%Z.
Proof.
  intros Fine Hm.
  destruct (shr_fexp_spec p e l) as (M & E & _).
  rewrite Hm in M. rewrite E. clear E Hm.
  set (d := Zpos (digits2_pos p)) in *.
  set (n := Z.max 0 (fexp prec emax (d + e) - e)) in *.
  assert (Hn : (0 <= n)%Z) by lia.
  assert (Hnd : (n < d)%Z).
  { destruct (Z_lt_le_dec n d) as [H|H]; [exact H|exfalso].
    destruct (digits2_pos_bounds p) as [_ U]. fold d in U.
    assert (Z.shiftr (Zpos p) n = 0%Z); [|lia].
    rewrite Z.shiftr_div_pow2 by lia. apply Z.div_small. split; [lia|].
    eapply Z.lt_le_trans; [exact U|]. apply Z.pow_le_mono_r; lia. }
  pose proof (shiftr_digits_bounds p n (conj Hn Hnd)) as B. fold d in B. rewrite <- M in B.
  assert (D : Zpos (digits2_pos m') = (d - n)%Z).
  { apply digits_unique; [|lia]. replace (d - n - 1)%Z with (d - n - 1)%Z by lia. exact B. }
  rewrite D. replace (d - n + (e + n))%Z with (d + e)%Z by lia. split; [lia|reflexivity].
Qed.

Lemma digits_mono (u v : positive) :
  (Zpos u <= Zpos v)%Z -> (Zpos (digits2_pos u) <= Zpos (digits2_pos v))%Z.
Proof.
  intros H. destruct (digits2_pos_bounds v) as [_ U].
  apply digits_le; lia.
Qed.

(** Rounding gives a valid value when the input is at or below the
    exponent of its number of digits. *)
Lemma binary_round_aux_valid (s : bool) (p : positive) (e : Z) (l : location) :
  (e <= fexp prec emax (Zpos (digits2_pos p) + e))%Z ->
  valid_binary (binary_round_aux prec emax s (Zpos p) e l) = true.
Proof.
  intros Fine. unfold binary_round_aux.
  pose proof (shr_fexp_canonical p e l) as C1.
  destruct (shr_fexp_spec p e l) as (M1 & E1 & _).
  destruct (shr_fexp prec emax (Zpos p) e l) as [mrs' e_a]. cbn [fst snd] in *.
  pose proof (round_nearest_even_ge (shr_m mrs') (loc_of_shr_record mrs')) as R1.
  pose proof (round_nearest_even_le (shr_m mrs') (loc_of_shr_record mrs')) as R2.
  assert (M0 : (0 <= shr_m mrs')%Z) by (rewrite M1; apply Z.shiftr_nonneg; lia).
  destruct (round_nearest_even (shr_m mrs') (loc_of_shr_record mrs')) as [|q|q] eqn:Eq;
    try lia.
  - (* rounded to zero *)
    destruct (shr_fexp prec emax 0 e_a loc_Exact) as [mrs'' e''] eqn:E2.
    assert (shr_m mrs'' = 0%Z).
    { unfold shr_fexp, shr in E2. cbn [Zdigits2 shr_record_of_loc] in E2.
      destruct (fexp prec emax (0 + e_a) - e_a)%Z as [|k|k]; inversion E2; try reflexivity.
      rewrite iter_shr_1_m by (cbn; lia). apply Z.shiftr_0_l. }
    rewrite H. reflexivity.
  - assert (Fine2 : (e_a <= fexp prec emax (Zpos (digits2_pos q) + e_a))%Z).
    { destruct (shr_m mrs') as [|ma|ma] eqn:Ema; try lia.
      - (* everything was shifted out: the least exponent *)
        assert (q = 1%positive) by lia. subst q.
        destruct (digits2_pos_bounds p) as [L _].
        set (d := Zpos (digits2_pos p)) in *.
        assert (Hd : (1 <= d)%Z) by (unfold d; lia).
        rewrite ?fexp_eq in *. change (Zpos (digits2_pos 1)) with 1%Z.
        assert (d <= Z.max 0 (Z.max (d + e - 53) (-1074) - e))%Z; [|lia].
        destruct (Z_le_gt_dec d (Z.max 0 (Z.max (d + e - 53) (-1074) - e))) as [G|G];
          [exact G|exfalso].
        assert (Hn : (0 <= Z.max 0 (Z.max (d + e - 53) (-1074) - e) < Zpos (digits2_pos p))%Z)
          by (fold d; lia).
        pose proof (shiftr_digits_bounds p _ Hn) as [B _].
        fold d in B. rewrite <- M1 in B.
        assert (0 < 2 ^ (d - Z.max 0 (Z.max (d + e - 53) (-1074) - e) - 1))%Z
          by (apply Z.pow_pos_nonneg; lia).
        lia.
      - destruct (C1 ma Fine eq_refl) as [Ca _].
        pose proof (digits_mono ma q ltac:(lia)) as Dm.
        pose proof (fexp_mono (Zpos (digits2_pos ma) + e_a) (Zpos (digits2_pos q) + e_a)
                      ltac:(lia)).
        lia. }
    pose proof (shr_fexp_canonical q e_a loc_Exact) as C2.
    destruct (shr_fexp prec emax (Zpos q) e_a loc_Exact) as [mrs'' e'']. cbn [fst snd] in C2.
    destruct (shr_m mrs'') as [|m2|m2]; try reflexivity.
    destruct (e'' <=? emax - prec)%Z eqn:Le; [|reflexivity].
    destruct (C2 m2 Fine2 eq_refl) as [Cb _].
    cbn [valid_binary]. unfold bounded, canonical_mantissa.
    rewrite Cb, Z.eqb_refl, Le. reflexivity.
Qed.



Lemma new_location_Exact (nb k : Z) : new_location nb k = loc_Exact -> k = 0%Z.
Proof.
  unfold new_location, new_location_even, new_location_odd.
  destruct (Z.even nb); destruct (Z.eqb_spec k 0); congruence.
Qed.

Lemma shifted_dividend (m s : Z) :
  (0 <= s)%Z ->
  match s with Zpos _ => Z.shiftl m s | Z0 => m | Zneg _ => 0%Z end = (m * 2 ^ s)%Z.
Proof.
  intros H. destruct s as [|k|k]; try lia.
  now rewrite Z.shiftl_mul_pow2 by lia.
Qed.

(** The quotient of [SFdiv_core_binary]: an integer division of the
    dividend brought to the exponent [e']. *)
Lemma SFdiv_core_spec (mx : positive) (e1 : Z) (my : positive) (e2 : Z) :
  let D := (Zpos (digits2_pos mx) + e1 - (Zpos (digits2_pos my) + e2))%Z in
  let e' := Z.min (fexp prec emax D) (e1 - e2) in
  exists q r l,
    SFdiv_core_binary prec emax (Zpos mx) e1 (Zpos my) e2 = (q, e', l)
    /\ (Zpos mx * 2 ^ (e1 - e2 - e') = Zpos my * q + r)%Z
    /\ (0 <= r < Zpos my)%Z
    /\ (l = loc_Exact -> r = 0%Z).
Proof.
  intros D e'. unfold SFdiv_core_binary. cbn [Zdigits2]. fold D. fold e'.
  set (s := (e1 - e2 - e')%Z).
  assert (Hs : (0 <= s)%Z) by (unfold s, e'; lia).
  rewrite (shifted_dividend (Zpos mx) s Hs).
  pose proof (Z_div_mod (Zpos mx * 2 ^ s) (Zpos my) ltac:(lia)) as H.
  destruct (Z.div_eucl (Zpos mx * 2 ^ s) (Zpos my)) as [q r]. destruct H as [H1 H2].
  exists q, r, (new_location (Zpos my) r). repeat split; try lia.
  apply new_location_Exact.
Qed.

Lemma IZR_pos (p : positive) : 0 < IZR (Zpos p).
Proof. apply IZR_lt. lia. Qed.

(** A quotient of positive values that is not below the normal range: the
    result is valid, and finite within [2^-51] of the exact quotient, or
    [+Infinity]. *)
Lemma SFdiv_positive_error (mx : positive) (e1 : Z) (my : positive) (e2 : Z) :
  (-1021 <= Zpos (digits2_pos mx) + e1 - (Zpos (digits2_pos my) + e2))%Z ->
  let x := (IZR (Zpos mx) * bpow e1) / (IZR (Zpos my) * bpow e2) in
  valid_binary (SFdiv prec emax (S754_finite false mx e1) (S754_finite false my e2)) = true
  /\ match SFdiv prec emax (S754_finite false mx e1) (S754_finite false my e2) with
     | S754_finite false m' e' => Rabs (IZR (Zpos m') * bpow e' - x) <= bpow (-51) * x
     | S754_infinity false => True
     | _ => False
     end.
Proof.
  intros HD x. cbn [SFdiv xorb].
  destruct (SFdiv_core_spec mx e1 my e2) as (q & r & l & E & Hq & Hr & Hl).
  rewrite E. clear E. rewrite fexp_eq in *.
  set (D := (Zpos (digits2_pos mx) + e1 - (Zpos (digits2_pos my) + e2))%Z) in *.
  set (e' := Z.min (Z.max (D - 53) (-1074)) (e1 - e2)) in *.
  set (s := (e1 - e2 - e')%Z) in *.
  destruct (digits2_pos_bounds mx) as [Lx Ux]. destruct (digits2_pos_bounds my) as [Ly Uy].
  set (d1 := Zpos (digits2_pos mx)) in *. set (d2 := Zpos (digits2_pos my)) in *.
  assert (Hd1 : (1 <= d1)%Z) by (unfold d1; lia).
  assert (Hd2 : (1 <= d2)%Z) by (unfold d2; lia).
  assert (Hs : (53 - d1 + d2 <= s)%Z).
  { unfold s, e', D in *. clear - HD Hd1 Hd2. lia. }
  assert (Hs0 : (0 <= s)%Z) by (unfold s, e'; lia).
  (* the quotient has at least 53 digits *)
  assert (Big' : (2 ^ (d1 - 1 + s - d2) <= q)%Z).
  { assert (A : (2 ^ (d1 - 1 + s - d2) * 2 ^ d2 <= Zpos mx * 2 ^ s)%Z).
    { rewrite <- Z.pow_add_r by lia. replace (d1 - 1 + s - d2 + d2)%Z with (d1 - 1 + s)%Z by lia.
      rewrite Z.pow_add_r by lia. apply Z.mul_le_mono_nonneg_r; [|exact Lx].
      apply Z.pow_nonneg. lia. }
    destruct (Z_le_gt_dec (2 ^ (d1 - 1 + s - d2)) q) as [G|G]; [exact G|exfalso].
    assert (0 < 2 ^ (d1 - 1 + s - d2))%Z by (apply Z.pow_pos_nonneg; lia).
    nia. }
  assert (Big : (2 ^ 52 <= q)%Z).
  { eapply Z.le_trans; [|exact Big']. apply Z.pow_le_mono_r; lia. }
  destruct q as [|q|q]; try (exfalso; assert (0 < 2 ^ 52)%Z by (apply Z.pow_pos_nonneg; lia); lia).
  assert (Dq : (53 <= Zpos (digits2_pos q))%Z).
  { assert (52 < Zpos (digits2_pos q))%Z by (apply digits_ge; lia). lia. }
  assert (Dq' : (d1 + s - d2 <= Zpos (digits2_pos q))%Z).
  { assert (d1 - 1 + s - d2 < Zpos (digits2_pos q))%Z by (apply digits_ge; lia). lia. }
  (* the quotient brackets the exact value *)
  assert (Hx : IZR (Zpos q) * bpow e' <= x < IZR (Zpos q + 1) * bpow e'
               /\ (r = 0%Z -> x = IZR (Zpos q) * bpow e')).
  { assert (Ex : x = (IZR (Zpos q) + IZR r / IZR (Zpos my)) * bpow e').
    { unfold x. pose proof (IZR_pos mx). pose proof (IZR_pos my).
      pose proof (bpow_pos e1). pose proof (bpow_pos e2). pose proof (bpow_pos e').
      assert (Es : bpow e1 = bpow e2 * bpow e' * IZR (2 ^ s)).
      { rewrite <- bpow_IZR, <- !bpow_add by lia. f_equal. unfold s. lia. }
      apply (f_equal IZR) in Hq. rewrite plus_IZR, !mult_IZR in Hq.
      rewrite Es.
      replace (IZR (Zpos mx) * (bpow e2 * bpow e' * IZR (2 ^ s)))
        with ((IZR (Zpos my) * IZR (Zpos q) + IZR r) * (bpow e2 * bpow e'))
        by (rewrite <- Hq; ring).
      field. split; lra. }
    pose proof (IZR_pos my) as Py. pose proof (bpow_pos e') as Pe.
    destruct Hr as [Hr1 Hr2]. apply IZR_le in Hr1. apply IZR_lt in Hr2.
    assert (0 <= IZR r / IZR (Zpos my) < 1).
    { split.
      - apply Rmult_le_pos; [exact Hr1|]. apply Rlt_le, Rinv_0_lt_compat, Py.
      - apply Rmult_lt_reg_r with (IZR (Zpos my)); [exact Py|].
        unfold Rdiv. rewrite Rmult_assoc, Rinv_l by lra. lra. }
    rewrite plus_IZR. split; [rewrite Ex; nra|].
    intros ->. rewrite Ex. unfold Rdiv. rewrite Rmult_0_l. ring. }
  destruct Hx as [Hx Hx0]. split.
  - apply binary_round_aux_valid. rewrite fexp_eq. lia.
  - apply binary_round_aux_error.
    + now right.
    + right. unfold s, D in *. lia.
    + exact Hx.
    + intros L. apply Hx0, Hl, L.
Qed.

Lemma positive_finite_R (x : float) : positive_finite x -> 0 < B2R x /\ finite_number x.
Proof.
  unfold positive_finite, B2R, finite_number.
  destruct (Prim2SF x) as [s|s| |[] m e]; try contradiction. intros _.
  split; [|exact I]. cbn [SF2R cond_Zopp].
  apply Rmult_lt_0_compat; [apply IZR_pos|apply bpow_pos].
Qed.








Lemma digits_below (p : positive) (e K : Z) :
  IZR (Zpos p) * bpow e < bpow K -> (Zpos (digits2_pos p) + e <= K)%Z.
Proof.
  intros H. destruct (digits2_pos_bounds p) as [L _].
  assert (Zpos (digits2_pos p) - 1 + e < K)%Z; [|lia].
  apply bpow_lt_inv. eapply Rle_lt_trans; [|exact H].
  rewrite bpow_add, (bpow_IZR (Zpos (digits2_pos p) - 1)) by lia.
  apply IZR_le in L. pose proof (bpow_pos e). nra.
Qed.



(* ================================================================== *)
(** ** toFixed(2) and Math.floor as real numbers *)

Lemma Rabs_le_inv (a b : R) : Rabs a <= b -> - b <= a <= b.
Proof. unfold Rabs. destruct (Rcase_abs a); lra. Qed.

Lemma bpow_opp (k : Z) : bpow (- k) = / bpow k.
Proof. apply powerRZ_neg'. Qed.

(** [JS.round_half_up_x100 m e] is [100 * m * 2^e] rounded to an integer,
    halves upward. *)
Lemma round_half_up_x100_spec (m : positive) (e : Z) :
  let v := IZR (Zpos m) * bpow e in
  (0 <= JS.round_half_up_x100 m e)%Z
  /\ IZR (JS.round_half_up_x100 m e) <= 100 * v + / 2 < IZR (JS.round_half_up_x100 m e) + 1
  /\ ((0 <= e)%Z -> IZR (JS.round_half_up_x100 m e) = 100 * v).
Proof.
  intros v. unfold JS.round_half_up_x100. pose proof (IZR_pos m) as Pm.
  destruct (Z.leb_spec 0 e) as [He|He].
  - rewrite Z.shiftl_mul_pow2 by exact He.
    assert (P : (0 < 2 ^ e)%Z) by (apply Z.pow_pos_nonneg; lia).
    assert (E : IZR (Zpos m * 100 * 2 ^ e) = 100 * v).
    { unfold v. rewrite !mult_IZR, bpow_IZR by exact He. ring. }
    rewrite E. repeat split; try lra. lia.
  - set (k := (- e)%Z). assert (Hk : (0 < k)%Z) by (unfold k; lia).
    rewrite Z.shiftl_mul_pow2, Z.mul_1_l by lia.
    assert (P : (0 < 2 ^ k)%Z) by (apply Z.pow_pos_nonneg; lia).
    pose proof (shiftr_floor (Zpos m * 200 + 2 ^ k) (k + 1) ltac:(lia) ltac:(lia)) as [L U].
    set (n := Z.shiftr (Zpos m * 200 + 2 ^ k) (k + 1)) in *.
    assert (N0 : (0 <= n)%Z) by (apply Z.shiftr_nonneg; lia).
    split; [exact N0|]. split; [|lia].
    assert (Ev : v = IZR (Zpos m) / IZR (2 ^ k)).
    { unfold v. replace e with (- k)%Z by (unfold k; lia).
      rewrite bpow_opp, bpow_IZR by lia. reflexivity. }
    rewrite Z.pow_add_r in L, U by lia. change (2 ^ 1)%Z with 2%Z in L, U.
    assert (U' : (Zpos m * 200 + 2 ^ k + 1 <= (n + 1) * (2 ^ k * 2))%Z) by lia.
    apply IZR_le in L, U'. apply IZR_lt in P.
    repeat (rewrite plus_IZR in L || rewrite mult_IZR in L).
    repeat (rewrite plus_IZR in U' || rewrite mult_IZR in U').
    set (T := IZR (2 ^ k)) in *. rewrite Ev.
    assert (IT : / T * T = 1) by (apply Rinv_l; lra).
    assert (PT : 0 < / T) by (apply Rinv_0_lt_compat; lra).
    unfold Rdiv. split.
    + apply Rmult_le_reg_r with (T * 2); [lra|].
      replace ((100 * (IZR (Zpos m) * / T) + / 2) * (T * 2))
        with (IZR (Zpos m) * 200 * (/ T * T) + T) by (field; lra).
      rewrite IT. lra.
    + apply Rmult_lt_reg_r with (T * 2); [lra|].
      replace ((100 * (IZR (Zpos m) * / T) + / 2) * (T * 2))
        with (IZR (Zpos m) * 200 * (/ T * T) + T) by (field; lra).
      rewrite IT. lra.
Qed.

Lemma SFdiv_negative (mx : positive) (e1 : Z) (my : positive) (e2 : Z) :
  SFdiv prec emax (S754_finite true mx e1) (S754_finite false my e2)
  = SFopp (SFdiv prec emax (S754_finite false mx e1) (S754_finite false my e2)).
Proof.
  cbn [SFdiv xorb].
  destruct (SFdiv_core_binary prec emax (Zpos mx) e1 (Zpos my) e2) as [[mz ez] lz].
  apply binary_round_aux_opp.
Qed.

Lemma valid_opp (x : spec_float) : valid_binary (SFopp x) = valid_binary x.
Proof. destruct x; reflexivity. Qed.

(** [parseFloat(x.toFixed(2))] of a finite number: the nearest count of
    cents, divided by 100. *)
Lemma toFixed2_finite (x : float) (s : bool) (m : positive) (e : Z) :
  Prim2SF x = S754_finite s m e ->
  let v := IZR (Zpos m) * bpow e in
  exists (n : Z) (w : R),
    (0 <= n)%Z
    /\ IZR n <= 100 * v + / 2 < IZR n + 1
    /\ (finite_number (JS.toFixed2 x) ->
        B2R (JS.toFixed2 x) = signed s w
        /\ Rabs (w - IZR n / 100) <= bpow (-51) * (IZR n / 100)).
Proof.
  intros E v. pose proof (round_half_up_x100_spec m e) as (N0 & Nb & Ne). fold v in Nb, Ne.
  assert (Vx : B2R x = signed s v).
  { unfold B2R. rewrite E. cbn [SF2R]. unfold v, signed.
    destruct s; cbn [cond_Zopp]; change (Zneg m) with (- Zpos m)%Z; rewrite ?opp_IZR; ring. }
  assert (Z0 : forall r, 0 <= r -> Rabs (r - r) <= bpow (-51) * r).
  { intros r Hr. rewrite Rminus_diag, Rabs_R0, bpow_m51. lra. }
  exists (JS.round_half_up_x100 m e). unfold JS.toFixed2. rewrite E.
  destruct ((0 <=? e)%Z && (10 ^ 21 <=? Z.shiftl (Zpos m) e)%Z) eqn:Big.
  - (* printed as it is *)
    apply andb_true_iff in Big. destruct Big as [He _]. apply Z.leb_le in He.
    exists (IZR (JS.round_half_up_x100 m e) / 100).
    repeat split; try assumption; try lra.
    + rewrite Vx, (Ne He). f_equal. field.
    + apply Z0. apply IZR_le in N0. lra.
  - destruct (JS.round_half_up_x100 m e) as [|n|n] eqn:En; try lia.
    + exists 0. repeat split; try assumption; try lra.
      * unfold signed, B2R. destruct s.
        -- change (Prim2SF neg_zero) with (S754_zero true). cbn [SF2R]. lra.
        -- change (Prim2SF zero) with (S754_zero false). reflexivity.
      * unfold Rdiv. rewrite Rmult_0_l. apply Z0. lra.
    + assert (HD : (-1021 <= Zpos (digits2_pos n) + 0 - (Zpos (digits2_pos 100) + 0))%Z).
      { change (Zpos (digits2_pos 100)) with 7%Z. lia. }
      destruct (SFdiv_positive_error n 0 100 0 HD) as [Vd G].
      change (bpow 0) with 1 in G. rewrite !Rmult_1_r in G.
      set (r := SFdiv prec emax (S754_finite false n 0) (S754_finite false 100 0)) in *.
      assert (Er : SFdiv prec emax (S754_finite s n 0) (S754_finite false 100 0)
                   = if s then SFopp r else r).
      { destruct s; [apply SFdiv_negative|reflexivity]. }
      rewrite Er.
      exists (SF2R r). repeat split; try assumption; try lra.
      * unfold B2R. rewrite Prim2SF_SF2Prim by (destruct s; rewrite ?valid_opp; exact Vd).
        destruct s; [apply SF2R_opp|reflexivity].
      * unfold finite_number in H.
        rewrite Prim2SF_SF2Prim in H by (destruct s; rewrite ?valid_opp; exact Vd).
        assert (F : finite_SF r) by (destruct s; [apply (proj1 (finite_SF_opp r)) in H|]; exact H).
        destruct r as [s'|[]| |[] m' e']; try contradiction.
        exact G.
Qed.

(** The value read back is within half a cent, and a rounding, of [x]. *)
Lemma toFixed2_error (x : float) :
  finite_number x -> finite_number (JS.toFixed2 x) ->
  Rabs (B2R (JS.toFixed2 x) - B2R x) <= / 200 + bpow (-51) * (Rabs (B2R x) + / 200).
Proof.
  intros Fx Ft. unfold finite_number in Fx.
  destruct (Prim2SF x) as [s|s| |s m e] eqn:E; try contradiction.
  - assert (JS.toFixed2 x = zero) by (unfold JS.toFixed2; now rewrite E).
    rewrite H. unfold B2R. rewrite E. change (Prim2SF zero) with (S754_zero false).
    cbn [SF2R]. rewrite Rminus_diag, Rabs_R0, bpow_m51. lra.
  - destruct (toFixed2_finite x s m e E) as (n & w & N0 & Nb & H).
    destruct (H Ft) as [Vt Hw]. clear H.
    assert (Vx : B2R x = signed s (IZR (Zpos m) * bpow e)).
    { unfold B2R. rewrite E. cbn [SF2R]. unfold signed.
      destruct s; cbn [cond_Zopp]; change (Zneg m) with (- Zpos m)%Z; rewrite ?opp_IZR; ring. }
    set (v := IZR (Zpos m) * bpow e) in *.
    assert (Pv : 0 < v) by (apply Rmult_lt_0_compat; [apply IZR_pos|apply bpow_pos]).
    assert (Av : Rabs (B2R x) = v).
    { rewrite Vx. unfold signed. destruct s; [rewrite Rabs_Ropp|]; apply Rabs_pos_eq; lra. }
    assert (D : Rabs (B2R (JS.toFixed2 x) - B2R x) = Rabs (w - v)).
    { rewrite Vt, Vx. unfold signed. destruct s; [|reflexivity].
      replace (- w - - v) with (- (w - v)) by ring. apply Rabs_Ropp. }
    rewrite D, Av. apply IZR_le in N0. rewrite bpow_m51 in *.
    apply Rabs_le. apply Rabs_le_inv in Hw. lra.
Qed.



Lemma sub_error_finite (x y : float) :
  finite_number x -> finite_number y -> finite_number (x - y) ->
  Rabs (B2R (x - y) - (B2R x - B2R y)) <= bpow (-51) * Rabs (B2R x - B2R y).
Proof.
  unfold finite_number, B2R. rewrite sub_spec. intros Fx Fy F.
  now apply (SFsub_error _ _ (Prim2SF_valid x) (Prim2SF_valid y) Fx Fy).
Qed.




Lemma toFixed2_finite_inv (x : float) : finite_number (JS.toFixed2 x) -> finite_number x.
Proof.
  unfold JS.toFixed2, finite_number.
  destruct (Prim2SF x) as [s|s| |s m e] eqn:E; try tauto.
  now rewrite E.
Qed.

(** [Math.abs(x) <= c] for a finite [c]: [x] is finite and within [c]. *)
Lemma leb_abs_bound (x c : float) :
  finite_number c -> (abs x <=? c)%float = true ->
  finite_number x /\ Rabs (B2R x) <= B2R c.
Proof.
  intros Fc H.
  assert (Fx : finite_number x).
  { unfold finite_number in *. rewrite leb_spec, abs_spec in H. unfold SFleb in H.
    destruct (Prim2SF x) as [s|s| |s m e]; try exact I;
      destruct (Prim2SF c) as [s'|s'| |s' m' e']; try contradiction; discriminate. }
  split; [exact Fx|].
  destruct (abs_R x) as [A FA]. rewrite <- A. apply leb_R_inv; auto.
Qed.

Lemma leb_bound (x c : float) :
  finite_number c -> finite_number x -> (x <=? c)%float = true -> B2R x <= B2R c.
Proof. intros. now apply leb_R_inv. Qed.

(** The binary64 value written [0.01] is a little above one hundredth. *)
Lemma B2R_cent : / 100 <= B2R 0.01 <= / 100 + / 1000000.
Proof.
  unfold B2R. change (Prim2SF 0.01) with (S754_finite false 5764607523034235 (-59)).
  cbn [SF2R cond_Zopp].
  replace (bpow (-59)) with (/ bpow 59) by (symmetry; apply (bpow_opp 59)).
  rewrite bpow_IZR by lia.
  change (2 ^ 59)%Z with 576460752303423488%Z. lra.
Qed.

(** The test [Math.abs(sum - total) <= 0.01] holds when the computed
    difference is at most one hundredth as a real number. *)
Lemma conserved_of_R (total : float) (splits : list Split) :
  finite_number (sum_amounts splits - total) ->
  Rabs (B2R (sum_amounts splits - total)) <= / 100 ->
  conserved_in_floats total splits = true.
Proof.
  intros F H. unfold conserved_in_floats, JS.Math_abs.
  destruct (abs_R (sum_amounts splits - total)) as [A FA].
  apply leb_R; [auto|exact I|]. rewrite A. pose proof B2R_cent. lra.
Qed.

(** Relative bounds turned into absolute ones. *)
Lemma rel_abs (y x M : R) :
  Rabs (y - x) <= bpow (-51) * Rabs x -> Rabs x <= M -> Rabs (y - x) <= bpow (-51) * M.
Proof.
  intros H1 H2. eapply Rle_trans; [exact H1|].
  apply Rmult_le_compat_l; [apply Rlt_le, bpow_pos|exact H2].
Qed.

Lemma rel_inv (y x : R) :
  Rabs (y - x) <= bpow (-51) * Rabs x -> Rabs x <= 2 * Rabs y.
Proof.
  rewrite bpow_m51. unfold Rabs.
  destruct (Rcase_abs (y - x)), (Rcase_abs x), (Rcase_abs y); lra.
Qed.

(** A running sum of up to 1024 amounts of magnitude at most [A <= 2^40]
    stays finite. *)
Lemma sum_amounts_bounded (A : R) (l : list Split) :
  0 <= A <= 1099511627776 ->
  Forall (fun x => finite_number (amount x) /\ Rabs (B2R (amount x)) <= A) l ->
  forall start,
    (List.length l <= 1024)%nat -> finite_number start ->
    Rabs (B2R start) <= (1024 - INR (List.length l)) * (A + 1) ->
    finite_number (sum_amounts_from start l)
    /\ Rabs (B2R (sum_amounts_from start l)) <= 1024 * (A + 1).
Proof.
  intros HA H. induction H as [|x l [Fx Hx] Hl IH]; intros start Hlen Fs Hs.
  - simpl in *. split; [exact Fs|]. lra.
  - cbn [sum_amounts_from fold_left]. cbn [List.length] in Hlen, Hs.
    rewrite S_INR in Hs.
    assert (Hn : INR (List.length l) <= 1023).
    { replace 1023 with (INR 1023) by (simpl; lra). apply le_INR. lia. }
    assert (0 <= INR (List.length l)) by apply pos_INR.
    assert (Bs : Rabs (B2R start) <= 1024 * (A + 1)) by nra.
    assert (Sum : Rabs (B2R start + B2R (amount x)) <= 1024 * (A + 1) + A).
    { eapply Rle_trans; [apply Rabs_triang|]. lra. }
    assert (Small : 1024 * (A + 1) + A < bpow 1023).
    { eapply Rlt_le_trans; [|apply (bpow_le 60 1023); lia].
      rewrite bpow_IZR by lia. change (2 ^ 60)%Z with 1152921504606846976%Z. lra. }
    destruct (add_error start (amount x) Fs Fx ltac:(lra)) as [Fa Ea].
    apply (IH (start + amount x)%float); [lia|exact Fa|].
    assert (E1 : Rabs (B2R (start + amount x) - (B2R start + B2R (amount x))) <= 1).
    { eapply Rle_trans; [apply (rel_abs _ _ _ Ea Sum)|]. rewrite bpow_m51. lra. }
    assert (T : Rabs (B2R start + B2R (amount x)) <= Rabs (B2R start) + A).
    { eapply Rle_trans; [apply Rabs_triang|]. lra. }
    replace (B2R (start + amount x))
      with ((B2R (start + amount x) - (B2R start + B2R (amount x)))
            + (B2R start + B2R (amount x))) by ring.
    eapply Rle_trans; [apply Rabs_triang|]. lra.
Qed.

(** The arithmetic of the last share, on real numbers: [d] is the
    rounded [t - s], [a] is [d] printed with two decimals. *)
Lemma last_share_sum (t s d a : R) :
  Rabs t <= 1099511627776 -> Rabs a <= 1099511627776 ->
  Rabs (d - (t - s)) <= bpow (-51) * Rabs (t - s) ->
  Rabs (a - d) <= / 200 + bpow (-51) * (Rabs d + / 200) ->
  Rabs (s + a - t) <= / 200 + / 250 /\ Rabs (s + a) <= 1099511627777.
Proof.
  rewrite bpow_m51. intros Ht Ha Hd Hx. split; split_Rabs; lra.
Qed.

Lemma last_share_total (t x f g : R) :
  Rabs t <= 1099511627776 -> Rabs (x - t) <= / 200 + / 250 ->
  Rabs (f - x) <= bpow (-51) * Rabs x ->
  Rabs (f - t) <= / 200 + / 250 + / 1000
  /\ (Rabs (g - (f - t)) <= bpow (-51) * Rabs (f - t) -> Rabs g <= / 100).
Proof.
  rewrite bpow_m51. intros Ht Hx Hf. split; [|intros Hg]; split_Rabs; lra.
Qed.

Lemma B2R_zero : B2R 0 = 0.
Proof. reflexivity. Qed.

(** A last share computed as the total minus the running sum of the
    others brings the sum back to the total, within the range. *)
Lemma last_share_conserves (total : float) (init : list Split) (last : Split) :
  finite_number total -> Rabs (B2R total) <= 1099511627776 ->
  Forall (fun x => finite_number (amount x) /\ Rabs (B2R (amount x)) <= 1099511627776)
    (init ++ [last]) ->
  (List.length (init ++ [last]) <= 1024)%nat ->
  amount last = JS.toFixed2 (total - sum_amounts init) ->
  conserved_in_floats total (init ++ [last]) = true.
Proof.
  intros Ft Ht Hall Hlen Hlast.
  apply Forall_app in Hall. destruct Hall as [Hinit Hl].
  apply Forall_inv in Hl. destruct Hl as [Fa Ha].
  rewrite length_app in Hlen. cbn [List.length] in Hlen.
  destruct (sum_amounts_bounded 1099511627776 init ltac:(lra) Hinit 0%float
              ltac:(lia) ltac:(exact I)) as [Fs _].
  { rewrite B2R_zero, Rabs_R0.
    assert (INR (List.length init) <= 1024).
    { replace 1024 with (INR 1024) by (simpl; lra). apply le_INR. lia. }
    nra. }
  fold (sum_amounts init) in Fs. set (s := sum_amounts init) in *.
  rewrite Hlast in Fa, Ha.
  pose proof (toFixed2_finite_inv _ Fa) as Fd.
  pose proof (sub_error_finite total s Ft Fs Fd) as Ed.
  pose proof (toFixed2_error _ Fd Fa) as Ex.
  destruct (last_share_sum _ _ _ _ Ht Ha Ed Ex) as [Hsum Hmag].
  assert (Small : forall r, Rabs r <= 1099511627777 -> Rabs r < bpow 1023).
  { intros r Hr. eapply Rle_lt_trans; [exact Hr|].
    eapply Rlt_le_trans; [|apply (bpow_le 60 1023); lia].
    rewrite bpow_IZR by lia. change (2 ^ 60)%Z with 1152921504606846976%Z. lra. }
  destruct (add_error s (JS.toFixed2 (total - s)) Fs Fa (Small _ Hmag)) as [Ff Ef].
  destruct (last_share_total _ _ _ 0 Ht Hsum Ef) as [Hft _].
  destruct (sub_error (s + JS.toFixed2 (total - s)) total Ff Ft) as [Fg Eg].
  { apply Small. lra. }
  destruct (last_share_total _ _ _ (B2R (s + JS.toFixed2 (total - s) - total)) Ht Hsum Ef)
    as [_ Hg].
  assert (Esum : sum_amounts (init ++ [last]) = (s + JS.toFixed2 (total - s))%float).
  { unfold sum_amounts. rewrite sum_amounts_from_app. cbn. fold (sum_amounts init). fold s.
    now rewrite Hlast. }
  apply conserved_of_R; rewrite Esum; [exact Fg|]. apply Hg, Eg.
Qed.








(* ================================================================== *)
(** ** computeSplits: the shares add up to the total, within the range *)

Lemma small_is_finite (r : R) : Rabs r <= 1152921504606846976 -> Rabs r < bpow 1023.
Proof.
  intros Hr. eapply Rle_lt_trans; [exact Hr|].
  eapply Rlt_le_trans; [|apply (bpow_le 61 1023); lia].
  rewrite bpow_IZR by lia. change (2 ^ 61)%Z with 2305843009213693952%Z. lra.
Qed.












Lemma B2R_range_limit : finite_number range_limit /\ B2R range_limit = 4294967296.
Proof.
  split; [exact I|]. unfold B2R, range_limit.
  change (Prim2SF 4294967296) with (S754_finite false 4503599627370496 (-20)).
  cbn [SF2R cond_Zopp].
  replace (bpow (-20)) with (/ bpow 20) by (symmetry; apply (bpow_opp 20)).
  rewrite bpow_IZR by lia. change (2 ^ 20)%Z with 1048576%Z. lra.
Qed.


Lemma in_range_bound (l : list Split) :
  Forall (fun x => in_range (amount x) = true) l ->
  Forall (fun x => finite_number (amount x) /\ Rabs (B2R (amount x)) <= 1099511627776) l.
Proof.
  destruct B2R_range_limit as [Fl Vl].
  apply Forall_impl. intros x H.
  destruct (leb_abs_bound _ _ Fl H) as [F B]. split; [exact F|]. lra.
Qed.



(** The percent and shares modes, once the values are read. *)
Lemma weighted_mode_conserves (totalAmount totalWeight : float) (input : string -> float)
    (pids : list string) (splits : list Split) :
  pids <> [] ->
  (forall pid, In pid pids -> (input pid <? 0)%float = false) ->
  weighted_forEach totalAmount totalWeight
    (List.length (map (fun pid => mkSplit pid (input pid)) pids))
    (map (fun pid => mkSplit pid (input pid)) pids) 0 0%float [] = splits ->
  finite_number totalAmount -> Rabs (B2R totalAmount) <= 1099511627776 ->
  (List.length pids <= 1024)%nat ->
  Forall (fun x => in_range (amount x) = true) splits ->
  conserved_in_floats totalAmount splits = true.
Proof.
  intros Hne Hpos Hloop Ft Ht Hlen Hall.
  destruct (last_split pids Hne) as [init [last ->]].
  rewrite weighted_splits in Hloop. subst splits.
  apply last_share_conserves; try assumption.
  - now apply in_range_bound.
  - rewrite length_app, length_map in *. exact Hlen.
  - reflexivity.
Qed.



Local Close Scope R_scope.

(* ================================================================== *)
(** ** computeSplits: the percent mode *)

(** C7, as stated, fails: 10.005 at 100 % for A gives A 10.01, because the
    last share too is printed with two decimals; the shares do not sum to
    the total.  And past the range of the amended claim the sum can miss
    the total by more than 0.01: 123456789012345680 at 10 %, 20 % and
    70 % does. *)
Lemma percent_mode_not_exact :
  computeSplits (mkInputs (fun _ => 0) (fun _ => 100) (fun _ => 0)) 10.005 ["A"] "percent"
  = Ok [mkSplit "A" 10.01]
  /\ (sum_amounts [mkSplit "A" 10.01] =? 10.005) = false
  /\ (0.004 <? JS.Math_abs (sum_amounts [mkSplit "A" 10.01] - 10.005)) = true
  /\ exists splits,
      computeSplits
        (mkInputs (fun _ => 0) (field_table [("A", 10); ("B", 20); ("C", 70)]) (fun _ => 0))
        123456789012345680 ["A"; "B"; "C"] "percent" = Ok splits
      /\ conserved_in_floats 123456789012345680 splits = false.
Proof.
  repeat split; try (vm_compute; reflexivity).
  eexists. split; [vm_compute; reflexivity|]. vm_compute. reflexivity.
Qed.

(** C7, amended.  In percent mode a negative percentage is refused;
    otherwise the percentages are added up, and a sum further than 0.5 from
    100 is refused; otherwise every participant but the last gets
    [total * percent / sum] printed with two decimals and the last one gets
    the total minus the sum of the shares before, printed with two decimals
    as well.  So the shares sum to the total within 0.01, for a total of
    magnitude at most 2^32, 1 to 1024 participants and shares that are
    numbers of magnitude at most 2^32.  90 split 33.33 % / 66.67 % between
    A and B gives 30 and 60, which add up to exactly 90. *)
Theorem computeSplits_percent_mode :
  (forall dom totalAmount pids,
      (exists pid, In pid pids /\ (split_percent dom pid <? 0) = true) ->
      computeSplits dom totalAmount pids "percent" = Err NegativePercent)
  /\ (forall dom totalAmount pids,
      (forall pid, In pid pids -> (split_percent dom pid <? 0) = false) ->
      (0.5 <? JS.Math_abs (sum_inputs (split_percent dom) pids - 100)) = true ->
      computeSplits dom totalAmount pids "percent"
      = Err (PercentOutOfRange (sum_inputs (split_percent dom) pids)))
  /\ (forall dom totalAmount init last,
      let pids := init ++ [last] in
      let totalPercent := sum_inputs (split_percent dom) pids in
      let shares := map (weighted_share totalAmount totalPercent (split_percent dom)) init in
      (forall pid, In pid pids -> (split_percent dom pid <? 0) = false) ->
      (0.5 <? JS.Math_abs (totalPercent - 100)) = false ->
      computeSplits dom totalAmount pids "percent"
      = Ok (shares ++ [mkSplit last (JS.toFixed2 (totalAmount - sum_amounts shares))]))
  /\ (forall dom totalAmount pids splits,
      computeSplits dom totalAmount pids "percent" = Ok splits ->
      pids <> [] -> (List.length pids <= 1024)%nat ->
      in_range totalAmount = true ->
      Forall (fun x => in_range (amount x) = true) splits ->
      conserved_in_floats totalAmount splits = true)
  /\ computeSplits Examples.percent_inputs 90 ["A"; "B"] "percent"
     = Ok [mkSplit "A" 30; mkSplit "B" 60]
  /\ sum_amounts [mkSplit "A" 30; mkSplit "B" 60] = 90.
Proof.
  split; [|split; [|split; [|split; [|split]]]].
  - intros dom totalAmount pids H.
    rewrite computeSplits_percent, read_inputs_negative by exact H. reflexivity.
  - intros dom totalAmount pids Hpos Hsum.
    rewrite computeSplits_percent, read_inputs_accepted by exact Hpos.
    fold (sum_inputs (split_percent dom) pids). now rewrite Hsum.
  - intros dom totalAmount init last pids totalPercent shares Hpos Hsum.
    rewrite computeSplits_percent.
    destruct (weighted_mode_result totalAmount (split_percent dom) init last Hpos)
      as [Hread Hloop].
    fold pids in Hread, Hloop. fold totalPercent in Hread, Hloop. fold shares in Hloop.
    rewrite Hread, Hsum, Hloop. reflexivity.
  - intros dom totalAmount pids splits Hok Hne Hlen Ht Hall.
    assert (Ft : Forall (fun x => in_range (amount x) = true) [mkSplit "" totalAmount])
      by (repeat constructor; exact Ht).
    apply in_range_bound in Ft.
    inversion Ft as [|? ? [Ft' Bt'] _]; subst. cbn [amount] in Ft', Bt'.
    rewrite computeSplits_percent in Hok.
    destruct (read_inputs_cases (split_percent dom) pids) as [Hneg|Hpos].
    + rewrite read_inputs_negative in Hok by exact Hneg. discriminate.
    + rewrite read_inputs_accepted in Hok by exact Hpos.
      destruct (0.5 <? _); [discriminate|]. injection Hok as Hok.
      eapply weighted_mode_conserves; eassumption.
  - vm_compute. reflexivity.
  - vm_compute. reflexivity.
Qed.

Lemma computeSplits_percent_mode_witness :
  computeSplits Examples.percent_inputs 90 ["A"; "B"] "percent"
  = Ok ([weighted_share 90 (sum_inputs (field_table [("A", 33.33); ("B", 66.67)]) ["A"; "B"])
           (field_table [("A", 33.33); ("B", 66.67)]) "A"]
        ++ [mkSplit "B"
              (JS.toFixed2
                 (90 - sum_amounts
                         [weighted_share 90
                            (sum_inputs (field_table [("A", 33.33); ("B", 66.67)]) ["A"; "B"])
                            (field_table [("A", 33.33); ("B", 66.67)]) "A"]))])
  /\ computeSplits (mkInputs (fun _ => 0) (fun _ => -1) (fun _ => 0)) 90 ["A"] "percent"
     = Err NegativePercent
  /\ computeSplits no_inputs 90 ["A"] "percent" = Err (PercentOutOfRange 0)
  /\ conserved_in_floats 90 [mkSplit "A" 30; mkSplit "B" 60] = true.
Proof.
  destruct computeSplits_percent_mode as [Hneg [Hrange [Hok [Hsum _]]]].
  split; [|split; [|split]].
  - apply (Hok Examples.percent_inputs 90 ["A"] "B").
    + intros pid [<-|[<-|[]]]; reflexivity.
    + reflexivity.
  - apply Hneg. exists "A". split; [now left | reflexivity].
  - apply (Hrange no_inputs 90 ["A"]).
    + intros pid _. reflexivity.
    + reflexivity.
  - apply (Hsum Examples.percent_inputs 90 ["A"; "B"]).
    + vm_compute. reflexivity.
    + discriminate.
    + simpl. lia.
    + reflexivity.
    + repeat constructor.
Defined.

(* ================================================================== *)
(** ** calculateNetBalances: the keys of the result *)

Lemma NoDup_keys_lazy_init (o : JS.object) (k : string) :
  NoDup (map fst o) ->
  NoDup (map fst (match JS.get o k with None => JS.set o k 0 | Some _ => o end)).
Proof.
  intros H. destruct (JS.get o k); [exact H | now apply NoDup_keys_set].
Qed.

Lemma NoDup_keys_expense_split (payer : string) (b : JS.object) (ps : Split) :
  NoDup (map fst b) -> NoDup (map fst (expense_split payer b ps)).
Proof.
  intros H. unfold expense_split.
  repeat (apply NoDup_keys_set || apply NoDup_keys_lazy_init). exact H.
Qed.

Lemma NoDup_keys_settlement_split (payer : string) (b : JS.object) (ps : Split) :
  NoDup (map fst b) -> NoDup (map fst (settlement_split payer b ps)).
Proof.
  intros H. unfold settlement_split.
  repeat (apply NoDup_keys_set || apply NoDup_keys_lazy_init). exact H.
Qed.

Lemma NoDup_keys_fold {A : Type} (f : JS.object -> A -> JS.object) (l : list A) :
  (forall b x, NoDup (map fst b) -> NoDup (map fst (f b x))) ->
  forall b, NoDup (map fst b) -> NoDup (map fst (fold_left f l b)).
Proof.
  intros Hf. induction l as [|x l IH]; intros b H; simpl; [exact H|].
  apply IH, Hf, H.
Qed.

Lemma NoDup_keys_apply_expense (b : JS.object) (exp : Expense) :
  NoDup (map fst b) -> NoDup (map fst (apply_expense b exp)).
Proof.
  intros H. unfold apply_expense.
  destruct (_ || _); [exact H|].
  destruct (String.eqb (type exp) "settlement"); apply NoDup_keys_fold; try exact H; intros.
  - now apply NoDup_keys_settlement_split.
  - now apply NoDup_keys_expense_split.
Qed.

(** The balances are an object: no id has two balances. *)
Lemma calculateNetBalances_keys (st : AppState) :
  NoDup (map fst (calculateNetBalances st)).
Proof.
  unfold calculateNetBalances.
  apply NoDup_keys_fold; [exact NoDup_keys_apply_expense|].
  apply NoDup_keys_fold; [|constructor].
  intros b p H. now apply NoDup_keys_set.
Qed.

(** A key, once set, stays. *)
Lemma get_set_defined (o : JS.object) (k k' : string) (v : float) :
  JS.get o k' <> None -> JS.get (JS.set o k v) k' <> None.
Proof.
  intros H. destruct (String.eqb_spec k' k) as [->|Hne].
  - rewrite get_set_same. discriminate.
  - now rewrite get_set_other.
Qed.

Lemma get_expense_split_defined (payer : string) (b : JS.object) (ps : Split) (k : string) :
  JS.get b k <> None -> JS.get (expense_split payer b ps) k <> None.
Proof.
  intros H. rewrite expense_split_get.
  destruct (String.eqb k payer); [discriminate|].
  destruct (String.eqb k (personId ps)); [discriminate|exact H].
Qed.

Lemma get_settlement_split_defined (payer : string) (b : JS.object) (ps : Split) (k : string) :
  JS.get b k <> None -> JS.get (settlement_split payer b ps) k <> None.
Proof.
  intros H. rewrite settlement_split_get.
  destruct (String.eqb k (personId ps)); [discriminate|].
  destruct (String.eqb k payer); [discriminate|exact H].
Qed.

Lemma get_fold_defined {A : Type} (f : JS.object -> A -> JS.object) (l : list A) (k : string) :
  (forall b x, JS.get b k <> None -> JS.get (f b x) k <> None) ->
  forall b, JS.get b k <> None -> JS.get (fold_left f l b) k <> None.
Proof.
  intros Hf. induction l as [|x l IH]; intros b H; simpl; [exact H|].
  apply IH, Hf, H.
Qed.

Lemma get_apply_expense_defined (b : JS.object) (exp : Expense) (k : string) :
  JS.get b k <> None -> JS.get (apply_expense b exp) k <> None.
Proof.
  intros H. unfold apply_expense.
  destruct (_ || _); [exact H|].
  destruct (String.eqb (type exp) "settlement"); apply get_fold_defined; try exact H; intros.
  - now apply get_settlement_split_defined.
  - now apply get_expense_split_defined.
Qed.

Lemma get_init_people (ppl : list Person) (k : string) :
  forall b,
    JS.get (fold_left (fun b p => JS.set b (person_id p) 0) ppl b) k =
    if existsb (fun p => String.eqb (person_id p) k) ppl then Some 0 else JS.get b k.
Proof.
  induction ppl as [|p ppl IH]; intros b; simpl; [reflexivity|].
  rewrite IH. destruct (existsb _ ppl) eqn:E.
  - now rewrite orb_true_r.
  - rewrite orb_false_r. destruct (String.eqb_spec (person_id p) k) as [->|Hne].
    + apply get_set_same.
    + apply get_set_other. congruence.
Qed.

(** Every person has a balance. *)
Lemma calculateNetBalances_people (st : AppState) (p : Person) :
  In p (people st) -> JS.get (calculateNetBalances st) (person_id p) <> None.
Proof.
  intros Hin. unfold calculateNetBalances.
  apply get_fold_defined; [intros; now apply get_apply_expense_defined|].
  rewrite get_init_people.
  replace (existsb _ (people st)) with true; [discriminate|].
  symmetry. apply existsb_exists. exists p. split; [exact Hin|apply String.eqb_refl].
Qed.

(** An entry changes the balances of its payer and of its participants
    only. *)
Lemma apply_expense_frame (b : JS.object) (exp : Expense) (k : string) :
  k <> payerId exp -> ~ In k (map personId (participantSplits exp)) ->
  JS.get (apply_expense b exp) k = JS.get b k.
Proof.
  intros Hp Hk. unfold apply_expense.
  destruct (_ || _); [reflexivity|].
  assert (G : forall (f : string -> JS.object -> Split -> JS.object),
             (forall b ps, k <> personId ps -> JS.get (f (payerId exp) b ps) k = JS.get b k) ->
             forall l b, ~ In k (map personId l) ->
                         JS.get (fold_left (f (payerId exp)) l b) k = JS.get b k).
  { intros f Hf l. induction l as [|ps l IH]; intros b0 Hl; simpl; [reflexivity|].
    simpl in Hl. rewrite IH by tauto. apply Hf. intros E. apply Hl. now left. }
  destruct (String.eqb (type exp) "settlement"); apply G; try exact Hk; intros b0 ps Hps.
  - rewrite settlement_split_get.
    destruct (String.eqb_spec k (personId ps)); [contradiction|].
    destruct (String.eqb_spec k (payerId exp)); [contradiction|reflexivity].
  - rewrite expense_split_get.
    destruct (String.eqb_spec k (payerId exp)); [contradiction|].
    destruct (String.eqb_spec k (personId ps)); [contradiction|reflexivity].
Qed.

(** ** The suggested settlements *)

Lemma find_person_some (id : string) (ppl : list Person) (p : Person) :
  find_person id ppl = Some p -> In p ppl /\ person_id p = id.
Proof.
  intros H. apply find_some in H. destruct H as [Hin E].
  apply String.eqb_eq in E. tauto.
Qed.

Lemma find_person_in (p : Person) (ppl : list Person) :
  In p ppl -> find_person (person_id p) ppl <> None.
Proof.
  intros Hin H. apply (find_none _ _ H) in Hin. now rewrite String.eqb_refl in Hin.
Qed.

(** The transfers of the simplifier on an object with distinct keys. *)
Lemma transfers_between_distinct (netBalances : JS.object) :
  NoDup (map fst netBalances) ->
  exists ts,
    calculateSimplifiedDebts netBalances = Some ts
    /\ Forall (fun t => (0.01 <? pay_amount t) = true /\ fromId t <> toId t) ts.
Proof.
  intros Hnd.
  destruct (simplify_walk netBalances) as [ts [Hres Hwalk]].
  exists ts. split; [exact Hres|].
  pose proof (partition_balances_spec netBalances) as Hp. unfold JS.entries in Hp.
  rewrite Hp in Hwalk. simpl in Hwalk.
  eapply Forall_impl; [|exact (Walk_transfers _ _ _ Hwalk)]. simpl.
  intros t [Ht [Hfrom Hto]]. split; [exact Ht|].
  intros E. rewrite <- E in Hto.
  apply (creditor_not_debtor netBalances (fromId t) Hnd).
  - eapply Permutation_in; [|exact Hfrom]. apply Permutation_map, sort_perm.
  - eapply Permutation_in; [|exact Hto]. apply Permutation_map, sort_perm.
Qed.

(** X2.  Whenever [renderSuggestedSettlements] runs, the list is
    computed, on the net balances of the state it runs in; every item is
    between two different persons of the people list of that state, for an
    amount above 0.01; its "Settle Up" button, confirmed while the stored
    state is still that one, stores one more entry; and confirmed in
    another state, where one of the two persons is no longer found, it
    stores nothing.  (The list on the page can be older than the state:
    the theorem is about the state the list was computed in.) *)
Theorem suggestions_are_payable (s : Store) :
  exists l,
    renderSuggestedSettlements (engine_state s) = Some l
    /\ Forall (fun sg =>
                 (0.01 <? sug_amount sg) = true
                 /\ person_id (sug_from sg) <> person_id (sug_to sg)
                 /\ In (sug_from sg) (store_people s)
                 /\ In (sug_to sg) (store_people s)
                 /\ (forall id now today,
                       store_entries (settleUp id now today (settle_arguments sg) s)
                       = store_entries s
                         ++ [mkEntry id now
                               (handleSettleUpClick today (settle_arguments sg))])
                 /\ (forall s' id now today,
                       find_person (person_id (sug_from sg)) (store_people s') = None
                       \/ find_person (person_id (sug_to sg)) (store_people s') = None ->
                       settleUp id now today (settle_arguments sg) s' = s')) l.
Proof.
  unfold renderSuggestedSettlements.
  destruct (transfers_between_distinct _
              (calculateNetBalances_keys (engine_state s))) as [ts [Hts Hall]].
  rewrite Hts. eexists. split; [reflexivity|].
  apply Forall_flat_map. eapply Forall_impl; [|exact Hall]. cbn beta.
  intros t [Hamt Hne]. cbn [engine_state people].
  destruct (find_person (fromId t) (store_people s)) as [from|] eqn:Ef; [|constructor].
  destruct (find_person (toId t) (store_people s)) as [to|] eqn:Et; [|constructor].
  apply find_person_some in Ef as Hf. apply find_person_some in Et as Ht.
  destruct Hf as [Hfin Hfid], Ht as [Htin Htid].
  constructor; [|constructor]. cbn [sug_amount sug_from sug_to].
  repeat split; try assumption.
  - congruence.
  - intros id now today. unfold settleUp, settle_arguments.
    cbn [fromId toId sug_from sug_to sug_amount].
    rewrite Hfid, Htid, Ef, Et. reflexivity.
  - intros s' id now today Hgone. unfold settleUp, settle_arguments.
    cbn [fromId toId sug_from sug_to sug_amount].
    destruct Hgone as [-> | H]; [reflexivity|].
    rewrite H. now destruct (find_person (person_id from) (store_people s')).
Qed.

(** ** The plain object and the object of [JS.get] and [JS.set] *)

Lemma own_of_numbers (o : JS.object) (k : string) :
  Plain.own (Plain.of_numbers o) k = option_map Plain.Num (JS.get o k).
Proof.
  induction o as [|[k' v] o IH]; simpl; [reflexivity|].
  destruct (String.eqb k' k); [reflexivity|exact IH].
Qed.

Lemma ordinary_key_own (k : string) :
  JS.ordinary_key k = true ->
  existsb (String.eqb k) JS.inherited_keys = false
  /\ String.eqb k "__proto__" = false
  /\ Plain.array_index k = None.
Proof.
  unfold JS.ordinary_key. intros H. apply andb_prop in H. destruct H as [Hi Hd].
  apply negb_true_iff in Hi. split; [exact Hi|]. split.
  - destruct (String.eqb k "__proto__") eqn:E; [|reflexivity].
    apply String.eqb_eq in E. subst k. discriminate Hi.
  - unfold Plain.array_index. apply orb_prop in Hd. destruct Hd as [Hd|Hd].
    + apply String.eqb_eq in Hd. now subst k.
    + destruct (list_ascii_of_string k) as [|c rest]; [reflexivity|].
      replace (forallb JS.is_digit (c :: rest)) with false; [reflexivity|].
      symmetry. apply not_true_is_false. intros F.
      apply existsb_exists in Hd. destruct Hd as [d [Hin Hd]].
      rewrite forallb_forall in F. rewrite (F d Hin) in Hd. discriminate.
Qed.

Lemma get_of_numbers (o : JS.object) (k : string) :
  JS.ordinary_key k = true ->
  Plain.get (Plain.of_numbers o) k = option_map Plain.Num (JS.get o k).
Proof.
  intros H. destruct (ordinary_key_own k H) as (Hi & _ & _).
  unfold Plain.get. rewrite own_of_numbers, Hi. now destruct (JS.get o k).
Qed.

Lemma assign_of_numbers (o : JS.object) (k : string) (v : float) :
  Plain.assign (Plain.of_numbers o) k (Plain.Num v) = Plain.of_numbers (JS.set o k v).
Proof.
  induction o as [|[k' v'] o IH]; simpl; [reflexivity|].
  destruct (String.eqb k' k); simpl; [reflexivity|now rewrite IH].
Qed.

Lemma set_of_numbers (o : JS.object) (k : string) (v : float) :
  JS.ordinary_key k = true ->
  Plain.set (Plain.of_numbers o) k (Plain.Num v) = Plain.of_numbers (JS.set o k v).
Proof.
  intros H. destruct (ordinary_key_own k H) as (_ & Hp & Ha).
  unfold Plain.set. rewrite Hp, Ha.
  destruct (Plain.own _ k); apply assign_of_numbers.
Qed.

Lemma lazy_init_of_numbers (o : JS.object) (k : string) :
  JS.ordinary_key k = true ->
  match Plain.get (Plain.of_numbers o) k with
  | None => Plain.set (Plain.of_numbers o) k (Plain.Num 0)
  | Some _ => Plain.of_numbers o
  end
  = Plain.of_numbers (match JS.get o k with None => JS.set o k 0 | Some _ => o end).
Proof.
  intros H. rewrite (get_of_numbers o k H).
  destruct (JS.get o k); [reflexivity|]. now apply set_of_numbers.
Qed.

Lemma minus_of_numbers (g : option float) (a : float) :
  Plain.minus (option_map Plain.Num g) a = Plain.Num (JS.toNumber g - a).
Proof. now destruct g. Qed.

Lemma plus_of_numbers (g : option float) (a : float) :
  Plain.plus (option_map Plain.Num g) a = Plain.Num (JS.toNumber g + a).
Proof. now destruct g. Qed.

Lemma expense_split_of_numbers (payer : string) (b : JS.object) (ps : Split) :
  JS.ordinary_key payer = true -> JS.ordinary_key (personId ps) = true ->
  Plain.expense_split payer (Plain.of_numbers b) ps
  = Plain.of_numbers (expense_split payer b ps).
Proof.
  intros Hp Hk. unfold Plain.expense_split, expense_split. cbv zeta.
  rewrite (lazy_init_of_numbers b _ Hk).
  rewrite (get_of_numbers _ _ Hk), minus_of_numbers, (set_of_numbers _ _ _ Hk).
  rewrite (lazy_init_of_numbers _ _ Hp).
  rewrite (get_of_numbers _ _ Hp), plus_of_numbers, (set_of_numbers _ _ _ Hp).
  reflexivity.
Qed.

Lemma settlement_split_of_numbers (payer : string) (b : JS.object) (ps : Split) :
  JS.ordinary_key payer = true -> JS.ordinary_key (personId ps) = true ->
  Plain.settlement_split payer (Plain.of_numbers b) ps
  = Plain.of_numbers (settlement_split payer b ps).
Proof.
  intros Hp Hk. unfold Plain.settlement_split, settlement_split. cbv zeta.
  rewrite (get_of_numbers _ _ Hp), minus_of_numbers, (set_of_numbers _ _ _ Hp).
  rewrite (lazy_init_of_numbers _ _ Hk).
  rewrite (get_of_numbers _ _ Hk), plus_of_numbers, (set_of_numbers _ _ _ Hk).
  reflexivity.
Qed.

Lemma fold_of_numbers {A : Type} (f : Plain.object -> A -> Plain.object)
    (g : JS.object -> A -> JS.object) (ok : A -> bool) (l : list A) :
  (forall b x, ok x = true -> f (Plain.of_numbers b) x = Plain.of_numbers (g b x)) ->
  forallb ok l = true ->
  forall b, fold_left f l (Plain.of_numbers b) = Plain.of_numbers (fold_left g l b).
Proof.
  intros Hf. induction l as [|x l IH]; intros Hl b; simpl; [reflexivity|].
  simpl in Hl. apply andb_prop in Hl. destruct Hl as [Hx Hl].
  rewrite (Hf b x Hx). now apply IH.
Qed.

Lemma apply_expense_of_numbers (b : JS.object) (exp : Expense) :
  JS.ordinary_key (payerId exp)
  && forallb (fun ps => JS.ordinary_key (personId ps)) (participantSplits exp) = true ->
  Plain.apply_expense (Plain.of_numbers b) exp = Plain.of_numbers (apply_expense b exp).
Proof.
  intros H. apply andb_prop in H. destruct H as [Hp Hs].
  unfold Plain.apply_expense, apply_expense.
  destruct (_ || _); [reflexivity|].
  destruct (String.eqb (type exp) "settlement").
  - apply (fold_of_numbers _ _ (fun ps => JS.ordinary_key (personId ps))); [|exact Hs].
    intros b' ps Hk. now apply settlement_split_of_numbers.
  - apply (fold_of_numbers _ _ (fun ps => JS.ordinary_key (personId ps))); [|exact Hs].
    intros b' ps Hk. now apply expense_split_of_numbers.
Qed.

(** For a state whose ids are ordinary keys, the balances of the code are
    the object that [calculateNetBalances] builds with [JS.get] and
    [JS.set], entry for entry and in the same order. *)
Lemma calculateNetBalances_ordinary (st : AppState) :
  ordinary_ids st = true ->
  Plain.calculateNetBalances st = Plain.of_numbers (calculateNetBalances st).
Proof.
  unfold ordinary_ids. intros H. apply andb_prop in H. destruct H as [Hp He].
  unfold Plain.calculateNetBalances, calculateNetBalances. cbv zeta.
  change (@nil (string * Plain.value)) with (Plain.of_numbers []).
  rewrite (fold_of_numbers (fun b p => Plain.set b (person_id p) (Plain.Num 0))
             (fun b p => JS.set b (person_id p) 0)
             (fun p => JS.ordinary_key (person_id p)) (people st)); [|
    intros b p Hk; now apply set_of_numbers | exact Hp].
  apply (fold_of_numbers _ _
           (fun exp =>
              JS.ordinary_key (payerId exp)
              && forallb (fun ps => JS.ordinary_key (personId ps)) (participantSplits exp)));
    [|exact He].
  intros b exp Hk. now apply apply_expense_of_numbers.
Qed.

(** Outside the ordinary keys the two differ: a share for "constructor"
    leaves [NaN] where [JS.set] stores a number, a person "__proto__" gets
    no balance, and the array indices come first. *)
Lemma calculateNetBalances_with_prototype :
  Plain.calculateNetBalances
    (mkState [mkPerson "A" "A" true]
       [mkExpense "Dinner" 40 "2024-01-01" "A" [mkSplit "A" 20; mkSplit "constructor" 20]
          "" "Food" "" "expense"])
  = [("A", Plain.Num 20); ("constructor", Plain.Num nan)]
  /\ calculateNetBalances
       (mkState [mkPerson "A" "A" true]
          [mkExpense "Dinner" 40 "2024-01-01" "A" [mkSplit "A" 20; mkSplit "constructor" 20]
             "" "Food" "" "expense"])
     = [("A", 20); ("constructor", -20)]
  /\ Plain.calculateNetBalances
       (mkState [mkPerson "B" "B" true; mkPerson "__proto__" "P" false;
                 mkPerson "10" "T" false; mkPerson "7" "S" false] [])
     = [("7", Plain.Num 0); ("10", Plain.Num 0); ("B", Plain.Num 0)].
Proof. repeat split; vm_compute; reflexivity. Qed.

Lemma deletePerson_ordinary (id : string) (s : Store) :
  ordinary_ids (engine_state s) = true ->
  ordinary_ids (engine_state (deletePerson id s)) = true.
Proof.
  unfold ordinary_ids, engine_state, deletePerson.
  cbn [people expenses store_people store_entries].
  intros H. apply andb_prop in H. destruct H as [Hp He].
  rewrite He, andb_true_r. apply forallb_forall. intros p Hin.
  apply filter_In in Hin. rewrite forallb_forall in Hp. apply Hp. tauto.
Qed.

(** ** deletePerson and the balances *)

Lemma agree_but_balance (id : string) (o o' : JS.object) (k : string) :
  agree_but id o o' -> balance_or_zero o k = balance_or_zero o' k.
Proof.
  intros [H1 H2]. destruct (String.eqb_spec k id) as [->|Hne]; [exact H2|].
  unfold balance_or_zero. now rewrite H1.
Qed.

Lemma agree_but_expense_split (id payer : string) (o o' : JS.object) (ps : Split) :
  agree_but id o o' ->
  agree_but id (expense_split payer o ps) (expense_split payer o' ps).
Proof.
  intros H. pose proof (agree_but_balance id o o') as B. destruct H as [H1 H2].
  assert (G : forall k, k <> id \/ True ->
              (k <> id -> JS.get (expense_split payer o ps) k
                          = JS.get (expense_split payer o' ps) k)
              /\ balance_or_zero (expense_split payer o ps) k
                 = balance_or_zero (expense_split payer o' ps) k).
  { intros k _. unfold balance_or_zero. rewrite !expense_split_get.
    rewrite !(B payer), !(B (personId ps)) by (split; assumption).
    destruct (String.eqb k payer); [split; reflexivity|].
    destruct (String.eqb k (personId ps)); [split; reflexivity|].
    split.
    - intros Hk. now apply H1.
    - apply (B k). split; assumption. }
  split.
  - intros k Hk. now apply G; [left|].
  - apply G. now right.
Qed.

Lemma agree_but_settlement_split (id payer : string) (o o' : JS.object) (ps : Split) :
  payer <> id -> agree_but id o o' ->
  agree_but id (settlement_split payer o ps) (settlement_split payer o' ps).
Proof.
  intros Hp H. pose proof (agree_but_balance id o o') as B. destruct H as [H1 H2].
  assert (G : forall k,
              (k <> id -> JS.get (settlement_split payer o ps) k
                          = JS.get (settlement_split payer o' ps) k)
              /\ balance_or_zero (settlement_split payer o ps) k
                 = balance_or_zero (settlement_split payer o' ps) k).
  { intros k. unfold balance_or_zero. rewrite !settlement_split_get.
    rewrite (H1 payer Hp), !(B (personId ps)) by (split; assumption).
    destruct (String.eqb k (personId ps)); [split; reflexivity|].
    destruct (String.eqb k payer); [split; reflexivity|].
    split.
    - intros Hk. now apply H1.
    - apply (B k). split; assumption. }
  split.
  - intros k Hk. now apply G.
  - apply G.
Qed.

Lemma agree_but_fold (id : string) (f : JS.object -> Split -> JS.object) (l : list Split) :
  (forall o o' ps, agree_but id o o' -> agree_but id (f o ps) (f o' ps)) ->
  forall o o', agree_but id o o' -> agree_but id (fold_left f l o) (fold_left f l o').
Proof.
  intros Hf. induction l as [|ps l IH]; intros o o' H; simpl; [exact H|].
  apply IH, Hf, H.
Qed.

Lemma agree_but_apply_expense (id : string) (o o' : JS.object) (exp : Expense) :
  pays_no_settlement id exp -> agree_but id o o' ->
  agree_but id (apply_expense o exp) (apply_expense o' exp).
Proof.
  intros Hs H. unfold apply_expense.
  destruct (_ || _); [exact H|].
  destruct (String.eqb_spec (type exp) "settlement") as [E|_]; apply agree_but_fold;
    try exact H; intros.
  - apply agree_but_settlement_split; [exact (Hs E)|assumption].
  - now apply agree_but_expense_split.
Qed.

Lemma existsb_filter_other (id k : string) (ppl : list Person) :
  k <> id ->
  existsb (fun p => String.eqb (person_id p) k)
    (filter (fun p => negb (String.eqb (person_id p) id)) ppl)
  = existsb (fun p => String.eqb (person_id p) k) ppl.
Proof.
  intros Hne. induction ppl as [|p ppl IH]; simpl; [reflexivity|].
  destruct (String.eqb_spec (person_id p) id) as [E|E]; simpl; rewrite IH; [|reflexivity].
  destruct (String.eqb_spec (person_id p) k); [congruence|reflexivity].
Qed.

Lemma agree_but_init (id : string) (ppl : list Person) :
  agree_but id
    (fold_left (fun b p => JS.set b (person_id p) 0)
       (filter (fun p => negb (String.eqb (person_id p) id)) ppl) [])
    (fold_left (fun b p => JS.set b (person_id p) 0) ppl []).
Proof.
  split.
  - intros k Hk. rewrite !get_init_people. now rewrite existsb_filter_other.
  - unfold balance_or_zero. rewrite !get_init_people.
    now destruct (existsb _ _), (existsb _ _).
Qed.

Lemma agree_but_entries (id : string) (es : list Expense) :
  Forall (pays_no_settlement id) es ->
  forall b b', agree_but id b b' ->
               agree_but id (fold_left apply_expense es b) (fold_left apply_expense es b').
Proof.
  induction 1 as [|e es He Hes IH]; intros b b' H0; simpl; [exact H0|].
  apply IH. now apply agree_but_apply_expense.
Qed.

(** X3.  In a state whose ids are ordinary keys, where the balances of
    the code, before and after, are those of [calculateNetBalances]:
    deleting a person who is not the payer of a settlement keeps every
    stored entry and changes nobody's balance: the balance of every id,
    read with a missing one as 0, is the same before and after, and so is
    the balance entry of every other id.  (The deleted person keeps a
    balance entry as soon as an entry names them.) *)
Theorem deletePerson_keeps_balances (id : string) (s : Store) :
  ordinary_ids (engine_state s) = true ->
  Forall (fun e => pays_no_settlement id (entry e)) (store_entries s) ->
  Plain.calculateNetBalances (engine_state s)
  = Plain.of_numbers (calculateNetBalances (engine_state s))
  /\ Plain.calculateNetBalances (engine_state (deletePerson id s))
     = Plain.of_numbers (calculateNetBalances (engine_state (deletePerson id s)))
  /\ store_entries (deletePerson id s) = store_entries s
  /\ forall k,
      balance_or_zero (calculateNetBalances (engine_state (deletePerson id s))) k
      = balance_or_zero (calculateNetBalances (engine_state s)) k
      /\ (k <> id ->
          JS.get (calculateNetBalances (engine_state (deletePerson id s))) k
          = JS.get (calculateNetBalances (engine_state s)) k).
Proof.
  intros Hord Hall.
  split; [now apply calculateNetBalances_ordinary|].
  split; [now apply calculateNetBalances_ordinary, deletePerson_ordinary|].
  split; [reflexivity|].
  assert (A : agree_but id (calculateNetBalances (engine_state (deletePerson id s)))
                (calculateNetBalances (engine_state s))).
  { unfold calculateNetBalances, engine_state, deletePerson.
    cbn [people expenses store_people store_entries].
    apply agree_but_entries; [|apply agree_but_init].
    apply Forall_map. exact Hall. }
  intros k. split; [now apply (agree_but_balance id)|].
  intros Hk. now apply A.
Qed.

Lemma deletePerson_keeps_balances_witness :
  ordinary_ids
    (engine_state (mkStore Examples.abc [] [mkEntry "e1" "t" Examples.expense60])) = true
  /\ balance_or_zero
       (calculateNetBalances
          (engine_state
             (deletePerson "B"
                (mkStore Examples.abc [] [mkEntry "e1" "t" Examples.expense60]))))
       "B"
     = balance_or_zero
         (calculateNetBalances
            (engine_state (mkStore Examples.abc [] [mkEntry "e1" "t" Examples.expense60])))
         "B".
Proof.
  split; [reflexivity|].
  apply (deletePerson_keeps_balances "B"
           (mkStore Examples.abc [] [mkEntry "e1" "t" Examples.expense60])).
  - reflexivity.
  - repeat constructor. intros H. discriminate H.
Defined.

(** ** deleteGroup, deleteExpense and the form *)

Lemma apply_expense_clear_group (b : JS.object) (e : Entry) :
  apply_expense b (entry (clear_group e)) = apply_expense b (entry e).
Proof. reflexivity. Qed.


Lemma filter_all {A : Type} (f : A -> bool) (l : list A) :
  Forall (fun x => f x = true) l -> filter f l = l.
Proof.
  induction 1 as [|x l Hx Hl IH]; simpl; [reflexivity|]. now rewrite Hx, IH.
Qed.

(** X5.  Recording a suggested settlement and then deleting that entry
    gives the stored state back, when the id given to the entry was not in
    use. *)
Theorem settleUp_then_delete (id now today : string) (t : Settlement) (s : Store) :
  ~ In id (map entry_id (store_entries s)) ->
  deleteExpense id (settleUp id now today t s) = s.
Proof.
  intros Hfresh.
  assert (Keep : filter (fun e => negb (String.eqb (entry_id e) id)) (store_entries s)
                 = store_entries s).
  { apply filter_all. apply Forall_forall. intros e He.
    apply negb_true_iff, String.eqb_neq. intros E. apply Hfresh.
    apply in_map_iff. now exists e. }
  unfold settleUp.
  destruct (find_person (fromId t) (store_people s)), (find_person (toId t) (store_people s));
    unfold deleteExpense; cbn [store_people store_groups store_entries];
    rewrite ?filter_app, Keep; cbn [filter entry_id]; rewrite ?String.eqb_refl;
    cbn [negb]; rewrite ?app_nil_r; now destruct s.
Qed.

Lemma settleUp_then_delete_witness :
  deleteExpense "s1" (settleUp "s1" "now" "today" (mkSettlement "B" "A" 20)
                        (mkStore Examples.abc [] [mkEntry "e1" "t" Examples.expense60]))
  = mkStore Examples.abc [] [mkEntry "e1" "t" Examples.expense60].
Proof.
  apply settleUp_then_delete. simpl. intros [H|[]]. discriminate H.
Defined.

Lemma assign_first_ids (id : string) (data : Expense) (l : list Entry) :
  map entry_id (assign_first id data l) = map entry_id l
  /\ map createdAt (assign_first id data l) = map createdAt l.
Proof.
  induction l as [|e l [IH1 IH2]]; simpl; [split; reflexivity|].
  destruct (String.eqb (entry_id e) id); simpl; [split; reflexivity|].
  now rewrite IH1, IH2.
Qed.

Lemma assign_first_absent (id : string) (data : Expense) (l : list Entry) :
  ~ In id (map entry_id l) -> assign_first id data l = l.
Proof.
  induction l as [|e l IH]; simpl; intros H; [reflexivity|].
  destruct (String.eqb_spec (entry_id e) id) as [E|E]; [tauto|].
  rewrite IH by tauto. reflexivity.
Qed.

Lemma assign_first_types (id : string) (data : Expense) (l : list Entry) (e : Entry) :
  In e (assign_first id data l) -> In e l \/ (entry e = data /\ entry_id e = id).
Proof.
  induction l as [|e0 l IH]; simpl; [tauto|].
  destruct (String.eqb_spec (entry_id e0) id) as [E|E]; simpl.
  - intros [<-|H]; [right; now split|tauto].
  - intros [<-|H]; [tauto|]. destruct (IH H); tauto.
Qed.

Lemma weighted_forEach_ids (totalAmount totalWeight : float) (input : string -> float)
    (pids : list string) :
  map personId
    (weighted_forEach totalAmount totalWeight
       (List.length (map (fun pid => mkSplit pid (input pid)) pids))
       (map (fun pid => mkSplit pid (input pid)) pids) 0 0 [])
  = pids.
Proof.
  destruct pids as [|p ps]; [reflexivity|].
  destruct (last_split (p :: ps) ltac:(discriminate)) as [init [last ->]].
  rewrite weighted_splits, map_app, map_map. cbn [map personId weighted_share].
  now rewrite map_id.
Qed.

Lemma computeSplits_ids (dom : SplitInputs) (totalAmount : float)
    (participantIds : list string) (splitType : string) (splits : list Split) :
  computeSplits dom totalAmount participantIds splitType = Ok splits ->
  map personId splits = participantIds.
Proof.
  unfold computeSplits.
  destruct (String.eqb splitType "equal").
  { intros [= <-]. destruct participantIds as [|p ps]; [reflexivity|].
    rewrite equal_forEach_first. cbn [map personId]. now rewrite map_map, map_id. }
  destruct (String.eqb splitType "exact").
  { destruct (read_inputs_cases (split_amount dom) participantIds) as [Hneg|Hpos].
    - rewrite read_inputs_negative by exact Hneg. discriminate.
    - rewrite read_inputs_accepted by exact Hpos. destruct (0.01 <? _); [discriminate|].
      intros [= <-]. cbn [app]. now rewrite map_map, map_id. }
  destruct (String.eqb splitType "percent").
  { destruct (read_inputs_cases (split_percent dom) participantIds) as [Hneg|Hpos].
    - rewrite read_inputs_negative by exact Hneg. discriminate.
    - rewrite read_inputs_accepted by exact Hpos. destruct (0.5 <? _); [discriminate|].
      intros [= <-]. cbn [app]. apply weighted_forEach_ids. }
  destruct (String.eqb splitType "shares"); [|discriminate].
  destruct (read_inputs_cases (split_shares dom) participantIds) as [Hneg|Hpos].
  - rewrite read_inputs_negative by exact Hneg. discriminate.
  - rewrite read_inputs_accepted by exact Hpos. destruct (_ <=? 0); [discriminate|].
    intros [= <-]. cbn [app]. apply weighted_forEach_ids.
Qed.

(** X6.  Whatever the mode, a successful [computeSplits] returns one share
    per participant, in the order of the participants: as many shares as
    participants, none left out and none twice. *)
Theorem computeSplits_one_share_each (dom : SplitInputs) (totalAmount : float)
    (participantIds : list string) (splitType : string) (splits : list Split) :
  computeSplits dom totalAmount participantIds splitType = Ok splits ->
  map personId splits = participantIds
  /\ List.length splits = List.length participantIds.
Proof.
  intros H. apply computeSplits_ids in H. split; [exact H|].
  now rewrite <- H, length_map.
Qed.

Lemma computeSplits_one_share_each_witness :
  map personId [mkSplit "A" 33.34; mkSplit "B" 33.33; mkSplit "C" 33.33] = ["A"; "B"; "C"]
  /\ List.length [mkSplit "A" 33.34; mkSplit "B" 33.33; mkSplit "C" 33.33]
     = List.length ["A"; "B"; "C"].
Proof.
  apply (computeSplits_one_share_each no_inputs 100 ["A"; "B"; "C"] "equal").
  vm_compute. reflexivity.
Defined.

Lemma upsertExpenseFromForm_stored (f : ExpenseForm) (exp : Expense) :
  upsertExpenseFromForm f = Stored exp ->
  type exp = "expense"
  /\ payerId exp = form_payerId f /\ payerId exp <> ""
  /\ map personId (participantSplits exp) = form_participantIds f
  /\ form_participantIds f <> []
  /\ exp_amount exp = form_amount f /\ (0 <? exp_amount exp) = true.
Proof.
  unfold upsertExpenseFromForm.
  destruct (String.eqb (form_description f) ""); [discriminate|].
  destruct (0 <? form_amount f) eqn:Ea; [|discriminate]. cbn [negb].
  destruct (String.eqb (form_date f) ""); [discriminate|].
  destruct (String.eqb_spec (form_payerId f) ""); [discriminate|].
  destruct (Nat.eqb_spec (List.length (form_participantIds f)) 0); [discriminate|].
  destruct (computeSplits _ _ _ _) as [splits|err] eqn:Ec; [|discriminate].
  intros [= <-]. cbn. repeat split; try assumption; try reflexivity.
  - now apply computeSplits_ids in Ec.
  - intros E. rewrite E in *. simpl in *. congruence.
Qed.

(** X7.  Editing an expense through the form keeps the ids, the order and
    the creation times of the stored entries, and touches neither people nor
    groups; with an id that no entry has, it stores nothing at all, whatever
    the form holds. *)
Theorem submitExpense_edit (form_id fresh now : string) (f : ExpenseForm) (s : Store) :
  form_id <> "" ->
  let s' := snd (submitExpense form_id fresh now f s) in
  map entry_id (store_entries s') = map entry_id (store_entries s)
  /\ map createdAt (store_entries s') = map createdAt (store_entries s)
  /\ store_people s' = store_people s /\ store_groups s' = store_groups s
  /\ (~ In form_id (map entry_id (store_entries s)) -> s' = s).
Proof.
  intros Hid. unfold submitExpense.
  destruct (upsertExpenseFromForm f) as [sel msg|err|exp]; cbn [snd]; try tauto.
  destruct (String.eqb_spec form_id ""); [contradiction|].
  cbn [store_entries store_people store_groups].
  destruct (assign_first_ids form_id exp (store_entries s)) as [H1 H2].
  repeat split; try assumption.
  intros Habs. rewrite assign_first_absent by exact Habs. now destruct s.
Qed.

Lemma submitExpense_edit_witness :
  let s := mkStore Examples.abc [] [mkEntry "e1" "t" Examples.expense60] in
  let f := mkForm "Taxi" 30 "2024-02-01" "B" "" "Travel" "" "equal" ["A"; "B"] no_inputs in
  let s' := snd (submitExpense "e1" "e2" "t2" f s) in
  map entry_id (store_entries s') = map entry_id (store_entries s)
  /\ map createdAt (store_entries s') = map createdAt (store_entries s)
  /\ store_people s' = store_people s /\ store_groups s' = store_groups s
  /\ (~ In "e1" (map entry_id (store_entries s)) -> s' = s).
Proof.
  intros s f. apply (submitExpense_edit "e1" "e2" "t2" f s). discriminate.
Defined.

Lemma fold_expense_split_defined (payer : string) (l : list Split) (k : string) :
  forall b,
    (l <> [] /\ k = payer) \/ In k (map personId l) -> 
    JS.get (fold_left (expense_split payer) l b) k <> None.
Proof.
  induction l as [|ps l IH]; intros b H; simpl.
  - destruct H as [[H _]|[]]. congruence.
  - assert (Now : k = payer \/ k = personId ps ->
                  JS.get (expense_split payer b ps) k <> None).
    { intros Hk. rewrite expense_split_get.
      destruct (String.eqb_spec k payer); [discriminate|].
      destruct (String.eqb_spec k (personId ps)); [discriminate|]. tauto. }
    assert (Keep : JS.get (expense_split payer b ps) k <> None ->
                   JS.get (fold_left (expense_split payer) l (expense_split payer b ps)) k
                   <> None).
    { apply get_fold_defined. intros. now apply get_expense_split_defined. }
    simpl in H. destruct H as [[_ ->]|[<-|H]].
    + apply Keep, Now. now left.
    + apply Keep, Now. now right.
    + apply IH. now right.
Qed.

(** X8.  An expense that the form accepts is taken into account: once the
    new entry is stored, and the ids of the state are ordinary keys (so
    that the balances of the code are those of [calculateNetBalances]),
    the net balances hold a balance for its payer and for each of the
    selected participants. *)
Theorem submitted_expense_is_counted (fresh now : string) (f : ExpenseForm) (s s' : Store)
    (exp : Expense) :
  submitExpense "" fresh now f s = (Stored exp, s') ->
  ordinary_ids (engine_state s') = true ->
  Plain.calculateNetBalances (engine_state s')
  = Plain.of_numbers (calculateNetBalances (engine_state s'))
  /\ store_entries s' = store_entries s ++ [mkEntry fresh now exp]
  /\ forall k, In k (form_payerId f :: form_participantIds f) ->
               JS.get (calculateNetBalances (engine_state s')) k <> None.
Proof.
  unfold submitExpense.
  destruct (upsertExpenseFromForm f) as [sel msg|err|exp'] eqn:E; try discriminate.
  intros [= <- <-] Hord. split; [now apply calculateNetBalances_ordinary|].
  clear Hord. cbn [String.eqb store_entries]. split; [reflexivity|].
  destruct (upsertExpenseFromForm_stored f exp' E) as (Ht & Hp & Hpne & Hids & Hne & _).
  intros k Hk. unfold engine_state. cbn [store_people store_entries].
  rewrite map_app. cbn [map entry]. rewrite calculateNetBalances_snoc.
  unfold apply_expense.
  destruct (String.eqb_spec (payerId exp') ""); [contradiction|].
  assert (Hl : participantSplits exp' <> []).
  { intros El. rewrite El in Hids. simpl in Hids. congruence. }
  destruct (Nat.eqb_spec (List.length (participantSplits exp')) 0) as [El|_].
  { destruct (participantSplits exp'); [congruence|discriminate]. }
  cbn [orb]. rewrite Ht. cbn [String.eqb Ascii.eqb Bool.eqb].
  apply fold_expense_split_defined. rewrite Hids, Hp.
  destruct Hk as [<-|Hk]; [left; now split|now right].
Qed.

Lemma submitted_expense_is_counted_witness :
  let s := mkStore Examples.abc [] [] in
  let f := mkForm "Taxi" 30 "2024-02-01" "B" "" "Travel" "" "equal" ["A"; "D"] no_inputs in
  exists exp s',
    submitExpense "" "e2" "t2" f s = (Stored exp, s')
    /\ ordinary_ids (engine_state s') = true
    /\ JS.get (calculateNetBalances (engine_state s')) "D" <> None.
Proof.
  intros s f. eexists. eexists. split; [vm_compute; reflexivity|].
  split; [vm_compute; reflexivity|].
  eapply (submitted_expense_is_counted "e2" "t2" f s);
    [vm_compute; reflexivity|vm_compute; reflexivity|].
  simpl. tauto.
Defined.

(** ** upsertPersonFromForm *)

Lemma filter_isYou_cleared (ppl : list Person) :
  filter isYou (map (fun p => mkPerson (person_id p) (name p) false) ppl) = [].
Proof. induction ppl as [|p ppl IH]; simpl; [reflexivity|exact IH]. Qed.

Lemma assign_person_you (id nm : string) (you : bool) (ppl : list Person) :
  (List.length (filter isYou (assign_person id nm you ppl))
   <= List.length (filter isYou ppl) + (if you then 1 else 0))%nat.
Proof.
  induction ppl as [|p ppl IH]; simpl; [lia|].
  destruct (String.eqb (person_id p) id); simpl.
  - destruct you, (isYou p); simpl; lia.
  - destruct (isYou p); simpl; lia.
Qed.

(** X9.  The form keeps at most one person marked "you": if at most one
    is marked before a submission, at most one is marked after it. *)
Theorem upsertPerson_one_you (form_id fresh form_name : string) (form_isYou : bool)
    (ppl : list Person) :
  (List.length (filter isYou ppl) <= 1)%nat ->
  (List.length (filter isYou (upsertPerson form_id fresh form_name form_isYou ppl)) <= 1)%nat.
Proof.
  intros H. unfold upsertPerson.
  destruct (String.eqb form_name ""); [exact H|].
  destruct form_isYou.
  - destruct (String.eqb form_id "").
    + rewrite filter_app, filter_isYou_cleared. simpl. lia.
    + pose proof (assign_person_you form_id form_name true
                    (map (fun p => mkPerson (person_id p) (name p) false) ppl)) as A.
      rewrite filter_isYou_cleared in A. simpl in A. exact A.
  - destruct (String.eqb form_id "").
    + rewrite filter_app. simpl. rewrite app_nil_r. exact H.
    + pose proof (assign_person_you form_id form_name false ppl) as A. simpl in A. lia.
Qed.

Lemma upsertPerson_one_you_witness :
  (List.length (filter isYou (upsertPerson "B" "p9" "Bea" true Examples.abc)) <= 1)%nat.
Proof.
  apply upsertPerson_one_you. simpl. lia.
Defined.

(** ** calculateSimplifiedDebts: how many transfers *)

Lemma advance_length (p : Party) (r : float) (rest : list Party) :
  (List.length (advance p r rest) <= S (List.length rest))%nat.
Proof. unfold advance. destruct (r <=? 0.01); simpl; lia. Qed.

Lemma advance_kept (p : Party) (r : float) (rest : list Party) :
  (r <=? 0.01) = false -> advance p r rest = mkParty (party_id p) r :: rest.
Proof. unfold advance. now intros ->. Qed.

Lemma advance_passed (p : Party) (r : float) (rest : list Party) :
  (r <=? 0.01) = true -> advance p r rest = rest.
Proof. unfold advance. now intros ->. Qed.

Lemma Walk_count (ds cs : list Party) (ts : list Settlement) :
  Walk ds cs ts ->
  ts = [] \/ (List.length ts + 1 <= List.length ds + List.length cs)%nat.
Proof.
  induction 1 as [cs|ds|d ds c cs Hn|d ds c cs pay ts Hpay Habove W IH];
    try (left; reflexivity).
  right. cbn [List.length].
  destruct (party_amount d - pay <=? 0.01) eqn:Ed;
    destruct (party_amount c - pay <=? 0.01) eqn:Ec;
    rewrite ?(advance_kept _ _ _ Ed), ?(advance_kept _ _ _ Ec),
      ?(advance_passed _ _ _ Ed), ?(advance_passed _ _ _ Ec) in *;
    cbn [List.length] in *.
  - destruct IH as [->|IH]; simpl; lia.
  - destruct IH as [->|IH]; simpl; lia.
  - destruct IH as [->|IH]; simpl; lia.
  - (* neither pointer moves: one of the two amounts is NaN, the walk ends *)
    assert (Hnan : party_amount d - pay = nan \/ party_amount c - pay = nan).
    { rewrite Hpay in Habove.
      destruct (pay_is_one_of _ _ Habove) as [E|E]; rewrite <- Hpay in E; rewrite E in *.
      - left. destruct (sub_diag (party_amount d)) as [Z|Z]; [|exact Z].
        rewrite Z in Ed. discriminate.
      - right. destruct (sub_diag (party_amount c)) as [Z|Z]; [|exact Z].
        rewrite Z in Ec. discriminate. }
    inversion W as [| |? ? ? ? ?|? ? ? ? pay' ? Hp' Ha' ?]; subst; simpl; try lia.
    exfalso. simpl in Ha'.
    destruct Hnan as [E|E]; rewrite E in Ha';
      rewrite ?Math_min_nan_l, ?Math_min_nan_r in Ha'; discriminate.
Qed.

Lemma partition_lengths (balances : JS.object) :
  (List.length (spec_debtors balances) + List.length (spec_creditors balances)
   <= List.length balances)%nat.
Proof.
  unfold spec_debtors, spec_creditors. rewrite !length_map.
  induction balances as [|[k b] o IH]; simpl; [lia|].
  destruct (0.01 <? b) eqn:E.
  - rewrite (above_not_below b E). simpl. lia.
  - destruct (b <? -0.01); simpl; lia.
Qed.

(** X10.  The simplifier always returns, and it returns no transfer or
    fewer transfers than there are people with an open balance: with [d]
    debtors and [c] creditors, [n] transfers with [n + 1 <= d + c], hence
    fewer than there are balances. *)
Theorem simplifier_transfer_count (netBalances : JS.object) :
  exists ts,
    calculateSimplifiedDebts netBalances = Some ts
    /\ (ts = []
        \/ (List.length ts + 1
             <= List.length (spec_debtors netBalances)
                + List.length (spec_creditors netBalances))%nat
           /\ (List.length ts < List.length netBalances)%nat).
Proof.
  destruct (simplify_walk netBalances) as [ts [Hts W]].
  exists ts. split; [exact Hts|].
  pose proof (partition_balances_spec netBalances) as P. unfold JS.entries in P.
  rewrite P in W. cbn [fst snd] in W.
  apply Walk_count in W.
  rewrite !(Permutation_length (sort_perm _ _)) in W.
  pose proof (partition_lengths netBalances).
  destruct W as [->|W]; [now left|right; lia].
Qed.

Lemma sort_nil_iff (l : list Party) : JS.sort by_amount_desc l = [] <-> l = [].
Proof.
  split; [|now intros ->].
  intros H. pose proof (Permutation_length (sort_perm by_amount_desc l)) as L.
  rewrite H in L. destruct l; [reflexivity|discriminate].
Qed.

Lemma abs_le_not_above (b : float) :
  (JS.Math_abs b <=? 0.01) = true -> (0.01 <? b) = false.
Proof.
  unfold JS.Math_abs. rewrite leb_spec, ltb_spec, abs_spec. unfold SFleb, SFltb.
  change (Prim2SF 0.01) with (S754_finite false 5764607523034235 (-59)).
  generalize 5764607523034235%positive (-59)%Z. intros mc ec.
  destruct (Prim2SF b) as [[]|[]| |[] m e]; cbn [SFabs]; try reflexivity;
    try (cbn [SFcompare]; congruence).
  rewrite (SFcompare_antisym (S754_finite false mc ec) (S754_finite false m e)).
  destruct (SFcompare (S754_finite false mc ec) (S754_finite false m e)) as [[]|];
    simpl; congruence.
Qed.

(** X11.  The simplifier suggests nothing exactly when nobody is owed more
    than 0.01 or nobody owes more than 0.01; in particular when every
    balance is within 0.01 of zero. *)
Theorem no_transfer_iff_one_side_empty (netBalances : JS.object) :
  (calculateSimplifiedDebts netBalances = Some []
   <-> spec_creditors netBalances = [] \/ spec_debtors netBalances = [])
  /\ (all_within_cent netBalances = true -> calculateSimplifiedDebts netBalances = Some []).
Proof.
  destruct (simplify_walk netBalances) as [ts [Hts W]].
  pose proof (partition_balances_spec netBalances) as P. unfold JS.entries in P.
  rewrite P in W. cbn [fst snd] in W.
  assert (Iff : calculateSimplifiedDebts netBalances = Some []
                <-> spec_creditors netBalances = [] \/ spec_debtors netBalances = []).
  { rewrite Hts. split.
    - intros [= ->].
      inversion W as [cs E1 E2|ds E1 E2|d ds c cs Hn E1 E2|].
      + right. now apply sort_nil_iff.
      + left. now apply sort_nil_iff.
      + exfalso.
        assert (Hd : In d (spec_debtors netBalances)).
        { apply (Permutation_in _ (sort_perm by_amount_desc _)). rewrite <- E1. now left. }
        assert (Hc : In c (spec_creditors netBalances)).
        { apply (Permutation_in _ (sort_perm by_amount_desc _)). rewrite <- E2. now left. }
        pose proof (proj1 (Forall_forall _ _) (spec_debtors_above netBalances) d Hd) as Ad.
        pose proof (proj1 (Forall_forall _ _) (spec_creditors_above netBalances) c Hc) as Ac.
        rewrite (Math_min_above _ _ Ad Ac) in Hn. discriminate.
    - intros [E|E]; apply (proj2 (sort_nil_iff _)) in E; rewrite E in W;
        inversion W; subst; reflexivity. }
  split; [exact Iff|].
  intros H. apply Iff. left. unfold spec_creditors.
  induction netBalances as [|[k b] o IH] in H |- *; [reflexivity|].
  simpl in H. apply andb_prop in H. destruct H as [Hb Ho]. simpl.
  destruct (0.01 <? b) eqn:E; [|now apply IH].
  rewrite (abs_le_not_above b Hb) in E. discriminate.
Qed.

(** ** renderDashboard *)

Lemma ltb_asym (x y : float) : (x <? y) = true -> (y <? x) = false.
Proof.
  rewrite !ltb_spec. unfold SFltb. rewrite (SFcompare_antisym (Prim2SF x) (Prim2SF y)).
  destruct (SFcompare (Prim2SF x) (Prim2SF y)) as [[]|]; simpl; congruence.
Qed.

Lemma negative_opp_positive (b : float) : (b <? 0) = true -> (0 <? - b) = true.
Proof.
  rewrite !ltb_spec, opp_spec. unfold SFltb.
  change (Prim2SF 0) with (S754_zero false).
  destruct (Prim2SF b) as [[]|[]| |[] m e]; cbn [SFopp SFcompare negb]; congruence.
Qed.

Lemma opp_above (b : float) :
  (b <? 0) = true -> (0.01 <? abs b) = true -> (0.01 <? - b) = true.
Proof.
  rewrite !ltb_spec, opp_spec, abs_spec. unfold SFltb.
  change (Prim2SF 0) with (S754_zero false).
  generalize (Prim2SF 0.01). intros c.
  destruct (Prim2SF b) as [[]|[]| |[] m e]; cbn [SFabs SFopp negb];
    try congruence; cbn [SFcompare]; congruence.
Qed.

Lemma abs_above_sign (b : float) :
  (0.01 <? abs b) = true -> (b <? 0) = negb (0 <? b).
Proof.
  rewrite !ltb_spec, abs_spec. unfold SFltb.
  change (Prim2SF 0) with (S754_zero false).
  change (Prim2SF 0.01) with (S754_finite false 5764607523034235 (-59)).
  generalize 5764607523034235%positive (-59)%Z. intros mc ec.
  destruct (Prim2SF b) as [[]|[]| |[] m e]; cbn [SFabs SFcompare negb];
    congruence.
Qed.

Lemma positive_abs (b : float) :
  (0 <? b) = true -> (0.01 <? abs b) = true -> (0.01 <? b) = true.
Proof.
  rewrite !ltb_spec, abs_spec. unfold SFltb.
  change (Prim2SF 0) with (S754_zero false).
  generalize (Prim2SF 0.01). intros c.
  destruct (Prim2SF b) as [[]|[]| |[] m e]; cbn [SFabs];
    try congruence; cbn [SFcompare]; congruence.
Qed.

(** X12.  The two totals at the top of the dashboard are numbers that are
    never negative and never [NaN], and at most one of them is not zero:
    nobody is shown as both owing and being owed. *)
Theorem dashboard_totals_exclusive (st : AppState) :
  (0 <=? fst (dashboard_totals st)) = true
  /\ (0 <=? snd (dashboard_totals st)) = true
  /\ (fst (dashboard_totals st) = 0 \/ snd (dashboard_totals st) = 0).
Proof.
  unfold dashboard_totals.
  destruct (find isYou (people st)) as [you|]; [|cbn; repeat split; now left].
  cbv zeta.
  set (b := balance_or (JS.get (calculateNetBalances st) (person_id you))).
  destruct (0 <? b) eqn:P; cbn [fst snd].
  - rewrite (ltb_asym _ _ P). repeat split; [now apply ltb_leb | now right].
  - destruct (b <? 0) eqn:N; repeat split; try (now left).
    apply ltb_leb, negative_opp_positive, N.
Qed.

(** X13.  Every card of the per-person list names a person of the state,
    shows an amount above 0.01 (never a negative number or [NaN]), and its
    class agrees with its sentence: it has the class "owes" exactly when it
    reads "NAME owes others". *)
Theorem person_balance_cards_consistent (st : AppState) :
  Forall (fun c =>
            (0.01 <? card_amount c) = true
            /\ card_owes c = negb (card_others_owe c)
            /\ exists p, In p (people st) /\ name p = card_name c)
    (person_balance_cards st).
Proof.
  unfold person_balance_cards. apply Forall_forall. intros c Hc.
  apply in_flat_map in Hc. destruct Hc as [[k b] [Hin Hc]].
  apply filter_In in Hin. destruct Hin as [_ Habs]. cbn [fst snd] in *.
  unfold JS.Math_abs in Habs.
  destruct (find_person k (people st)) as [p|] eqn:F; [|contradiction].
  destruct Hc as [<-|[]]. cbn [card_amount card_owes card_others_owe card_name].
  pose proof (abs_above_sign b Habs) as S.
  split; [|split].
  - destruct (0 <? b) eqn:P.
    + now apply positive_abs.
    + apply opp_above; [|exact Habs]. rewrite S. reflexivity.
  - exact S.
  - exists p. split; [|reflexivity]. exact (proj1 (find_person_some _ _ _ F)).
Qed.

(** ** renderGroupBalances *)

Lemma apply_group_expense_eq (b : JS.object) (exp : Expense) :
  apply_group_expense b exp = apply_expense b exp.
Proof.
  unfold apply_group_expense, apply_expense.
  destruct (String.eqb (payerId exp) ""); [reflexivity|].
  destruct (participantSplits exp) as [|ps l]; simpl; [|reflexivity].
  now destruct (String.eqb (type exp) "settlement").
Qed.

Lemma fold_apply_group_expense (es : list Expense) :
  forall b, fold_left apply_group_expense es b = fold_left apply_expense es b.
Proof.
  induction es as [|e es IH]; intros b; simpl; [reflexivity|].
  now rewrite apply_group_expense_eq, IH.
Qed.

Lemma fold_members (ids : list string) :
  forall b,
    fold_left (fun b p => JS.set b (person_id p) 0)
      (map (fun id => mkPerson id "" false) ids) b
    = fold_left (fun b id => JS.set b id 0) ids b.
Proof. induction ids as [|i ids IH]; intros b; simpl; [reflexivity|apply IH]. Qed.

(** X14.  The balances of a group's summary are the net balances of the
    state made of the group's members and the group's entries: the copy of
    the balance loop in [renderGroupBalances], whose guard leaves out the
    length test, computes what [calculateNetBalances] computes. *)
Theorem groupBalances_are_net_balances (g : Group) (s : Store) (o : JS.object) :
  groupBalances g s = Some o ->
  o = calculateNetBalances
        (mkState (map (fun id => mkPerson id "" false) (memberIds g))
           (filter (fun exp => String.eqb (groupId exp) (group_id g))
              (expenses (engine_state s)))).
Proof.
  unfold groupBalances, calculateNetBalances, engine_state. cbn [people expenses].
  assert (F : forall l,
             map entry (filter (fun e => String.eqb (groupId (entry e)) (group_id g)) l)
             = filter (fun exp => String.eqb (groupId exp) (group_id g)) (map entry l)).
  { induction l as [|e l IH]; simpl; [reflexivity|].
    destruct (String.eqb (groupId (entry e)) (group_id g)); simpl; now rewrite IH. }
  rewrite <- F, fold_members.
  destruct (filter _ (store_entries s)) as [|e l]; [discriminate|].
  intros [= <-]. change (map entry l) with (List.tl (map entry (e :: l))).
  cbn [map List.tl fold_left]. now rewrite fold_apply_group_expense, apply_group_expense_eq.
Qed.

Lemma groupBalances_are_net_balances_witness :
  let g := mkGroup "g1" "Trip" "" ["A"; "B"] in
  let s := mkStore Examples.abc [g]
             [mkEntry "e1" "t"
                (mkExpense "Taxi" 30 "2024-02-01" "A" [mkSplit "A" 15; mkSplit "B" 15]
                   "g1" "Travel" "" "expense")] in
  groupBalances g s = Some [("A", 15); ("B", -15)]
  /\ [("A", 15); ("B", -15)]
     = calculateNetBalances
         (mkState (map (fun id => mkPerson id "" false) (memberIds g))
            (filter (fun exp => String.eqb (groupId exp) (group_id g))
               (expenses (engine_state s)))).
Proof.
  intros g s. split; [vm_compute; reflexivity|].
  apply (groupBalances_are_net_balances g s). vm_compute. reflexivity.
Defined.

(** X15.  A settlement recorded with "Settle Up" belongs to no group: it
    changes the summary of no group that has an id, whoever pays whom. *)
Theorem settleUp_leaves_groups (id now today : string) (t : Settlement) (g : Group)
    (s : Store) :
  group_id g <> "" ->
  groupBalances g (settleUp id now today t s) = groupBalances g s.
Proof.
  intros Hg. unfold settleUp.
  destruct (find_person (fromId t) (store_people s)); [|reflexivity].
  destruct (find_person (toId t) (store_people s)); [|reflexivity].
  unfold groupBalances. cbn [store_entries].
  rewrite filter_app. cbn [filter entry handleSettleUpClick groupId].
  destruct (String.eqb_spec "" (group_id g)) as [E|_]; [now symmetry in E|].
  now rewrite app_nil_r.
Qed.

Lemma settleUp_leaves_groups_witness :
  let g := mkGroup "g1" "Trip" "" ["A"; "B"] in
  let s := mkStore Examples.abc [g]
             [mkEntry "e1" "t"
                (mkExpense "Taxi" 30 "2024-02-01" "A" [mkSplit "A" 15; mkSplit "B" 15]
                   "g1" "Travel" "" "expense")] in
  groupBalances g (settleUp "e2" "t2" "2024-02-02" (mkSettlement "B" "A" 15) s)
  = groupBalances g s
  /\ groupBalances g s = Some [("A", 15); ("B", -15)].
Proof.
  intros g s. split; [|vm_compute; reflexivity].
  apply (settleUp_leaves_groups "e2" "t2" "2024-02-02" (mkSettlement "B" "A" 15) g s).
  discriminate.
Defined.

(** ** calculateNetBalances: who has a balance *)

Lemma fold_apply_expense_frame (es : list Expense) (k : string) :
  (forall exp, In exp es ->
               k <> payerId exp /\ ~ In k (map personId (participantSplits exp))) ->
  forall b, JS.get (fold_left apply_expense es b) k = JS.get b k.
Proof.
  induction es as [|e es IH]; intros H b; simpl; [reflexivity|].
  rewrite IH by (intros exp Hin; apply H; now right).
  destruct (H e (or_introl eq_refl)) as [Hp Hk]. now apply apply_expense_frame.
Qed.

(** X16.  In a state whose ids are ordinary keys, the balances of the
    code are those of [calculateNetBalances], and they hold
    one balance per key, and one for every person of the people list.  An
    ordinary key that neither paid nor took part in any entry has the
    balance 0 if it is the id of a person of the list, and no balance
    otherwise. *)
Theorem net_balances_of_people (st : AppState) :
  ordinary_ids st = true ->
  Plain.calculateNetBalances st = Plain.of_numbers (calculateNetBalances st)
  /\ NoDup (map fst (calculateNetBalances st))
  /\ (forall p, In p (people st) ->
                JS.get (calculateNetBalances st) (person_id p) <> None)
  /\ (forall k,
        JS.ordinary_key k = true ->
        (forall exp, In exp (expenses st) ->
                     k <> payerId exp /\ ~ In k (map personId (participantSplits exp))) ->
        JS.get (calculateNetBalances st) k
        = if existsb (fun p => String.eqb (person_id p) k) (people st)
          then Some 0 else None).
Proof.
  intros Hord. split; [now apply calculateNetBalances_ordinary|].
  split; [apply calculateNetBalances_keys|].
  split; [intros p; apply calculateNetBalances_people|].
  intros k _ H. unfold calculateNetBalances.
  rewrite (fold_apply_expense_frame _ _ H), get_init_people. reflexivity.
Qed.

Lemma net_balances_of_people_witness :
  ordinary_ids (mkState Examples.abc [Examples.expense60]) = true
  /\ JS.get (calculateNetBalances (mkState Examples.abc [Examples.expense60])) "B" <> None
  /\ JS.get (calculateNetBalances (mkState Examples.abc [Examples.expense60])) "Z" = None.
Proof.
  split; [reflexivity|].
  destruct (net_balances_of_people (mkState Examples.abc [Examples.expense60]) eq_refl)
    as (_ & _ & P & U).
  split.
  - apply (P (mkPerson "B" "B" false)). simpl. tauto.
  - apply (U "Z" eq_refl). intros exp [<-|[]]. simpl.
    split; [discriminate|]. intros [H|[H|[H|[]]]]; discriminate H.
Defined.

Local Open Scope R_scope.

(** ** calculateNetBalances: the balances add up to zero *)

Lemma weight_R_pos (o : JS.object) : 0 <= weight_R o.
Proof.
  induction o as [|kv o IH]; simpl; [lra|].
  pose proof (Rabs_pos (B2R (snd kv))). lra.
Qed.

Lemma set_known (o : JS.object) (k : string) (v v' : float) :
  JS.get o k = Some v ->
  total_R (JS.set o k v') = total_R o + (B2R v' - B2R v)
  /\ weight_R (JS.set o k v') <= weight_R o + Rabs (B2R v' - B2R v)
  /\ List.length (JS.set o k v') = List.length o
  /\ Rabs (B2R v) <= weight_R o.
Proof.
  induction o as [|[k' v0] o IH]; simpl; [discriminate|].
  destruct (String.eqb k' k).
  - intros [= ->]. simpl. pose proof (weight_R_pos o).
    repeat split; try lra. split_Rabs; lra.
  - intros H. destruct (IH H) as (T & W & L & B). simpl.
    pose proof (Rabs_pos (B2R v0)).
    repeat split; try lra. now rewrite L.
Qed.

Lemma set_new (o : JS.object) (k : string) (v : float) :
  JS.get o k = None ->
  total_R (JS.set o k v) = total_R o + B2R v
  /\ weight_R (JS.set o k v) = weight_R o + Rabs (B2R v)
  /\ List.length (JS.set o k v) = S (List.length o).
Proof.
  induction o as [|[k' v0] o IH]; simpl.
  - intros _. repeat split; lra.
  - destruct (String.eqb k' k); [discriminate|].
    intros H. destruct (IH H) as (T & W & L). simpl.
    repeat split; try lra. now rewrite L.
Qed.

Lemma all_finite_set (o : JS.object) (k : string) (v : float) :
  all_finite o -> finite_number v -> all_finite (JS.set o k v).
Proof.
  intros H Fv. induction H as [|[k' v0] o F0 H IH]; simpl.
  - repeat constructor. exact Fv.
  - destruct (String.eqb k' k); constructor; assumption.
Qed.

Lemma all_finite_get (o : JS.object) (k : string) (v : float) :
  all_finite o -> JS.get o k = Some v -> finite_number v.
Proof.
  intros H. induction H as [|[k' v0] o F0 H IH]; simpl; [discriminate|].
  destruct (String.eqb k' k); [now intros [= <-]|exact IH].
Qed.

(** The lazy initialisation adds at most one balance, at zero. *)
Lemma lazy_init_measure (o : JS.object) (k : string) :
  let o' := match JS.get o k with None => JS.set o k 0 | Some _ => o end in
  total_R o' = total_R o /\ weight_R o' = weight_R o
  /\ (all_finite o -> all_finite o')
  /\ (List.length o' <= S (List.length o))%nat
  /\ exists v, JS.get o' k = Some v.
Proof.
  cbv zeta. destruct (JS.get o k) as [v|] eqn:E.
  - repeat split; auto. now exists v.
  - destruct (set_new o k 0 E) as (T & W & L).
    rewrite B2R_zero in T, W. rewrite Rabs_R0 in W.
    repeat split; try lra.
    + intros H. apply all_finite_set; [exact H|exact I].
    + rewrite L. apply le_n.
    + exists 0%float. apply get_set_same.
Qed.

Lemma weight_is_small (w a : R) :
  0 <= w <= 2001001001 -> Rabs a <= 1000000 ->
  forall x, Rabs x <= w -> Rabs (x + a) <= 2002001001 /\ Rabs (x - a) <= 2002001001.
Proof. intros Hw Ha x Hx. split; split_Rabs; lra. Qed.

(** One assignment [balances[k] -= a] or [balances[k] += a] on a balance
    that exists: the sum of the balances moves by [a], within a millionth. *)
Lemma assign_sub (o : JS.object) (k : string) (v a : float) :
  JS.get o k = Some v -> all_finite o -> finite_number a ->
  Rabs (B2R a) <= 1000000 -> weight_R o <= 2001001001 ->
  all_finite (JS.set o k (v - a))
  /\ List.length (JS.set o k (v - a)) = List.length o
  /\ Rabs (total_R (JS.set o k (v - a)) - (total_R o - B2R a)) <= / 1000000
  /\ weight_R (JS.set o k (v - a)) <= weight_R o + 1000000 + / 1000000.
Proof.
  intros G F Fa Ha W.
  pose proof (all_finite_get _ _ _ F G) as Fv.
  destruct (set_known o k v (v - a)%float G) as (T & W' & L & B).
  pose proof (weight_R_pos o) as P.
  destruct (weight_is_small (weight_R o) (B2R a) ltac:(lra) Ha (B2R v) B) as [_ S].
  destruct (sub_error v a Fv Fa) as [Fs Es].
  { apply small_is_finite. lra. }
  assert (E : Rabs (B2R (v - a) - (B2R v - B2R a)) <= / 1000000).
  { eapply Rle_trans; [apply (rel_abs _ _ _ Es S)|]. rewrite bpow_m51. lra. }
  split; [now apply all_finite_set|]. split; [exact L|].
  rewrite T. split.
  - replace (total_R o + (B2R (v - a) - B2R v) - (total_R o - B2R a))
      with (B2R (v - a) - (B2R v - B2R a)) by ring. exact E.
  - eapply Rle_trans; [exact W'|]. revert E Ha. clear. intros. split_Rabs; lra.
Qed.

Lemma assign_add (o : JS.object) (k : string) (v a : float) :
  JS.get o k = Some v -> all_finite o -> finite_number a ->
  Rabs (B2R a) <= 1000000 -> weight_R o <= 2001001001 ->
  all_finite (JS.set o k (v + a))
  /\ List.length (JS.set o k (v + a)) = List.length o
  /\ Rabs (total_R (JS.set o k (v + a)) - (total_R o + B2R a)) <= / 1000000
  /\ weight_R (JS.set o k (v + a)) <= weight_R o + 1000000 + / 1000000.
Proof.
  intros G F Fa Ha W.
  pose proof (all_finite_get _ _ _ F G) as Fv.
  destruct (set_known o k v (v + a)%float G) as (T & W' & L & B).
  pose proof (weight_R_pos o) as P.
  destruct (weight_is_small (weight_R o) (B2R a) ltac:(lra) Ha (B2R v) B) as [S _].
  destruct (add_error v a Fv Fa) as [Fs Es].
  { apply small_is_finite. lra. }
  assert (E : Rabs (B2R (v + a) - (B2R v + B2R a)) <= / 1000000).
  { eapply Rle_trans; [apply (rel_abs _ _ _ Es S)|]. rewrite bpow_m51. lra. }
  split; [now apply all_finite_set|]. split; [exact L|].
  rewrite T. split.
  - replace (total_R o + (B2R (v + a) - B2R v) - (total_R o + B2R a))
      with (B2R (v + a) - (B2R v + B2R a)) by ring. exact E.
  - eapply Rle_trans; [exact W'|]. revert E Ha. clear. intros. split_Rabs; lra.
Qed.

Lemma balanced_within_mono (L n n' : nat) (o : JS.object) :
  balanced_within L n o -> (n <= n')%nat -> balanced_within L n' o.
Proof.
  intros (F & W & T & Len) H. apply le_INR in H as HR.
  pose proof (pos_INR n).
  repeat split; [exact F| | |lia].
  - eapply Rle_trans; [exact W|]. apply Rmult_le_compat_r; lra.
  - eapply Rle_trans; [exact T|]. apply Rmult_le_compat_r; lra.
Qed.

Lemma INR_below_1000 (n : nat) : (n < 1000)%nat -> 0 <= INR n <= 999.
Proof.
  intros H. split; [apply pos_INR|].
  replace 999 with (INR 999) by (simpl; lra). apply le_INR. lia.
Qed.

(** One share of a normal expense. *)
Lemma expense_split_measure (L n : nat) (payer : string) (o : JS.object) (ps : Split) :
  balanced_within L n o -> (n < 1000)%nat ->
  finite_number (amount ps) -> Rabs (B2R (amount ps)) <= 1000000 ->
  balanced_within L (S n) (expense_split payer o ps).
Proof.
  intros (F & W & T & Len) Hn Fa Ha. apply INR_below_1000 in Hn.
  unfold expense_split. cbv zeta.
  pose proof (lazy_init_measure o (personId ps)) as H1. cbv zeta in H1.
  destruct H1 as (T1 & W1 & F1 & L1 & v1 & G1).
  set (o1 := match JS.get o (personId ps) with
             | None => JS.set o (personId ps) 0
             | Some _ => o
             end) in *.
  rewrite G1. cbn [JS.toNumber].
  destruct (assign_sub o1 (personId ps) v1 (amount ps) G1 (F1 F) Fa Ha ltac:(lra))
    as (F2 & L2 & T2 & W2).
  set (o2 := JS.set o1 (personId ps) (v1 - amount ps)%float) in *.
  pose proof (lazy_init_measure o2 payer) as H3. cbv zeta in H3.
  destruct H3 as (T3 & W3 & F3 & L3 & v3 & G3).
  set (o3 := match JS.get o2 payer with
             | None => JS.set o2 payer 0
             | Some _ => o2
             end) in *.
  rewrite G3. cbn [JS.toNumber].
  destruct (assign_add o3 payer v3 (amount ps) G3 (F3 F2) Fa Ha ltac:(lra))
    as (F4 & L4 & T4 & W4).
  unfold balanced_within. rewrite S_INR.
  split; [exact F4|]. split; [lra|]. split; [|lia].
  revert T T1 T2 T3 T4. clear. intros. split_Rabs; lra.
Qed.

(** One share of a settlement whose payer has a balance. *)
Lemma settlement_split_measure (L n : nat) (payer : string) (o : JS.object) (ps : Split) :
  balanced_within L n o -> (n < 1000)%nat -> JS.get o payer <> None ->
  finite_number (amount ps) -> Rabs (B2R (amount ps)) <= 1000000 ->
  balanced_within L (S n) (settlement_split payer o ps).
Proof.
  intros (F & W & T & Len) Hn G Fa Ha. apply INR_below_1000 in Hn.
  unfold settlement_split. cbv zeta.
  destruct (JS.get o payer) as [v0|] eqn:G0; [clear G|contradiction].
  cbn [JS.toNumber].
  destruct (assign_sub o payer v0 (amount ps) G0 F Fa Ha ltac:(lra))
    as (F2 & L2 & T2 & W2).
  set (o2 := JS.set o payer (v0 - amount ps)%float) in *.
  pose proof (lazy_init_measure o2 (personId ps)) as H3. cbv zeta in H3.
  destruct H3 as (T3 & W3 & F3 & L3 & v3 & G3).
  set (o3 := match JS.get o2 (personId ps) with
             | None => JS.set o2 (personId ps) 0
             | Some _ => o2
             end) in *.
  rewrite G3. cbn [JS.toNumber].
  destruct (assign_add o3 (personId ps) v3 (amount ps) G3 (F3 F2) Fa Ha ltac:(lra))
    as (F4 & L4 & T4 & W4).
  unfold balanced_within. rewrite S_INR.
  split; [exact F4|]. split; [lra|]. split; [|lia].
  revert T T2 T3 T4. clear. intros. split_Rabs; lra.
Qed.

Lemma amount_limit_bound (l : list Split) :
  Forall (fun ps => (JS.Math_abs (amount ps) <=? amount_limit)%float = true) l ->
  Forall (fun ps => finite_number (amount ps) /\ Rabs (B2R (amount ps)) <= 1000000) l.
Proof.
  assert (V : B2R amount_limit = 1000000).
  { unfold B2R, amount_limit.
    change (Prim2SF 1000000) with (S754_finite false 8589934592000000 (-33)).
    cbn [SF2R cond_Zopp].
    replace (bpow (-33)) with (/ bpow 33) by (symmetry; apply (bpow_opp 33)).
    rewrite bpow_IZR by lia. change (2 ^ 33)%Z with 8589934592%Z. lra. }
  apply Forall_impl. intros x H.
  assert (Fl : finite_number amount_limit) by exact I.
  destruct (leb_abs_bound _ _ Fl H) as [F B]. split; [exact F|]. lra.
Qed.

Lemma fold_expense_split_measure (L : nat) (payer : string) (l : list Split) :
  Forall (fun ps => finite_number (amount ps) /\ Rabs (B2R (amount ps)) <= 1000000) l ->
  forall n o,
    balanced_within L n o -> (n + List.length l <= 1000)%nat ->
    balanced_within L (n + List.length l) (fold_left (expense_split payer) l o).
Proof.
  induction 1 as [|ps l [Fa Ha] Hl IH]; intros n o B Hn; simpl in *.
  - now rewrite Nat.add_0_r.
  - replace (n + S (List.length l))%nat with (S n + List.length l)%nat by lia.
    apply IH; [|lia]. apply expense_split_measure; auto. lia.
Qed.

Lemma fold_settlement_split_measure (L : nat) (payer : string) (l : list Split) :
  Forall (fun ps => finite_number (amount ps) /\ Rabs (B2R (amount ps)) <= 1000000) l ->
  forall n o,
    balanced_within L n o -> JS.get o payer <> None -> (n + List.length l <= 1000)%nat ->
    balanced_within L (n + List.length l) (fold_left (settlement_split payer) l o).
Proof.
  induction 1 as [|ps l [Fa Ha] Hl IH]; intros n o B G Hn; simpl in *.
  - now rewrite Nat.add_0_r.
  - replace (n + S (List.length l))%nat with (S n + List.length l)%nat by lia.
    apply IH; [| |lia].
    + apply settlement_split_measure; auto. lia.
    + now apply get_settlement_split_defined.
Qed.

Lemma apply_expense_measure (L n : nat) (ppl : list Person) (o : JS.object) (exp : Expense) :
  balanced_within L n o -> within_limits ppl exp ->
  (forall id, In id (map person_id ppl) -> JS.get o id <> None) ->
  (n + List.length (participantSplits exp) <= 1000)%nat ->
  balanced_within L (n + List.length (participantSplits exp)) (apply_expense o exp).
Proof.
  intros B [Hl Hp] G Hn. apply amount_limit_bound in Hl. unfold apply_expense.
  destruct (_ || _); [apply (balanced_within_mono _ _ _ _ B); lia|].
  destruct (String.eqb_spec (type exp) "settlement") as [E|_].
  - apply fold_settlement_split_measure; auto.
  - apply fold_expense_split_measure; auto.
Qed.

Lemma fold_apply_expense_measure (L : nat) (ppl : list Person) (es : list Expense) :
  Forall (within_limits ppl) es ->
  forall n o,
    balanced_within L n o ->
    (forall id, In id (map person_id ppl) -> JS.get o id <> None) ->
    (n + List.length (flat_map participantSplits es) <= 1000)%nat ->
    balanced_within L (n + List.length (flat_map participantSplits es))
      (fold_left apply_expense es o).
Proof.
  induction 1 as [|exp es He Hes IH]; intros n o B G Hn; simpl in *.
  - now rewrite Nat.add_0_r.
  - rewrite length_app in *. rewrite Nat.add_assoc. apply IH; [| |lia].
    + apply (apply_expense_measure L n ppl); auto. lia.
    + intros id Hid. apply get_apply_expense_defined. now apply G.
Qed.

Lemma init_people_measure (ppl : list Person) :
  forall b,
    Forall (fun kv => snd kv = 0%float) b ->
    Forall (fun kv => snd kv = 0%float)
      (fold_left (fun b p => JS.set b (person_id p) 0) ppl b)
    /\ (List.length (fold_left (fun b p => JS.set b (person_id p) 0) ppl b)
        <= List.length b + List.length ppl)%nat.
Proof.
  assert (S0 : forall b k, Forall (fun kv => snd kv = 0%float) b ->
                           Forall (fun kv => snd kv = 0%float) (JS.set b k 0)
                           /\ (List.length (JS.set b k 0) <= S (List.length b))%nat).
  { intros b k H. induction H as [|[k' v] b Hv H IH]; simpl.
    - split; [repeat constructor|lia].
    - destruct (String.eqb k' k); simpl.
      + split; [constructor; [reflexivity|exact H]|lia].
      + destruct IH as [IH1 IH2]. split; [constructor; assumption|lia]. }
  induction ppl as [|p ppl IH]; intros b H; simpl.
  - split; [exact H|lia].
  - destruct (S0 b (person_id p) H) as [Z Len].
    destruct (IH _ Z) as [Z' Len']. split; [exact Z'|lia].
Qed.

Lemma zeros_measure (b : JS.object) :
  Forall (fun kv => snd kv = 0%float) b ->
  all_finite b /\ total_R b = 0 /\ weight_R b = 0.
Proof.
  induction 1 as [|[k v] b Hv H (F & T & W)]; simpl in *.
  - repeat split; [constructor|..]; reflexivity.
  - subst v. rewrite B2R_zero, Rabs_R0, T, W.
    repeat split; [constructor; [exact I|exact F]|lra|lra].
Qed.

(** The sum of the balances as the code adds them, against the sum of
    their values. *)
Lemma sum_values_measure (l : JS.object) :
  all_finite l ->
  forall s,
    finite_number s ->
    Rabs (B2R s) + weight_R l + INR (List.length l) * / 1000000 <= 2001001001 ->
    finite_number (fold_left (fun s kv => (s + snd kv)%float) l s)
    /\ Rabs (B2R (fold_left (fun s kv => (s + snd kv)%float) l s) - (B2R s + total_R l))
       <= INR (List.length l) * / 1000000.
Proof.
  induction 1 as [|[k v] l Fv Fl IH]; intros s Fs Hs.
  - simpl. split; [exact Fs|]. split_Rabs; lra.
  - cbn [fold_left snd total_R weight_R List.length] in *. rewrite S_INR in *.
    pose proof (weight_R_pos l) as P. pose proof (pos_INR (List.length l)) as N.
    assert (S : Rabs (B2R s + B2R v) <= 2001001001).
    { eapply Rle_trans; [apply Rabs_triang|]. lra. }
    destruct (add_error s v Fs Fv) as [Fa Ea].
    { apply small_is_finite. lra. }
    assert (E : Rabs (B2R (s + v) - (B2R s + B2R v)) <= / 1000000).
    { eapply Rle_trans; [apply (rel_abs _ _ _ Ea S)|]. rewrite bpow_m51. lra. }
    destruct (IH (s + v)%float Fa) as [F' E'].
    { assert (Rabs (B2R (s + v)) <= Rabs (B2R s) + Rabs (B2R v) + / 1000000).
      { revert E. clear. intros. split_Rabs; lra. }
      lra. }
    split; [exact F'|].
    revert E E'. clear. intros. split_Rabs; lra.
Qed.

Local Close Scope R_scope.

(** X17.  The balances add up to zero.  In a state whose ids are
    ordinary keys (so that the balances of the code are those of
    [calculateNetBalances]), with at most 1000 persons and 1000 shares over all
    entries, no share above 1000000 and every settlement paid by a person of
    the list, the sum of the net balances, as the code adds them, is a
    number within 0.01 of zero. *)
Theorem net_balances_sum_to_zero (st : AppState) :
  ordinary_ids st = true ->
  (List.length (people st) <= 1000)%nat ->
  (List.length (flat_map participantSplits (expenses st)) <= 1000)%nat ->
  Forall (within_limits (people st)) (expenses st) ->
  Plain.calculateNetBalances st = Plain.of_numbers (calculateNetBalances st)
  /\ (JS.Math_abs (sum_values (calculateNetBalances st)) <=? 0.01) = true.
Proof.
  intros Hord HP HN HE. split; [now apply calculateNetBalances_ordinary|]. clear Hord.
  destruct (init_people_measure (people st) [] (Forall_nil _)) as [Z Len].
  destruct (zeros_measure _ Z) as (F0 & T0 & W0).
  assert (B0 : balanced_within (List.length (people st)) 0
                 (fold_left (fun b p => JS.set b (person_id p) 0) (people st) [])).
  { unfold balanced_within. rewrite T0, W0, Rabs_R0. simpl in *.
    repeat split; [exact F0|lra|lra|lia]. }
  pose proof (fold_apply_expense_measure (List.length (people st)) (people st)
                (expenses st) HE 0 _ B0) as B.
  cbn [Nat.add] in B.
  assert (G : forall id, In id (map person_id (people st)) ->
                         JS.get (fold_left (fun b p => JS.set b (person_id p) 0)
                                   (people st) []) id <> None).
  { intros id Hid. rewrite get_init_people.
    replace (existsb _ (people st)) with true; [discriminate|].
    symmetry. apply existsb_exists. apply in_map_iff in Hid.
    destruct Hid as [p [<- Hp]]. exists p. split; [exact Hp|apply String.eqb_refl]. }
  specialize (B G HN). fold (calculateNetBalances st) in B.
  destruct B as (F & W & T & L).
  set (n := List.length (flat_map participantSplits (expenses st))) in *.
  set (o := calculateNetBalances st) in *.
  assert (Hn : (INR n <= 1000)%R).
  { replace 1000%R with (INR 1000) by (simpl; lra). now apply le_INR. }
  assert (Hk : (INR (List.length o) <= 3000)%R).
  { replace 3000%R with (INR 3000) by (simpl; lra). apply le_INR. lia. }
  pose proof (pos_INR n) as Pn. pose proof (pos_INR (List.length o)) as Pk.
  pose proof (weight_R_pos o) as Pw.
  destruct (sum_values_measure o F 0 I) as [Fs Es].
  { rewrite B2R_zero, Rabs_R0. lra. }
  fold (sum_values o) in Fs, Es. rewrite B2R_zero in Es.
  unfold JS.Math_abs.
  destruct (abs_R (sum_values o)) as [Va Fa].
  apply leb_R; [now apply Fa|exact I|].
  rewrite Va. pose proof B2R_cent as C.
  revert Es T Hn Hk Pn Pk C. clear. intros. split_Rabs; lra.
Qed.

Lemma net_balances_sum_to_zero_witness :
  (JS.Math_abs
     (sum_values
        (calculateNetBalances
           (mkState Examples.abc [Examples.expense60; Examples.B_pays_A_20])))
   <=? 0.01) = true.
Proof.
  apply net_balances_sum_to_zero.
  - reflexivity.
  - simpl. lia.
  - simpl. lia.
  - repeat constructor; simpl; try discriminate; tauto.
Defined.
